(** * Resumable chunked upload engine: a shallow embedding and its properties

    The development follows the layout of the Python backend:

    - [Py]            the few built-ins the code relies on ([int], [str.strip],
                      [str.lower], [sorted], and [PurePath.name],
                      [suffix] and [stem]);
    - [Json]          [json.loads], as far as it accepts or rejects a text,
                      and the texts on which it raises nothing else;
    - [TextIO]        reading a UTF-8 text file line by line;
    - [Hashlib]       [hashlib.sha256];
    - [Storage]       [backend/app/storage.py];
    - [Models]        the records of [backend/app/models.py];
    - [UploadService] [backend/app/upload_service.py];
    - [AIIntegration] [backend/app/ai_integration.py];
    - [Main]          the request handlers of [backend/app/main.py];
    - [Client], [Spec], [Examples]
                      the vocabulary of the properties: runs of requests,
                      the JSONL rule in the words of the specification, and
                      concrete runs;
    - [Catalog]       the metadata and catalogue functions of
                      [backend/app/ai_integration.py];
    - [Handlers]      the init and chunk routes of [backend/app/main.py],
                      from the request as it arrives, and the completion
                      handler with its catalogue steps;
    - [Notions]       predicates used by the properties;
    - [Scenarios]     a run that stages a dataset.

    Conventions of the embedding.

    - The disk is an explicit value threaded through every operation.  The
      two roots are finite maps: [uploads] maps an upload id to its chunk
      directory (file name to contents), [completed] maps a file name to
      its contents.  Upload ids are taken to be single path components
      naming an entry directly below their root.  A file name is read the
      way [pathlib] reads it where the output file is opened: a name that
      denotes a directory and a name that cannot be opened below
      [completed_dir] are told apart there.  Any other name is the key of
      its file; the properties that depend on which file a name denotes
      are stated for [plain_name]s, the names of one entry directly below
      [completed_dir].
    - Python [int] is [Z]; [bytes] is [list byte]; [str] is [string], the
      UTF-8 form of the text; [set[int]] is [gset Z]; the session
      dictionary is a [gmap].  The session object stored in the dictionary
      is mutated in place by the source, which is rendered as an update of
      the dictionary entry.  [str.strip] removes the white space of
      Unicode, read on the UTF-8 form; the character classes of
      [str.lower] and [int] are the ASCII ones.
    - I/O failures are inputs.  They are injected at the places where the
      source catches them ([store_chunk], with the creation of the
      directory inside its loop, [get_chunk], [reassemble_file],
      [cleanup_chunks]) and, for the chunk route, where the handler turns
      them into a 500; every other filesystem call is taken to succeed.
    - A request body or form arrives with each field given, absent or of
      the wrong type; the framework answers 422 before the handler runs.
    - Values drawn from the environment ([uuid4], the clock) are arguments.
    - The catalogue file is the JSON value it holds; reading and writing
      it are taken to succeed.
    - Request handling is sequential. *)

From Stdlib Require Import ZArith List String Ascii Strings.Byte Bool Lia.
From stdpp Require Import gmap strings list fin_maps pretty sorting.

Set Warnings "-clear-no-such-hyp".

Abbreviation bytes := (list byte).

(** ** Python built-ins used by the backend *)
Module Py.

(** The ASCII characters for which [str.isspace] holds. *)
Definition isspace (c : ascii) : bool :=
  let n := N_of_ascii c in
  ((9 <=? n) && (n <=? 13) || (28 <=? n) && (n <=? 32))%N.

(** The ASCII white space that [int()] skips around a numeral: the
    separators 28 to 31 are not part of it. *)
Definition is_c_space (c : ascii) : bool :=
  let n := N_of_ascii c in
  ((9 <=? n) && (n <=? 13) || (n =? 32))%N.

Fixpoint lstrip_by (space : ascii → bool) (s : string) : string :=
  match s with
  | String c s' => if space c then lstrip_by space s' else s
  | EmptyString => EmptyString
  end.

Definition strip_by (space : ascii → bool) (s : string) : string :=
  String.rev (lstrip_by space (String.rev (lstrip_by space s))).

(** The other characters for which [str.isspace] holds, in UTF-8:
    U+0085 and U+00A0 take two bytes; U+1680, U+2000 to U+200A, U+2028,
    U+2029, U+202F, U+205F and U+3000 take three. *)
Definition space2 (c1 c2 : ascii) : bool :=
  let '(a, b) := (N_of_ascii c1, N_of_ascii c2) in
  ((a =? 194) && ((b =? 133) || (b =? 160)))%N.

Definition space3 (c1 c2 c3 : ascii) : bool :=
  let '(a, b, c) := (N_of_ascii c1, N_of_ascii c2, N_of_ascii c3) in
  ((a =? 225) && (b =? 154) && (c =? 128)
   || (a =? 226) && (b =? 128)
      && ((128 <=? c) && (c <=? 138) || (c =? 168) || (c =? 169) || (c =? 175))
   || (a =? 226) && (b =? 129) && (c =? 159)
   || (a =? 227) && (b =? 128) && (c =? 128))%N.

(** [s.lstrip()] on UTF-8 text. *)
Fixpoint lstrip (s : string) : string :=
  match s with
  | String c1 s1 =>
      if isspace c1 then lstrip s1
      else
        match s1 with
        | String c2 s2 =>
            if space2 c1 c2 then lstrip s2
            else
              match s2 with
              | String c3 s3 => if space3 c1 c2 c3 then lstrip s3 else s
              | EmptyString => s
              end
        | EmptyString => s
        end
  | EmptyString => s
  end.

(** The same from the end of the text, which is given reversed. *)
Fixpoint lstrip_reversed (s : string) : string :=
  match s with
  | String c1 s1 =>
      if isspace c1 then lstrip_reversed s1
      else
        match s1 with
        | String c2 s2 =>
            if space2 c2 c1 then lstrip_reversed s2
            else
              match s2 with
              | String c3 s3 =>
                  if space3 c3 c2 c1 then lstrip_reversed s3 else s
              | EmptyString => s
              end
        | EmptyString => s
        end
  | EmptyString => s
  end.

(** [s.strip()] on UTF-8 text. *)
Definition strip (s : string) : string :=
  String.rev (lstrip_reversed (String.rev (lstrip s))).

Definition digit (c : ascii) : option Z :=
  let n := N_of_ascii c in
  if ((48 <=? n) && (n <=? 57))%N then Some (Z.of_N n - 48)%Z else None.

(** Decimal digits, single underscores allowed between two digits. *)
Fixpoint int_digits (acc : Z) (after_digit : bool) (s : string) : option Z :=
  match s with
  | EmptyString => if after_digit then Some acc else None
  | String c s' =>
      match digit c with
      | Some d => int_digits (10 * acc + d)%Z true s'
      | None =>
          if (Ascii.eqb c "_" && after_digit)%bool
          then int_digits acc false s'
          else None
      end
  end.

(** [int(s)] for an ASCII [str]: [None] stands for [ValueError]. *)
Definition int (s : string) : option Z :=
  match strip_by is_c_space s with
  | String "-" s' => Z.opp <$> int_digits 0 false s'
  | String "+" s' => int_digits 0 false s'
  | s' => int_digits 0 false s'
  end.

Definition lower_char (c : ascii) : ascii :=
  let n := N_of_ascii c in
  if ((65 <=? n) && (n <=? 90))%N then ascii_of_N (n + 32) else c.

(** [s.lower()] on ASCII text. *)
Fixpoint lower (s : string) : string :=
  match s with
  | EmptyString => EmptyString
  | String c s' => String (lower_char c) (lower s')
  end.

(** [s.rfind('.')], as an offset from the start, [None] for [-1]. *)
Fixpoint rfind_dot (s : string) : option nat :=
  match s with
  | EmptyString => None
  | String c s' =>
      match rfind_dot s' with
      | Some i => Some (S i)
      | None => if Ascii.eqb c "." then Some 0%nat else None
      end
  end.

(** The pieces of a path between its slashes; [cur] is the piece being
    read. *)
Fixpoint pieces (cur : string) (path : string) : list string :=
  match path with
  | EmptyString => [cur]
  | String c path' =>
      if Ascii.eqb c "/" then cur :: pieces EmptyString path'
      else pieces (cur +:+ String c EmptyString) path'
  end.

(** The components of a path as [PurePosixPath] keeps them: empty pieces
    and single dots are dropped, double dots stay. *)
Definition parts (path : string) : list string :=
  filter (λ piece, piece ≠ EmptyString ∧ piece ≠ ".") (pieces EmptyString path).

Definition is_absolute (path : string) : bool :=
  match path with
  | String c _ => Ascii.eqb c "/"
  | EmptyString => false
  end.

(** [(directory / path).name]: the final component.  A path without
    components denotes the directory itself, whose own name is taken to
    have no dot. *)
Definition name (path : string) : string := default EmptyString (last (parts path)).

(** The suffix of one component: the last dot and what follows it, unless
    the dot is the first or the last character. *)
Definition suffix_of (name : string) : string :=
  match rfind_dot name with
  | Some i =>
      if ((0 <? i) && (i <? String.length name - 1))%nat
      then String.substring i (String.length name - i) name
      else EmptyString
  | None => EmptyString
  end.

(** [(directory / path).suffix]: the suffix of the final component. *)
Definition suffix (path : string) : string := suffix_of (name path).

(** [entry.stem] for an entry of a directory listing: the name without
    its suffix. *)
Definition stem (name : string) : string :=
  match rfind_dot name with
  | Some i =>
      if ((0 <? i) && (i <? String.length name - 1))%nat
      then String.substring 0 i name
      else name
  | None => name
  end.

(** [name.endswith(sfx)] *)
Definition endswith (name sfx : string) : bool :=
  let n := String.length name in
  let k := String.length sfx in
  ((k <=? n)%nat && String.eqb (String.substring (n - k) k name) sfx)%bool.

(** [sorted(xs)] on integers. *)
Definition sorted (xs : list Z) : list Z := merge_sort Z.le xs.

(** [max(xs)] on a non-empty list of integers; [None] stands for the
    [ValueError] raised on an empty sequence. *)
Definition max (xs : list Z) : option Z :=
  match xs with
  | [] => None
  | x :: xs' => Some (fold_left Z.max xs' x)
  end.

(** [len(xs)] *)
Definition len {A} (xs : list A) : Z := Z.of_nat (length xs).

(** [repr] of a list of integers, as interpolated by an f-string. *)
Fixpoint repr_items (xs : list Z) : string :=
  match xs with
  | [] => ""
  | [x] => pretty x
  | x :: xs' => pretty x +:+ ", " +:+ repr_items xs'
  end.
Definition repr_list (xs : list Z) : string := "[" +:+ repr_items xs +:+ "]".

End Py.

(** ** json.loads, as a recogniser

    [loads s = true] when [json.loads(s)] returns, [false] when it raises
    [JSONDecodeError].  The grammar is the one of the standard decoder in
    its default (strict) mode, which also accepts [NaN], [Infinity] and
    [-Infinity].  The text is the UTF-8 encoding of the decoded [str].
    The limits of the interpreter (recursion depth, length of an integer
    literal) are not part of the recogniser. *)
Module Json.

Definition quote : ascii := "034"%char.
Definition backslash : ascii := "092"%char.

Definition is_ws (c : ascii) : bool :=
  let n := N_of_ascii c in
  ((n =? 32) || (n =? 9) || (n =? 10) || (n =? 13))%N.

Fixpoint skip_ws (s : string) : string :=
  match s with
  | String c r => if is_ws c then skip_ws r else s
  | EmptyString => EmptyString
  end.

Definition is_digit (c : ascii) : bool :=
  let n := N_of_ascii c in ((48 <=? n) && (n <=? 57))%N.

Definition is_hex (c : ascii) : bool :=
  let n := N_of_ascii c in
  (is_digit c || (65 <=? n) && (n <=? 70) || (97 <=? n) && (n <=? 102))%N.

Definition is_escape (c : ascii) : bool :=
  existsb (Ascii.eqb c) [quote; backslash; "/"; "b"; "f"; "n"; "r"; "t"]%char.

Fixpoint skip_digits (s : string) : string :=
  match s with
  | String c r => if is_digit c then skip_digits r else s
  | EmptyString => EmptyString
  end.

Definition starts_with_digit (s : string) : bool :=
  match s with
  | String c _ => is_digit c
  | EmptyString => false
  end.

(** The body of a string, after the opening quote; the result is what
    follows the closing quote. *)
Fixpoint scanstring (s : string) : option string :=
  match s with
  | EmptyString => None
  | String c r =>
      if Ascii.eqb c quote then Some r
      else if Ascii.eqb c backslash then
        match r with
        | String e r' =>
            if Ascii.eqb e "u" then
              match r' with
              | String h1 (String h2 (String h3 (String h4 r''))) =>
                  if is_hex h1 && is_hex h2 && is_hex h3 && is_hex h4
                  then scanstring r'' else None
              | _ => None
              end
            else if is_escape e then scanstring r' else None
        | EmptyString => None
        end
      else if (N_of_ascii c <? 32)%N then None
      else scanstring r
  end.

(** A number, matched as a prefix: an optional minus sign, then either a
    single zero or a non-zero digit followed by digits; an optional
    fraction (a dot and at least one digit); an optional exponent ([e] or
    [E], an optional sign, at least one digit). *)
Definition scan_int (s : string) : option string :=
  match s with
  | String c r =>
      if Ascii.eqb c "0" then Some r
      else if is_digit c then Some (skip_digits r)
      else None
  | EmptyString => None
  end.

Definition scan_frac (s : string) : string :=
  match s with
  | String "." r => if starts_with_digit r then skip_digits r else s
  | _ => s
  end.

Definition scan_exp (s : string) : string :=
  match s with
  | String c r =>
      if Ascii.eqb c "e" || Ascii.eqb c "E" then
        let r1 :=
          match r with
          | String sign r2 =>
              if Ascii.eqb sign "+" || Ascii.eqb sign "-" then r2 else r
          | EmptyString => r
          end in
        if starts_with_digit r1 then skip_digits r1 else s
      else s
  | EmptyString => s
  end.

Definition scan_number (s : string) : option string :=
  let body := match s with String "-" r => r | _ => s end in
  match scan_int body with
  | Some r => Some (scan_exp (scan_frac r))
  | None => None
  end.

(** [s.startswith(word)], returning what follows the word. *)
Fixpoint strip_prefix (word s : string) : option string :=
  match word, s with
  | EmptyString, _ => Some s
  | String a word', String b s' =>
      if Ascii.eqb a b then strip_prefix word' s' else None
  | String _ _, EmptyString => None
  end.

Definition scan_constant (s : string) : option string :=
  match strip_prefix "null" s with
  | Some r => Some r
  | None =>
  match strip_prefix "true" s with
  | Some r => Some r
  | None =>
  match strip_prefix "false" s with
  | Some r => Some r
  | None =>
  match scan_number s with
  | Some r => Some r
  | None =>
  match strip_prefix "NaN" s with
  | Some r => Some r
  | None =>
  match strip_prefix "Infinity" s with
  | Some r => Some r
  | None => strip_prefix "-Infinity" s
  end end end end end end.

(** One value at the head of [s]; the result is the text after it.  Each
    nested call is made after at least one more character was consumed;
    [loads] supplies a fuel of twice the length of the text plus two. *)
Fixpoint scan_once (fuel : nat) (s : string) : option string :=
  match fuel with
  | O => None
  | S fuel' =>
      match s with
      | EmptyString => None
      | String c r =>
          if Ascii.eqb c quote then scanstring r
          else if Ascii.eqb c "{" then
            match skip_ws r with
            | String "}" r1 => Some r1
            | r1 => scan_members fuel' r1
            end
          else if Ascii.eqb c "[" then
            match skip_ws r with
            | String "]" r1 => Some r1
            | r1 => scan_elements fuel' r1
            end
          else scan_constant s
      end
  end
with scan_members (fuel : nat) (s : string) : option string :=
  match fuel with
  | O => None
  | S fuel' =>
      match s with
      | String q r =>
          if Ascii.eqb q quote then
            match scanstring r with
            | Some r1 =>
                match skip_ws r1 with
                | String ":" r2 =>
                    match scan_once fuel' (skip_ws r2) with
                    | Some r3 =>
                        match skip_ws r3 with
                        | String "}" r4 => Some r4
                        | String "," r4 => scan_members fuel' (skip_ws r4)
                        | _ => None
                        end
                    | None => None
                    end
                | _ => None
                end
            | None => None
            end
          else None
      | EmptyString => None
      end
  end
with scan_elements (fuel : nat) (s : string) : option string :=
  match fuel with
  | O => None
  | S fuel' =>
      match scan_once fuel' s with
      | Some r =>
          match skip_ws r with
          | String "]" r1 => Some r1
          | String "," r1 => scan_elements fuel' (skip_ws r1)
          | _ => None
          end
      | None => None
      end
  end.

Definition loads (s : string) : bool :=
  match scan_once (2 + 2 * String.length s) (skip_ws s) with
  | Some r => String.eqb (skip_ws r) EmptyString
  | None => false
  end.





End Json.

(** ** Text files: [open(path, 'r', encoding='utf-8')] *)
Module TextIO.

Definition cont (b : byte) : bool :=
  let n := Byte.to_N b in ((128 <=? n) && (n <=? 191))%N.
Definition between (lo hi : N) (b : byte) : bool :=
  let n := Byte.to_N b in ((lo <=? n) && (n <=? hi))%N.

(** Well-formed UTF-8 (no overlong forms, no surrogates, at most
    U+10FFFF), the input accepted by the strict decoder. *)
Fixpoint utf8_valid (bs : bytes) : bool :=
  match bs with
  | [] => true
  | b0 :: r0 =>
      if between 0 127 b0 then utf8_valid r0
      else
        match r0 with
        | b1 :: r1 =>
            if between 194 223 b0 then cont b1 && utf8_valid r1
            else
              match r1 with
              | b2 :: r2 =>
                  if between 224 239 b0 then
                    (if between 224 224 b0 then between 160 191 b1
                     else if between 237 237 b0 then between 128 159 b1
                     else cont b1)
                    && cont b2 && utf8_valid r2
                  else
                    match r2 with
                    | b3 :: r3 =>
                        if between 240 244 b0 then
                          (if between 240 240 b0 then between 144 191 b1
                           else if between 244 244 b0 then between 128 143 b1
                           else cont b1)
                          && cont b2 && cont b3 && utf8_valid r3
                        else false
                    | [] => false
                    end
              | [] => false
              end
        | [] => false
        end
  end.

(** The decoded text keeps its UTF-8 form; [None] stands for
    [UnicodeDecodeError]. *)
Definition decode (bs : bytes) : option string :=
  if utf8_valid bs then Some (string_of_list_byte bs) else None.

Definition newline : ascii := "010"%char.
Definition carriage_return : ascii := "013"%char.

(** Iterating over a file opened in text mode with universal newlines:
    each line ends at a line feed, a carriage return or the pair of them,
    and is delivered with a single line feed at its end; the last line
    may lack it.  [cur] is the current line, reversed. *)
Fixpoint lines_from (cur : string) (s : string) : list string :=
  match s with
  | EmptyString =>
      match cur with
      | EmptyString => []
      | _ => [String.rev cur]
      end
  | String c r =>
      if Ascii.eqb c newline then
        String.rev (String newline cur) :: lines_from EmptyString r
      else if Ascii.eqb c carriage_return then
        match r with
        | String c' r' =>
            if Ascii.eqb c' newline
            then String.rev (String newline cur) :: lines_from EmptyString r'
            else String.rev (String newline cur) :: lines_from EmptyString r
        | EmptyString => [String.rev (String newline cur)]
        end
      else lines_from (String c cur) r
  end.

Definition lines (text : string) : list string := lines_from EmptyString text.

End TextIO.

(** ** hashlib.sha256

    The digest function of FIPS 180-4 on 32-bit words held in [Z].  A hash
    object is the sequence of bytes fed to it so far: [update] appends and
    [hexdigest] hashes what has been collected. *)
Module Hashlib.

Definition w32 (x : Z) : Z := x mod 2 ^ 32.
Definition rotr (n x : Z) : Z :=
  Z.lor (Z.shiftr x n) (w32 (Z.shiftl x (32 - n))).
Definition Ch (x y z : Z) : Z :=
  Z.lxor (Z.land x y) (Z.land (w32 (Z.lnot x)) z).
Definition Maj (x y z : Z) : Z :=
  Z.lxor (Z.lxor (Z.land x y) (Z.land x z)) (Z.land y z).
Definition Sigma0 (x : Z) : Z := Z.lxor (Z.lxor (rotr 2 x) (rotr 13 x)) (rotr 22 x).
Definition Sigma1 (x : Z) : Z := Z.lxor (Z.lxor (rotr 6 x) (rotr 11 x)) (rotr 25 x).
Definition sigma0 (x : Z) : Z := Z.lxor (Z.lxor (rotr 7 x) (rotr 18 x)) (Z.shiftr x 3).
Definition sigma1 (x : Z) : Z := Z.lxor (Z.lxor (rotr 17 x) (rotr 19 x)) (Z.shiftr x 10).

(** The constants are defined as in the standard: the first thirty-two
    bits of the fractional parts of the cube roots (round constants) and of
    the square roots (initial hash value) of the first primes. *)
Definition is_prime (n : Z) : bool :=
  forallb (λ d, negb (n mod d =? 0)%Z) (seqZ 2 (n - 2)).

Definition primes : list Z := filter (λ n, is_prime n = true) (seqZ 2 310).

(** The integer cube root, bit by bit from the top. *)
Fixpoint cbrt_bits (bits : nat) (n acc : Z) : Z :=
  match bits with
  | O => acc
  | S bits' =>
      let candidate := (acc + 2 ^ Z.of_nat bits')%Z in
      if (candidate * candidate * candidate <=? n)%Z
      then cbrt_bits bits' n candidate
      else cbrt_bits bits' n acc
  end.

Definition cbrt_fraction (p : Z) : Z := w32 (cbrt_bits 36 (p * 2 ^ 96) 0).
Definition sqrt_fraction (p : Z) : Z := w32 (Z.sqrt (p * 2 ^ 64)).

Definition K : list Z := Eval vm_compute in map cbrt_fraction primes.

(** The eight working variables, also the intermediate hash value. *)
Record regs := Regs { ra : Z; rb : Z; rc : Z; rd : Z; re : Z; rf : Z; rg : Z; rh : Z }.

Definition H0 : regs :=
  Eval vm_compute in
    let h := λ i, sqrt_fraction (nth i primes 0%Z) in
    Regs (h 0%nat) (h 1%nat) (h 2%nat) (h 3%nat)
         (h 4%nat) (h 5%nat) (h 6%nat) (h 7%nat).

Definition round (r : regs) (k w : Z) : regs :=
  let t1 := w32 (rh r + Sigma1 (re r) + Ch (re r) (rf r) (rg r) + k + w) in
  let t2 := w32 (Sigma0 (ra r) + Maj (ra r) (rb r) (rc r)) in
  Regs (w32 (t1 + t2)) (ra r) (rb r) (rc r) (w32 (rd r + t1)) (re r) (rf r) (rg r).

(** The message schedule is kept as a window of the last sixteen words. *)
Definition next_word (w : list Z) : Z :=
  w32 (sigma1 (nth 14 w 0) + nth 9 w 0 + sigma0 (nth 1 w 0) + nth 0 w 0)%Z.

Fixpoint rounds (ks : list Z) (w : list Z) (r : regs) : regs :=
  match ks with
  | [] => r
  | k :: ks' => rounds ks' (tl w ++ [next_word w]) (round r k (nth 0 w 0%Z))
  end.

Fixpoint be_words (n : nat) (block : list Z) : list Z :=
  match n, block with
  | S n', b0 :: b1 :: b2 :: b3 :: rest =>
      (b0 * 2 ^ 24 + b1 * 2 ^ 16 + b2 * 2 ^ 8 + b3)%Z :: be_words n' rest
  | _, _ => []
  end.

Definition compress (h : regs) (block : list Z) : regs :=
  let r := rounds K (be_words 16 block) h in
  Regs (w32 (ra h + ra r)) (w32 (rb h + rb r)) (w32 (rc h + rc r))
       (w32 (rd h + rd r)) (w32 (re h + re r)) (w32 (rf h + rf r))
       (w32 (rg h + rg r)) (w32 (rh h + rh r)).

Fixpoint blocks (n : nat) (data : list Z) (h : regs) : regs :=
  match n with
  | O => h
  | S n' => blocks n' (drop 64 data) (compress h (take 64 data))
  end.

Definition be64 (x : Z) : list Z :=
  map (λ i, (Z.shiftr x (8 * i)) mod 256)%Z [7; 6; 5; 4; 3; 2; 1; 0]%Z.

Definition pad (msg : list Z) : list Z :=
  let n := Z.of_nat (length msg) in
  msg ++ [128%Z] ++ repeat 0%Z (Z.to_nat ((55 - n) mod 64)) ++ be64 (8 * n).

Definition hexchar (x : Z) : ascii :=
  match x mod 16 with
  | 0 => "0" | 1 => "1" | 2 => "2" | 3 => "3" | 4 => "4" | 5 => "5"
  | 6 => "6" | 7 => "7" | 8 => "8" | 9 => "9" | 10 => "a" | 11 => "b"
  | 12 => "c" | 13 => "d" | 14 => "e" | _ => "f"
  end%Z%char.

Definition hex32 (w : Z) (rest : string) : string :=
  String (hexchar (Z.shiftr w 28)) (String (hexchar (Z.shiftr w 24))
  (String (hexchar (Z.shiftr w 20)) (String (hexchar (Z.shiftr w 16))
  (String (hexchar (Z.shiftr w 12)) (String (hexchar (Z.shiftr w 8))
  (String (hexchar (Z.shiftr w 4)) (String (hexchar w) rest))))))).

Definition hex_of_regs (r : regs) : string :=
  hex32 (ra r) (hex32 (rb r) (hex32 (rc r) (hex32 (rd r)
  (hex32 (re r) (hex32 (rf r) (hex32 (rg r) (hex32 (rh r) ""))))))).

Definition byte_val (b : byte) : Z := Z.of_N (Byte.to_N b).

(** The characters of a lowercase hexadecimal numeral. *)
Definition is_lower_hex (c : ascii) : bool :=
  let n := N_of_ascii c in
  ((48 <=? n) && (n <=? 57) || (97 <=? n) && (n <=? 102))%N.

Definition sha256_hex (msg : bytes) : string :=
  let data := pad (map byte_val msg) in
  hex_of_regs (blocks (length data / 64) data H0).

(** The hash object. *)
Definition sha256 : bytes := [].
Definition update (h : bytes) (block : bytes) : bytes := h ++ block.
Definition hexdigest (h : bytes) : string := sha256_hex h.

End Hashlib.

(** ** Exceptions and results *)

Inductive exn :=
| ValueError (msg : string)
| ZeroDivisionError
| FileNotFoundError
| IsADirectoryError.

Inductive result (A : Type) :=
| Return (value : A)
| Raise (e : exn).
Arguments Return {A} value.
Arguments Raise {A} e.

(** ** storage.py *)
Module Storage.

(** The part of the disk owned by a [Storage] object. *)
Record filesystem := Filesystem {
  uploads : gmap string (gmap string bytes);
  completed : gmap string bytes
}.

(** [f"{chunk_index}.chunk"] *)
Definition chunk_name (chunk_index : Z) : string :=
  pretty chunk_index +:+ ".chunk".

(** [chunk_path.with_suffix('.chunk.tmp')]: the decimal rendering of an
    integer has no dot, so the suffix replaced is [".chunk"]. *)
Definition temp_name (chunk_index : Z) : string :=
  pretty chunk_index +:+ ".chunk.tmp".

(** [upload_dir.mkdir(parents=True, exist_ok=True)] *)
Definition mkdir (fs : filesystem) (upload_id : string) : filesystem :=
  match uploads fs !! upload_id with
  | Some _ => fs
  | None => Filesystem (<[upload_id := ∅]> (uploads fs)) (completed fs)
  end.

(** The entries of [uploads_dir / upload_id] (none when it is missing). *)
Definition listdir (fs : filesystem) (upload_id : string) : gmap string bytes :=
  default ∅ (uploads fs !! upload_id).

(** Creating or overwriting one file of an existing upload directory. *)
Definition write_entry (fs : filesystem) (upload_id name : string)
    (data : bytes) : filesystem :=
  Filesystem (<[upload_id := <[name := data]> (listdir fs upload_id)]> (uploads fs))
             (completed fs).

(** [temp_path.replace(chunk_path)] *)
Definition replace_entry (fs : filesystem) (upload_id src dst : string)
    : filesystem :=
  match listdir fs upload_id !! src with
  | Some data =>
      Filesystem
        (<[upload_id := <[dst := data]> (delete src (listdir fs upload_id))]>
           (uploads fs))
        (completed fs)
  | None => fs
  end.

Definition get_chunk_path (fs : filesystem) (upload_id : string)
    (chunk_index : Z) : filesystem * string :=
  (mkdir fs upload_id, chunk_name chunk_index).

(** What the environment does to one attempt of [store_chunk]. *)
Inductive store_event :=
| StoreOk
| StoreOpenFails                    (* OSError opening the temp file *)
| StoreWriteFails (written : nat)   (* OSError after [written] bytes *)
| StoreReplaceFails                 (* OSError in the rename *)
| StoreUnexpected                   (* any other exception *)
| StoreMkdirFails.                  (* OSError creating the directory *)

(** The body of the retry loop, [attempts] iterations left.  An [OSError]
    moves on to the next attempt; after the last one the result is
    [False].  Any other exception returns [False] at once.  When the
    directory cannot be created the first [mkdir] swallows the error and
    the second one, or the opening of the temp file, raises it: the attempt
    ends with the disk as it was. *)
Fixpoint store_chunk_loop (attempts : nat) (fs : filesystem)
    (upload_id : string) (chunk_index : Z) (data : bytes)
    (events : list store_event) : filesystem * bool :=
  match attempts with
  | O => (fs, false)
  | S attempts' =>
      let fs1 := mkdir fs upload_id in
      let retry fs' :=
        store_chunk_loop attempts' fs' upload_id chunk_index data (tl events) in
      match hd StoreOk events with
      | StoreOk =>
          let fs2 := write_entry fs1 upload_id (temp_name chunk_index) data in
          (replace_entry fs2 upload_id (temp_name chunk_index)
             (chunk_name chunk_index), true)
      | StoreOpenFails => retry fs1
      | StoreWriteFails written =>
          retry (write_entry fs1 upload_id (temp_name chunk_index)
                   (take written data))
      | StoreReplaceFails =>
          retry (write_entry fs1 upload_id (temp_name chunk_index) data)
      | StoreUnexpected => (fs1, false)
      | StoreMkdirFails => retry fs
      end
  end.

Definition max_retries : nat := 3.

Definition store_chunk (fs : filesystem) (upload_id : string)
    (chunk_index : Z) (data : bytes) (events : list store_event)
    : filesystem * bool :=
  store_chunk_loop max_retries fs upload_id chunk_index data events.

(** The outcome of the retry loop is decided by the events alone. *)
Fixpoint store_outcome (attempts : nat) (events : list store_event) : bool :=
  match attempts with
  | O => false
  | S attempts' =>
      match hd StoreOk events with
      | StoreOk => true
      | StoreUnexpected => false
      | _ => store_outcome attempts' (tl events)
      end
  end.

Definition chunk_exists (fs : filesystem) (upload_id : string)
    (chunk_index : Z) : filesystem * bool :=
  let '(fs1, chunk_path) := get_chunk_path fs upload_id chunk_index in
  (fs1, bool_decide (is_Some (listdir fs1 upload_id !! chunk_path))).

(** [read_ok = false]: opening or reading the chunk raises, which the
    source turns into [None]. *)
Definition get_chunk (fs : filesystem) (upload_id : string)
    (chunk_index : Z) (read_ok : bool) : filesystem * option bytes :=
  let '(fs1, chunk_path) := get_chunk_path fs upload_id chunk_index in
  match listdir fs1 upload_id !! chunk_path with
  | None => (fs1, None)
  | Some data => (fs1, if read_ok then Some data else None)
  end.

Definition get_chunk_size (fs : filesystem) (upload_id : string)
    (chunk_index : Z) : filesystem * option Z :=
  let '(fs1, chunk_path) := get_chunk_path fs upload_id chunk_index in
  (fs1, Py.len <$> listdir fs1 upload_id !! chunk_path).

(** [upload_dir.glob("*.chunk")], as file names. *)
Definition glob_chunk (dir : gmap string bytes) : list string :=
  filter (λ name, Py.endswith name ".chunk" = true) (map fst (map_to_list dir)).

Definition list_chunks (fs : filesystem) (upload_id : string) : list Z :=
  match uploads fs !! upload_id with
  | None => []
  | Some dir => Py.sorted (omap (λ name, Py.int (Py.stem name)) (glob_chunk dir))
  end.


(** What the environment does to one run of [reassemble_file]: nothing,
    or one failure, after which the run is abandoned. *)
Inductive reassemble_event :=
| ReassembleOk
| OpenOutputFails                          (* [open(output_path, 'wb')] raises *)
| ReadFails (chunk_index : Z)              (* [get_chunk] cannot read this chunk *)
| WriteFails (chunk_index : Z) (written : nat).
                                           (* [outfile.write] raises on this chunk *)

Definition read_fails (ev : reassemble_event) (chunk_index : Z) : bool :=
  match ev with
  | ReadFails k => bool_decide (k = chunk_index)
  | _ => false
  end.

Definition write_fails (ev : reassemble_event) (chunk_index : Z) : option nat :=
  match ev with
  | WriteFails k written =>
      if bool_decide (k = chunk_index) then Some written else None
  | _ => None
  end.

(** [outfile.write(chunk_data)] on the output opened for writing. *)
Definition append_output (fs : filesystem) (output_filename : string)
    (data : bytes) : filesystem :=
  Filesystem (uploads fs)
    (<[output_filename := default [] (completed fs !! output_filename) ++ data]>
       (completed fs)).

(** [output_path.unlink()] *)
Definition unlink (fs : filesystem) (output_filename : string) : filesystem :=
  Filesystem (uploads fs) (delete output_filename (completed fs)).

(** The loop over [range(total_chunks)]; [false] when an exception left
    the loop. *)
Fixpoint reassemble_loop (fs : filesystem) (upload_id output_filename : string)
    (indices : list Z) (ev : reassemble_event) : filesystem * bool :=
  match indices with
  | [] => (fs, true)
  | chunk_index :: rest =>
      let '(fs1, chunk_data) :=
        get_chunk fs upload_id chunk_index (negb (read_fails ev chunk_index)) in
      match chunk_data with
      | None => (fs1, false)
      | Some data =>
          match write_fails ev chunk_index with
          | Some written =>
              (append_output fs1 output_filename (take written data), false)
          | None =>
              reassemble_loop (append_output fs1 output_filename data)
                upload_id output_filename rest ev
          end
      end
  end.

(** The [except Exception] handler: remove the output if it is there. *)
Definition reassemble_failed (fs : filesystem) (output_filename : string)
    : filesystem * option string :=
  (match completed fs !! output_filename with
   | Some _ => unlink fs output_filename
   | None => fs
   end, None).

(** The body of [reassemble_file] for an output path that does not name a
    directory.  The result is the output path, denoted by the file name
    below [completed_dir]. *)
Definition reassemble_try (fs : filesystem) (upload_id : string)
    (total_chunks : Z) (output_filename : string) (expected_size : option Z)
    (ev : reassemble_event) : filesystem * option string :=
  let received_chunks := list_chunks fs upload_id in
  let expected_indices : gset Z := list_to_set (seqZ 0 total_chunks) in
  let received_indices : gset Z := list_to_set received_chunks in
  if bool_decide (expected_indices ≠ received_indices)
  then reassemble_failed fs output_filename
  else
    match ev with
    | OpenOutputFails => reassemble_failed fs output_filename
    | _ =>
        let fs1 := Filesystem (uploads fs) (<[output_filename := []]> (completed fs)) in
        let '(fs2, finished) :=
          reassemble_loop fs1 upload_id output_filename (seqZ 0 total_chunks) ev in
        if finished then
          match expected_size with
          | Some size =>
              let actual_size :=
                Py.len (default [] (completed fs2 !! output_filename)) in
              if bool_decide (actual_size ≠ size)
              then reassemble_failed (unlink fs2 output_filename) output_filename
              else (fs2, Some output_filename)
          | None => (fs2, Some output_filename)
          end
        else reassemble_failed fs2 output_filename
    end.

Definition has_nul (name : string) : bool :=
  existsb (Ascii.eqb zero) (list_ascii_of_string name).

(** [completed_dir / output_filename] is a directory when the name has no
    component or only double dots: [completed_dir] itself (the empty name,
    a dot, [./]), one of its ancestors ([..], [../..]) or the root ([/]).
    A name such as [x/..] would come back to [completed_dir] only through
    a directory [x], which [completed_dir] does not hold. *)
Definition names_directory (output_filename : string) : bool :=
  negb (has_nul output_filename)
  && forallb (String.eqb "..") (Py.parts output_filename).

(** The names that cannot be opened in a [completed_dir] that holds
    regular files only: a name with a NUL character, and a relative name
    of several components that starts below [completed_dir], since its
    first component is missing or is a file. *)
Definition unreachable (output_filename : string) : bool :=
  has_nul output_filename
  || (negb (Py.is_absolute output_filename)
      && match Py.parts output_filename with
         | first :: _ :: _ => negb (String.eqb first "..")
         | _ => false
         end).

(** A name of one entry directly below its root: one component of at
    most 255 bytes, not a dot or two dots, without slash and without NUL.
    Distinct plain names denote distinct files. *)
Definition plain_name (name : string) : bool :=
  negb (bool_decide (name ∈ [""; "."; ".."]))
  && forallb (λ c, negb (Ascii.eqb c "/") && negb (Ascii.eqb c zero))
       (list_ascii_of_string name)
  && (String.length name <=? 255)%nat.

(** When the output path names a directory the output cannot be opened,
    and the handler, which finds that the path exists, fails in [unlink]:
    the exception leaves the function and nothing was written.  When the
    path is unreachable the opening fails whatever the environment does.
    Any other name is taken as the key of the file it denotes; for a name
    that is not plain (an alias such as [./x], a path outside
    [completed_dir], a component longer than the file system allows) the
    properties below that depend on the name carry [plain_name]. *)
Definition reassemble_file (fs : filesystem) (upload_id : string)
    (total_chunks : Z) (output_filename : string) (expected_size : option Z)
    (ev : reassemble_event) : filesystem * result (option string) :=
  if names_directory output_filename then (fs, Raise IsADirectoryError)
  else
    let ev := if unreachable output_filename then OpenOutputFails else ev in
    let '(fs', output_path) :=
      reassemble_try fs upload_id total_chunks output_filename expected_size ev in
    (fs', Return output_path).

(** What the environment does to [shutil.rmtree]. *)
Inductive cleanup_event :=
| CleanupOk
| RmtreeFails (left_behind : list string).  (* entries still there afterwards *)

Definition cleanup_chunks (fs : filesystem) (upload_id : string)
    (ev : cleanup_event) : filesystem * bool :=
  match uploads fs !! upload_id with
  | None => (fs, true)
  | Some dir =>
      match ev with
      | CleanupOk => (Filesystem (delete upload_id (uploads fs)) (completed fs), true)
      | RmtreeFails left_behind =>
          (Filesystem
             (<[upload_id := filter (λ kv, kv.1 ∈ left_behind) dir]> (uploads fs))
             (completed fs), false)
      end
  end.

Definition block_size : nat := 4096.

(** [iter(lambda: f.read(4096), b"")]: the blocks read until the first
    empty one.  [fuel] bounds the number of reads. *)
Fixpoint read_blocks (fuel : nat) (rest : bytes) : list bytes :=
  match fuel with
  | O => []
  | S fuel' =>
      match take block_size rest with
      | [] => []
      | block => block :: read_blocks fuel' (drop block_size rest)
      end
  end.

(** [None] when the file cannot be opened. *)
Definition get_file_checksum (fs : filesystem) (filepath : string)
    : option string :=
  match completed fs !! filepath with
  | None => None
  | Some content =>
      let sha256_hash :=
        fold_left Hashlib.update (read_blocks (S (length content)) content)
          Hashlib.sha256 in
      Some (Hashlib.hexdigest sha256_hash)
  end.

End Storage.

(** ** models.py *)
Module Models.

Record InitUploadRequest := {
  req_filename : string;
  totalSize : Z;
  req_checksum : option string
}.

Record FileMetadata := {
  uploadId : string;
  filename : string;
  size : Z;
  checksum : option string;
  timestamp : string;
  fileType : string;
  filepath : string
}.

End Models.

(** ** upload_service.py *)
Module UploadService.
Import Storage.
Local Open Scope Z_scope.

Record UploadSession := {
  upload_id : string;
  filename : string;
  total_size : Z;
  total_chunks : Z;
  chunk_size : Z;
  checksum : option string;
  created_at : string;
  received_chunks : gset Z
}.

(** [len(self.received_chunks)] *)
Definition received_count (session : UploadSession) : Z :=
  Z.of_nat (size (received_chunks session)).

Definition is_complete (session : UploadSession) : bool :=
  bool_decide (received_count session = total_chunks session).

Definition get_missing_chunks (session : UploadSession) : list Z :=
  let all_chunks : gset Z := list_to_set (seqZ 0 (total_chunks session)) in
  Py.sorted (elements (all_chunks ∖ received_chunks session)).

(** [session.received_chunks.add(chunk_index)] *)
Definition add_received (session : UploadSession) (chunk_index : Z)
    : UploadSession :=
  {| upload_id := upload_id session;
     filename := filename session;
     total_size := total_size session;
     total_chunks := total_chunks session;
     chunk_size := chunk_size session;
     checksum := checksum session;
     created_at := created_at session;
     received_chunks := {[chunk_index]} ∪ received_chunks session |}.

(** The service object together with the disk behind its storage. *)
Record service := Service {
  storage : filesystem;
  service_chunk_size : Z;
  sessions : gmap string UploadSession
}.

Definition with_storage (svc : service) (fs : filesystem) : service :=
  Service fs (service_chunk_size svc) (sessions svc).

(** [uuid4] and [now] are the values drawn by [uuid.uuid4()] and
    [datetime.now(timezone.utc)]. *)
Definition init_upload (svc : service) (request : Models.InitUploadRequest)
    (uuid4 now : string) : result (service * (string * Z)) :=
  if bool_decide (service_chunk_size svc = 0) then Raise ZeroDivisionError
  else
    let total_chunks :=
      (Models.totalSize request + service_chunk_size svc - 1)
        `div` service_chunk_size svc in
    let session :=
      {| upload_id := uuid4;
         filename := Models.req_filename request;
         total_size := Models.totalSize request;
         total_chunks := total_chunks;
         chunk_size := service_chunk_size svc;
         checksum := Models.req_checksum request;
         created_at := now;
         received_chunks := ∅ |} in
    Return (Service (storage svc) (service_chunk_size svc)
              (<[uuid4 := session]> (sessions svc)),
            (uuid4, service_chunk_size svc)).

Definition get_session (svc : service) (upload_id : string)
    : option UploadSession :=
  sessions svc !! upload_id.

Definition get_or_create_session_from_storage (svc : service)
    (upload_id : string) : option UploadSession :=
  match sessions svc !! upload_id with
  | Some session => Some session
  | None =>
      let received_chunks := list_chunks (storage svc) upload_id in
      match received_chunks with
      | [] => None
      | _ => None
      end
  end.

(** Storing the mutated session object back under its key. *)
Definition mark_received (svc : service) (fs : filesystem) (upload_id : string)
    (session : UploadSession) (chunk_index : Z) : service :=
  Service fs (service_chunk_size svc)
    (<[upload_id := add_received session chunk_index]> (sessions svc)).

Definition upload_chunk (svc : service) (upload_id : string) (chunk_index : Z)
    (chunk_data : bytes) (total_chunks_claimed : Z) (events : list store_event)
    : service * (bool * Z * string) :=
  let session :=
    match get_session svc upload_id with
    | Some session => Some session
    | None => get_or_create_session_from_storage svc upload_id
    end in
  match session with
  | None => (svc, (false, 0, "Upload session " +:+ upload_id +:+ " not found"))
  | Some session =>
      if (chunk_index <? 0) || (total_chunks session <=? chunk_index) then
        (svc, (false, received_count session,
               "Invalid chunk index: " +:+ pretty chunk_index))
      else if bool_decide (total_chunks_claimed ≠ total_chunks session) then
        (svc, (false, received_count session,
               "Total chunks mismatch: expected " +:+ pretty (total_chunks session)
               +:+ ", got " +:+ pretty total_chunks_claimed))
      else
        let '(fs1, found) := chunk_exists (storage svc) upload_id chunk_index in
        let '(fs2, same_size) :=
          if found then
            let '(fs2, existing_size) := get_chunk_size fs1 upload_id chunk_index in
            (fs2, bool_decide (existing_size = Some (Py.len chunk_data)))
          else (fs1, false) in
        if same_size then
          let svc' :=
            if bool_decide (chunk_index ∈ received_chunks session)
            then with_storage svc fs2
            else mark_received svc fs2 upload_id session chunk_index in
          (svc',
           (true,
            Z.of_nat (size ({[chunk_index]} ∪ received_chunks session)),
            "Chunk already uploaded (idempotent)"))
        else
          let '(fs3, success) :=
            store_chunk fs2 upload_id chunk_index chunk_data events in
          if success then
            (mark_received svc fs3 upload_id session chunk_index,
             (true,
              Z.of_nat (size ({[chunk_index]} ∪ received_chunks session)),
              "Chunk uploaded successfully"))
          else
            (with_storage svc fs3,
             (false, received_count session, "Failed to store chunk"))
  end.

(** The dictionary returned by [get_upload_status]. *)
Record status := {
  status_upload_id : string;
  status_total_chunks : option Z;
  status_received_chunks : list Z;
  status_is_complete : bool
}.

Definition get_upload_status (svc : service) (upload_id : string)
    : option status :=
  match get_session svc upload_id with
  | None =>
      let received_chunks := list_chunks (storage svc) upload_id in
      match received_chunks with
      | [] => None
      | _ =>
          Some {| status_upload_id := upload_id;
                  status_received_chunks := Py.sorted received_chunks;
                  status_is_complete := false;
                  status_total_chunks := None |}
      end
  | Some session =>
      Some {| status_upload_id := upload_id;
              status_total_chunks := Some (total_chunks session);
              status_received_chunks :=
                Py.sorted (elements (received_chunks session));
              status_is_complete := is_complete session |}
  end.

(** [filename.split('.')[-1].lower() if '.' in filename else ''] *)
Definition extension (filename : string) : string :=
  match Py.rfind_dot filename with
  | Some i =>
      Py.lower (String.substring (S i) (String.length filename - S i)%nat filename)
  | None => ""
  end.

Definition dataset_extensions : list string :=
  ["jsonl"; "json"; "csv"; "parquet"; "tsv"; "txt"].
Definition model_extensions : list string :=
  ["pt"; "pth"; "ckpt"; "safetensors"; "onnx"; "pb"; "h5"].
Definition archive_extensions : list string :=
  ["zip"; "tar"; "gz"; "bz2"].

Definition _detect_file_type (filename : string) : string :=
  let ext := extension filename in
  if bool_decide (ext ∈ dataset_extensions) then "dataset"
  else if bool_decide (ext ∈ model_extensions) then "model_artifact"
  else if bool_decide (ext ∈ archive_extensions) then "archive"
  else "unknown".

(** Truth value of an [Optional[str]]. *)
Definition truthy (s : option string) : bool :=
  match s with
  | Some (String _ _) => true
  | _ => false
  end.

(** [now] is the value of [datetime.now(timezone.utc).isoformat()]. *)
Definition complete_upload (svc : service) (upload_id : string) (now : string)
    (rev : reassemble_event) (cev : cleanup_event)
    : service * result (option (string * Models.FileMetadata)) :=
  match get_session svc upload_id with
  | None => (svc, Return None)
  | Some session =>
      if negb (is_complete session) then
        let missing := get_missing_chunks session in
        (svc, Raise (ValueError ("Upload incomplete: missing chunks "
                                 +:+ Py.repr_list missing)))
      else
        let '(fs1, output_path) :=
          reassemble_file (storage svc) upload_id (total_chunks session)
            (filename session) (Some (total_size session)) rev in
        match output_path with
        | Raise e => (with_storage svc fs1, Raise e)
        | Return None => (with_storage svc fs1, Return None)
        | Return (Some output_path) =>
            let checksum :=
              if truthy (checksum session)
              then Some <$> get_file_checksum fs1 output_path
              else Some None in
            match checksum with
            | None => (with_storage svc fs1, Raise FileNotFoundError)
            | Some checksum =>
                let file_type := _detect_file_type (filename session) in
                let metadata :=
                  {| Models.uploadId := upload_id;
                     Models.filename := filename session;
                     Models.size := total_size session;
                     Models.checksum := checksum;
                     Models.timestamp := now;
                     Models.fileType := file_type;
                     Models.filepath := output_path |} in
                let '(fs2, _) := cleanup_chunks fs1 upload_id cev in
                (Service fs2 (service_chunk_size svc)
                   (delete upload_id (sessions svc)),
                 Return (Some (output_path, metadata)))
            end
        end
  end.

End UploadService.

(** ** ai_integration.py *)
Module AIIntegration.
Import Storage.
Local Open Scope Z_scope.

(** The error message of a rejected validation:
    - [f"Invalid dataset format: {ext}. Expected one of {valid_extensions}"],
    - [f"Invalid JSONL format at line {i+1}"],
    - [f"Validation error: {str(e)}"]. *)
Inductive validation_error :=
| InvalidDatasetFormat (ext : string)
| InvalidJSONL (line : Z)
| ValidationException.

Definition valid_extensions : list string :=
  [".jsonl"; ".json"; ".csv"; ".parquet"; ".tsv"; ".txt"].

(** The loop [for i, line in enumerate(f)], entered with index [i]. *)
Fixpoint check_jsonl (i : Z) (lines : list string)
    : bool * option validation_error :=
  match lines with
  | [] => (true, None)
  | line :: rest =>
      if 10 <=? i then (true, None)
      else if Json.loads (Py.strip line) then check_jsonl (i + 1) rest
      else (false, Some (InvalidJSONL (i + 1)))
  end.


(** A file that is missing makes the reader raise, which the outer handler
    turns into a rejection.  The reader decodes the file block by block as
    the loop asks for lines; here the file is decoded at once, which gives
    the same lines when the whole file is UTF-8 text (when it is not, the
    source rejects the file only if it meets the bad bytes before the loop
    ends).  [json.loads] is taken to raise nothing but [JSONDecodeError],
    which holds of [Json.modest] lines.  The properties of the JSONL check
    carry both conditions. *)
Definition validate_dataset (fs : filesystem) (filepath file_type : string)
    : bool * option validation_error :=
  if bool_decide (file_type ≠ "dataset") then (true, None)
  else
    let ext := Py.lower (Py.suffix filepath) in
    if bool_decide (ext ∉ valid_extensions)
    then (false, Some (InvalidDatasetFormat ext))
    else if String.eqb ext ".jsonl" then
      match completed fs !! filepath with
      | None => (false, Some ValidationException)
      | Some content =>
          match TextIO.decode content with
          | None => (false, Some ValidationException)
          | Some text => check_jsonl 0 (TextIO.lines text)
          end
      end
    else (true, None).

Definition validate_schema (fs : filesystem) (filepath file_type : string)
    : bool * option string :=
  if bool_decide (file_type ≠ "dataset") then (true, None) else (true, None).

(** The scan report holds constant placeholders and a timestamp. *)
Definition scan_file (fs : filesystem) (filepath : string) (now : string)
    : bool * option string * string :=
  (true, None, now).

End AIIntegration.

(** ** main.py *)
Module Main.
Import Storage.
Local Open Scope Z_scope.

(** The [detail] of an [HTTPException]. *)
Inductive http_detail :=
| Detail (text : string)
| ValidationFailed (e : option AIIntegration.validation_error)
    (* f"Validation failed: {validation_error}" *)
| SchemaValidationFailed (e : option string)
    (* f"Schema validation failed: {schema_error}" *)
| SecurityScanFailed (e : option string)
    (* f"Security scan failed: {scan_error}" *)
| FailedToComplete (e : exn).
    (* f"Failed to complete upload: {str(e)}" *)

Inductive http_response (A : Type) :=
| Ok200 (body : A)
| HTTPException (status_code : Z) (detail : http_detail).
Arguments Ok200 {A} body.
Arguments HTTPException {A} status_code detail.

Record UploadStatusResponse := {
  uploadId : string;
  totalChunks : Z;
  receivedChunks : list Z;
  isComplete : bool
}.

Record CompleteUploadResponse := {
  success : bool;
  filepath : string;
  metadata : Models.FileMetadata;
  downstreamJobId : option string;
  message : string
}.

Definition not_found (upload_id : string) : http_response UploadStatusResponse :=
  HTTPException 404 (Detail ("Upload session " +:+ upload_id +:+ " not found")).

Definition get_upload_status (svc : UploadService.service) (upload_id : string)
    : http_response UploadStatusResponse :=
  match UploadService.get_upload_status svc upload_id with
  | None => not_found upload_id
  | Some status =>
      match UploadService.status_total_chunks status with
      | None =>
          (* [if received_chunks:] is the test that [max] has an argument *)
          let received_chunks := UploadService.status_received_chunks status in
          match Py.max received_chunks with
          | Some m =>
              let estimated_total := m + 1 in
              Ok200 {| uploadId := upload_id;
                       totalChunks := estimated_total;
                       receivedChunks := received_chunks;
                       isComplete :=
                         bool_decide (Py.len received_chunks = estimated_total) |}
          | None => not_found upload_id
          end
      | Some total_chunks =>
          Ok200 {| uploadId := UploadService.status_upload_id status;
                   totalChunks := total_chunks;
                   receivedChunks := UploadService.status_received_chunks status;
                   isComplete := UploadService.status_is_complete status |}
      end
  end.

(** [file_path.unlink()] followed by the [HTTPException] of a veto; a file
    that is not there makes [unlink] raise, which ends in a 500. *)
Definition veto {A} (svc : UploadService.service) (file_path : string)
    (detail : http_detail) : UploadService.service * http_response A :=
  match completed (UploadService.storage svc) !! file_path with
  | Some _ =>
      (UploadService.with_storage svc (unlink (UploadService.storage svc) file_path),
       HTTPException 400 detail)
  | None => (svc, HTTPException 500 (FailedToComplete FileNotFoundError))
  end.

(** The handler up to the response.  The steps after the security scan
    (metadata enrichment, catalogue registration, notifications) only write
    the catalogue file and print; they are outside the embedding, and the
    answer on that path is the response built once they have returned. *)
Definition complete_upload (svc : UploadService.service) (upload_id : string)
    (now : string) (rev : reassemble_event) (cev : cleanup_event)
    : UploadService.service * http_response CompleteUploadResponse :=
  let '(svc1, result) := UploadService.complete_upload svc upload_id now rev cev in
  match result with
  | Raise (ValueError msg) => (svc1, HTTPException 400 (Detail msg))
  | Raise e => (svc1, HTTPException 500 (FailedToComplete e))
  | Return None => (svc1, HTTPException 400 (Detail "Failed to complete upload"))
  | Return (Some (file_path, metadata)) =>
      let fs := UploadService.storage svc1 in
      let '(is_valid, validation_error) :=
        AIIntegration.validate_dataset fs file_path (Models.fileType metadata) in
      if negb is_valid then veto svc1 file_path (ValidationFailed validation_error)
      else
        let '(schema_valid, schema_error) :=
          AIIntegration.validate_schema fs file_path (Models.fileType metadata) in
        if negb schema_valid
        then veto svc1 file_path (SchemaValidationFailed schema_error)
        else
          let '(is_safe, scan_error, _) := AIIntegration.scan_file fs file_path now in
          if negb is_safe then veto svc1 file_path (SecurityScanFailed scan_error)
          else
            (svc1,
             Ok200 {| success := true;
                      filepath := file_path;
                      metadata := metadata;
                      downstreamJobId := None;
                      message := "Upload completed successfully" |})
  end.

End Main.

(** ** Clients

    The runs of requests that the laws of the engine talk about. *)
Module Client.
Import Storage UploadService.
Local Open Scope Z_scope.

(** The chunk committed for an index, if any. *)
Definition committed (fs : filesystem) (upload_id : string) (chunk_index : Z)
    : option bytes :=
  listdir fs upload_id !! chunk_name chunk_index.

(** The test of the idempotency shortcut: a chunk is committed for the index
    and its size is the size of the data sent. *)
Definition same_size_committed (fs : filesystem) (upload_id : string)
    (chunk_index : Z) (chunk_data : bytes) : bool :=
  bool_decide (Py.len <$> committed fs upload_id chunk_index
               = Some (Py.len chunk_data)).

(** Uploading the chunks of a file, one request per index of [order]; the
    chunk sent for index [i] is [chunks !! i].  The boolean tells whether
    every request was acknowledged. *)
Fixpoint upload_all (svc : service) (upload_id : string) (chunks : list bytes)
    (order : list Z) (events : list (list store_event)) : service * bool :=
  match order with
  | [] => (svc, true)
  | i :: order' =>
      let '(svc1, (ok, _, _)) :=
        upload_chunk svc upload_id i (default [] (chunks !! Z.to_nat i))
          (Py.len chunks) (hd [] events) in
      let '(svc2, oks) := upload_all svc1 upload_id chunks order' (tl events) in
      (svc2, ok && oks)
  end.

(** Sending the same chunk request once per element of [events]. *)
Fixpoint upload_again (svc : service) (upload_id : string) (chunk_index : Z)
    (chunk_data : bytes) (total_chunks : Z) (events : list (list store_event))
    : service :=
  match events with
  | [] => svc
  | ev :: events' =>
      upload_again
        (upload_chunk svc upload_id chunk_index chunk_data total_chunks ev).1
        upload_id chunk_index chunk_data total_chunks events'
  end.

(** What a client can observe of the engine through chunk uploads: the
    sessions and the committed chunks. *)
Definition same_view (svc1 svc2 : service) : Prop :=
  sessions svc1 = sessions svc2 ∧
  ∀ upload_id chunk_index,
    committed (storage svc1) upload_id chunk_index
    = committed (storage svc2) upload_id chunk_index.

End Client.

(** ** The JSONL rule as the specification words it

    The first ten non-empty lines are parsed as JSON values; the file is
    rejected when one of them does not parse. *)
Module Spec.




End Spec.

(** ** Concrete runs

    A service with a chunk size of four bytes, and a seven-byte upload named
    [x.jsonl] whose second line is blank. *)
Module Examples.
Import Storage UploadService.
Local Open Scope Z_scope.

Definition nl : string := String TextIO.newline EmptyString.

Definition empty_service : service := Service (Filesystem ∅ ∅) 4 ∅.

Definition request : Models.InitUploadRequest :=
  {| Models.req_filename := "x.jsonl";
     Models.totalSize := 7;
     Models.req_checksum := Some "abc" |}.

Definition started : service :=
  match init_upload empty_service request "id1" "t0" with
  | Return (svc, _) => svc
  | Raise _ => empty_service
  end.

Definition chunk0 : bytes := list_byte_of_string ("{}" +:+ nl +:+ nl).
Definition chunk1 : bytes := list_byte_of_string ("{}" +:+ nl).

(** Chunk 1 arrives first, then chunk 0. *)
Definition half_uploaded : service :=
  (upload_chunk started "id1" 1 chunk1 2 []).1.
Definition uploaded : service :=
  (upload_chunk half_uploaded "id1" 0 chunk0 2 []).1.

(** The same upload under a name that is not a dataset. *)
Definition request_bin : Models.InitUploadRequest :=
  {| Models.req_filename := "x.bin";
     Models.totalSize := 7;
     Models.req_checksum := None |}.

Definition uploaded_bin : service :=
  match init_upload empty_service request_bin "id2" "t0" with
  | Return (svc, _) =>
      (upload_chunk (upload_chunk svc "id2" 0 chunk0 2 []).1 "id2" 1 chunk1 2 []).1
  | Raise _ => empty_service
  end.

End Examples.

(** ** ai_integration.py: metadata and the catalogue

    The catalogue file holds one JSON document; it is represented by the
    value that [json.load] reads from it and [json.dump] writes to it. *)
Module Catalog.
Import Storage.
Local Open Scope Z_scope.

(** JSON values as Python holds them; a [dict] keeps the order in which
    its keys were first set. *)
#[local] Set Warnings "-register-all".
Inductive json :=
| JNull
| JBool (b : bool)
| JInt (n : Z)
| JStr (s : string)
| JList (items : list json)
| JDict (items : list (string * json)).

(** [d.get(key)] *)
Fixpoint dict_get (key : string) (items : list (string * json)) : option json :=
  match items with
  | [] => None
  | (k, v) :: rest => if String.eqb k key then Some v else dict_get key rest
  end.

(** [d[key] = value]: an existing key keeps its place. *)
Fixpoint dict_set (key : string) (value : json) (items : list (string * json))
    : list (string * json) :=
  match items with
  | [] => [(key, value)]
  | (k, v) :: rest =>
      if String.eqb k key then (k, value) :: rest
      else (k, v) :: dict_set key value rest
  end.

(** [{**d, **more}] *)
Definition dict_update (d more : list (string * json)) : list (string * json) :=
  fold_left (λ acc kv, dict_set kv.1 kv.2 acc) more d.

Definition json_of_option_str (s : option string) : json :=
  match s with
  | Some s => JStr s
  | None => JNull
  end.

Definition json_of_option_int (n : option Z) : json :=
  match n with
  | Some n => JInt n
  | None => JNull
  end.

Definition line_feed : byte := "010"%byte.

(** Iterating over a file opened in binary mode: a line ends after each
    line feed; the last line may lack it.  [cur] is the current line,
    reversed. *)
Fixpoint binary_lines_from (cur : bytes) (rest : bytes) : list bytes :=
  match rest with
  | [] =>
      match cur with
      | [] => []
      | _ => [reverse cur]
      end
  | b :: rest' =>
      if Byte.eqb b line_feed
      then reverse (b :: cur) :: binary_lines_from [] rest'
      else binary_lines_from (b :: cur) rest'
  end.

Definition binary_lines (content : bytes) : list bytes :=
  binary_lines_from [] content.

(** A file that cannot be opened makes the count [None]. *)
Definition _estimate_record_count (fs : filesystem) (filepath : string)
    : option Z :=
  let ext := Py.lower (Py.suffix filepath) in
  if String.eqb ext ".jsonl" then
    match completed fs !! filepath with
    | Some content => Some (Py.len (binary_lines content))
    | None => None
    end
  else if String.eqb ext ".csv" then
    match completed fs !! filepath with
    | Some content => Some (Z.max 0 (Py.len (binary_lines content) - 1))
    | None => None
    end
  else None.

Definition framework_map : list (string * string) :=
  [(".pt", "pytorch"); (".pth", "pytorch"); (".ckpt", "pytorch");
   (".safetensors", "safetensors"); (".onnx", "onnx"); (".pb", "tensorflow");
   (".h5", "keras")].

Fixpoint lookup_str (key : string) (table : list (string * string))
    : option string :=
  match table with
  | [] => None
  | (k, v) :: rest => if String.eqb k key then Some v else lookup_str key rest
  end.

Definition _detect_model_framework (filepath : string) : string :=
  let ext := Py.lower (Py.suffix filepath) in
  default "unknown" (lookup_str ext framework_map).

Definition generate_metadata (fs : filesystem) (filepath upload_id : string)
    (metadata : Models.FileMetadata) : list (string * json) :=
  let enhanced_metadata :=
    [("uploadId", JStr upload_id);
     ("filename", JStr (Models.filename metadata));
     ("size", JInt (Models.size metadata));
     ("checksum", json_of_option_str (Models.checksum metadata));
     ("timestamp", JStr (Models.timestamp metadata));
     ("fileType", JStr (Models.fileType metadata));
     ("filepath", JStr (Models.filepath metadata));
     ("lineage",
      JDict [("source", JStr "user_upload");
             ("upload_timestamp", JStr (Models.timestamp metadata));
             ("downstream_jobs", JList [])])] in
  if String.eqb (Models.fileType metadata) "dataset" then
    dict_set "dataset_info"
      (JDict [("format", JStr (Py.lower (Py.suffix filepath)));
              ("estimated_records",
               json_of_option_int (_estimate_record_count fs filepath));
              ("preview_available", JBool true)])
      enhanced_metadata
  else if String.eqb (Models.fileType metadata) "model_artifact" then
    dict_set "model_info"
      (JDict [("format", JStr (Py.lower (Py.suffix filepath)));
              ("framework", JStr (_detect_model_framework filepath))])
      enhanced_metadata
  else enhanced_metadata.

(** What can go wrong when the document is not the one the class writes. *)
Inductive store_error :=
| KeyError           (* no ["uploads"] key *)
| TypeError          (* the document or an entry is not what is indexed *)
| AttributeError.    (* [append] or [get] on a value without it *)

Inductive outcome (A : Type) :=
| Done (value : A)
| Failed (e : store_error).
Arguments Done {A} value.
Arguments Failed {A} e.

(** [_ensure_metadata_store]: [None] is the missing file. *)
Definition _ensure_metadata_store (store : option json) : json :=
  match store with
  | Some document => document
  | None => JDict [("uploads", JList [])]
  end.

(** [store["uploads"]] *)
Definition uploads_of (store : json) : outcome json :=
  match store with
  | JDict items =>
      match dict_get "uploads" items with
      | Some uploads => Done uploads
      | None => Failed KeyError
      end
  | _ => Failed TypeError
  end.

(** [now] is [datetime.now(timezone.utc).isoformat()].  The result is the
    document written back and the id returned. *)
Definition register_dataset (store : json) (upload_id : string)
    (metadata : list (string * json)) (now : string) : outcome (json * string) :=
  match uploads_of store with
  | Failed e => Failed e
  | Done (JList entries) =>
      let entry :=
        dict_update [("id", JStr upload_id); ("registered_at", JStr now)]
          metadata in
      match store with
      | JDict items =>
          Done (JDict (dict_set "uploads" (JList (entries ++ [JDict entry])) items),
                upload_id)
      | _ => Failed TypeError
      end
  | Done _ => Failed AttributeError
  end.

(** [entry.get("id") == upload_id] *)
Definition has_id (upload_id : string) (entry : list (string * json)) : bool :=
  match dict_get "id" entry with
  | Some (JStr s) => String.eqb s upload_id
  | _ => false
  end.

(** The loop of [get_lineage] over the entries. *)
Fixpoint find_lineage (upload_id : string) (entries : list json)
    : outcome (option json) :=
  match entries with
  | [] => Done None
  | JDict entry :: rest =>
      if has_id upload_id entry
      then Done (Some (default (JDict []) (dict_get "lineage" entry)))
      else find_lineage upload_id rest
  | _ :: _ => Failed AttributeError
  end.

Definition get_lineage (store : json) (upload_id : string)
    : outcome (option json) :=
  match uploads_of store with
  | Failed e => Failed e
  | Done (JList entries) => find_lineage upload_id entries
  | Done (JDict []) | Done (JStr EmptyString) => Done None
  | Done (JDict (_ :: _)) | Done (JStr (String _ _)) =>
      (* the loop runs over keys or characters, which have no [get] *)
      Failed AttributeError
  | Done _ => Failed TypeError
  end.

(** Both notifications print and return [None]. *)
Definition notify_fine_tuning_pipeline (filepath : string)
    (metadata : list (string * json)) : option string := None.
Definition notify_data_curation_system (filepath : string)
    (metadata : list (string * json)) : option string := None.

End Catalog.

(** ** main.py: the other request handlers *)
Module Handlers.
Import Storage.
Local Open Scope Z_scope.

(** A field of a request as the framework finds it before the handler
    runs: absent (or null, for an optional field), present with a value
    that the declared type does not accept, or present with a value that
    it accepts, given as the framework converts it.  A request with a
    field of the first two kinds is answered 422 without the handler being
    called, unless the field is optional and absent. *)
Inductive field (A : Type) :=
| Missing
| IllTyped
| Given (value : A).
Arguments Missing {A}.
Arguments IllTyped {A}.
Arguments Given {A} value.

(** The body of an init request as it arrives. *)
Record InitBody := {
  body_filename : field string;
  body_totalSize : field Z;
  body_checksum : field string
}.

(** The validation that [InitUploadRequest] declares: [filename] and
    [totalSize] are required, [totalSize] is greater than zero, and
    [checksum] is a string when it is there. *)
Definition parse_init (body : InitBody) : option Models.InitUploadRequest :=
  match body_filename body, body_totalSize body, body_checksum body with
  | Given filename, Given totalSize, Missing =>
      if 0 <? totalSize
      then Some {| Models.req_filename := filename;
                   Models.totalSize := totalSize;
                   Models.req_checksum := None |}
      else None
  | Given filename, Given totalSize, Given checksum =>
      if 0 <? totalSize
      then Some {| Models.req_filename := filename;
                   Models.totalSize := totalSize;
                   Models.req_checksum := Some checksum |}
      else None
  | _, _, _ => None
  end.

Inductive init_response :=
| InitOk (uploadId : string) (chunkSize : Z)
| InitInvalid                       (* 422 *)
| InitFailed (e : exn).             (* 500 *)

Definition init_upload (svc : UploadService.service) (body : InitBody)
    (uuid4 now : string) : UploadService.service * init_response :=
  match parse_init body with
  | None => (svc, InitInvalid)
  | Some request =>
      match UploadService.init_upload svc request uuid4 now with
      | Return (svc', (upload_id, chunk_size)) => (svc', InitOk upload_id chunk_size)
      | Raise e => (svc, InitFailed e)
      end
  end.

Record ChunkUploadResponse := {
  chunk_success : bool;
  chunk_receivedChunks : Z;
  chunk_message : string
}.

(** The handler as the framework calls it, with fields of the declared
    types: the form fields are declared without bounds, and the chunk is
    what [chunk.read()] delivers.  [chunk_request] below is the whole
    route. *)
Definition upload_chunk (svc : UploadService.service) (uploadId : string)
    (chunkIndex totalChunks : Z) (chunk : bytes) (events : list store_event)
    : UploadService.service * Main.http_response ChunkUploadResponse :=
  let '(svc', (success, received_count, message)) :=
    UploadService.upload_chunk svc uploadId chunkIndex chunk totalChunks events in
  if negb success then (svc', Main.HTTPException 400 (Main.Detail message))
  else
    (svc',
     Main.Ok200 {| chunk_success := true;
                   chunk_receivedChunks := received_count;
                   chunk_message := message |}).

(** The form of a chunk request as it arrives. *)
Record ChunkForm := {
  form_uploadId : field string;
  form_chunkIndex : field Z;
  form_totalChunks : field Z;
  form_chunk : field bytes
}.

(** All four fields are required. *)
Definition parse_chunk (form : ChunkForm) : option (string * Z * Z * bytes) :=
  match form_uploadId form, form_chunkIndex form, form_totalChunks form,
        form_chunk form with
  | Given uploadId, Given chunkIndex, Given totalChunks, Given chunk =>
      Some (uploadId, chunkIndex, totalChunks, chunk)
  | _, _, _, _ => None
  end.

(** What can raise inside the handler: reading the uploaded part, and the
    creation of the upload directory by the first storage query, where
    only [FileExistsError] is caught. *)
Inductive chunk_fault :=
| NoFault
| ChunkReadFails
| DirectoryFails.

Inductive chunk_response :=
| ChunkAnswered (response : Main.http_response ChunkUploadResponse)
| ChunkInvalid                      (* 422 *)
| ChunkFailed.                      (* 500, "Failed to upload chunk: ..." *)

(** The engine queries the storage once the session is found and the index
    and the count have passed. *)
Definition reaches_storage (svc : UploadService.service) (uploadId : string)
    (chunkIndex totalChunks : Z) : bool :=
  match UploadService.sessions svc !! uploadId with
  | Some session =>
      (0 <=? chunkIndex) && (chunkIndex <? UploadService.total_chunks session)
      && (totalChunks =? UploadService.total_chunks session)
  | None => false
  end.

(** The route [POST /api/upload/chunk]. *)
Definition chunk_request (svc : UploadService.service) (form : ChunkForm)
    (fault : chunk_fault) (events : list store_event)
    : UploadService.service * chunk_response :=
  match parse_chunk form with
  | None => (svc, ChunkInvalid)
  | Some (uploadId, chunkIndex, totalChunks, chunk) =>
      let handled :=
        let '(svc', response) :=
          upload_chunk svc uploadId chunkIndex totalChunks chunk events in
        (svc', ChunkAnswered response) in
      match fault with
      | NoFault => handled
      | ChunkReadFails => (svc, ChunkFailed)
      | DirectoryFails =>
          if reaches_storage svc uploadId chunkIndex totalChunks
          then (svc, ChunkFailed) else handled
      end
  end.

(** The steps of the completion handler after the security scan:
    enrichment, registration of datasets, notifications.  The result is the
    catalogue document afterwards and the downstream job id. *)
Definition after_scan (fs : filesystem) (store : Catalog.json)
    (file_path upload_id : string) (metadata : Models.FileMetadata)
    (registered_at : string) : Catalog.outcome (Catalog.json * option string) :=
  let enhanced_metadata :=
    Catalog.generate_metadata fs file_path upload_id metadata in
  let registered :=
    if String.eqb (Models.fileType metadata) "dataset"
    then
      match Catalog.register_dataset store upload_id enhanced_metadata
              registered_at with
      | Catalog.Done (store', _) => Catalog.Done store'
      | Catalog.Failed e => Catalog.Failed e
      end
    else Catalog.Done store in
  match registered with
  | Catalog.Failed e => Catalog.Failed e
  | Catalog.Done store' =>
      let downstream_job_id :=
        if String.eqb (Models.fileType metadata) "dataset"
        then
          let job := Catalog.notify_fine_tuning_pipeline file_path enhanced_metadata in
          let _ := Catalog.notify_data_curation_system file_path enhanced_metadata in
          job
        else None in
      Catalog.Done (store', downstream_job_id)
  end.

Inductive complete_response :=
| Answered (response : Main.http_response Main.CompleteUploadResponse)
| CatalogueFailed (e : Catalog.store_error).   (* 500 *)

(** The completion handler with the catalogue: the steps of
    [Main.complete_upload], then [after_scan] when no check vetoed.  [now]
    and [registered_at] are the clock readings of the engine and of the
    registration. *)
Definition complete_upload (svc : UploadService.service) (store : Catalog.json)
    (upload_id now registered_at : string) (rev : reassemble_event)
    (cev : cleanup_event)
    : UploadService.service * Catalog.json * complete_response :=
  let '(svc1, response) := Main.complete_upload svc upload_id now rev cev in
  match response with
  | Main.Ok200 body =>
      match after_scan (UploadService.storage svc1) store
              (Main.filepath body) upload_id (Main.metadata body)
              registered_at with
      | Catalog.Done (store', downstream_job_id) =>
          (svc1, store',
           Answered (Main.Ok200
                       {| Main.success := true;
                          Main.filepath := Main.filepath body;
                          Main.metadata := Main.metadata body;
                          Main.downstreamJobId := downstream_job_id;
                          Main.message := "Upload completed successfully" |}))
      | Catalog.Failed e => (svc1, store, CatalogueFailed e)
      end
  | _ => (svc1, store, Answered response)
  end.

End Handlers.

(** ** Notions used by the properties *)
Module Notions.
Import Storage UploadService.
Local Open Scope Z_scope.

(** Strings made of characters of one kind. *)
Definition all_chars (P : ascii → Prop) (s : string) : Prop :=
  Forall P (list_ascii_of_string s).

(** The failures of an attempt after which [store_chunk] tries again. *)
Definition retryable (ev : store_event) : bool :=
  match ev with
  | StoreOpenFails | StoreWriteFails _ | StoreReplaceFails
  | StoreMkdirFails => true
  | StoreOk | StoreUnexpected => false
  end.

(** The sessions agree with the staging area: the received indices of a
    session are indices of the upload, they are the indices that the
    listing of its directory shows, and a chunk is committed under each. *)
Definition consistent (svc : service) : Prop :=
  ∀ u session,
    sessions svc !! u = Some session →
    (∀ i, i ∈ received_chunks session → 0 ≤ i < total_chunks session) ∧
    (∀ i, i ∈ list_chunks (storage svc) u ↔ i ∈ received_chunks session) ∧
    (∀ i, i ∈ received_chunks session →
          is_Some (Client.committed (storage svc) u i)).

(** The catalogue document as the class writes it: an object whose
    ["uploads"] is a list of objects. *)
Definition well_formed_store (store : Catalog.json)
    (entries : list (list (string * Catalog.json))) : Prop :=
  ∃ items,
    store = Catalog.JDict items ∧
    Catalog.dict_get "uploads" items
    = Some (Catalog.JList (Catalog.JDict <$> entries)).

End Notions.

(** ** A dataset that passes validation *)
Module Scenarios.
Import Storage UploadService.
Local Open Scope Z_scope.



End Scenarios.

(** * Properties *)

Import Storage UploadService Client Notions.
Local Open Scope Z_scope.

(** ** Strings and file names *)

Lemma list_ascii_of_string_app (s1 s2 : string) :
  list_ascii_of_string (s1 +:+ s2)
  = list_ascii_of_string s1 ++ list_ascii_of_string s2.
Proof. induction s1 as [|c s1 IH]; simpl; [done|]. by rewrite <- IH. Qed.

Lemma list_ascii_of_string_inj (s1 s2 : string) :
  list_ascii_of_string s1 = list_ascii_of_string s2 → s1 = s2.
Proof.
  intros H. rewrite <- (string_of_list_ascii_of_string s1),
    <- (string_of_list_ascii_of_string s2). by rewrite H.
Qed.

Lemma chunk_name_inj (i j : Z) : chunk_name i = chunk_name j → i = j.
Proof.
  unfold chunk_name. intros H.
  apply (f_equal list_ascii_of_string) in H.
  rewrite !list_ascii_of_string_app in H.
  apply app_inv_tail in H. apply list_ascii_of_string_inj in H.
  by apply (inj pretty).
Qed.

Lemma temp_name_not_chunk (i j : Z) : temp_name i ≠ chunk_name j.
Proof.
  unfold temp_name, chunk_name. intros H.
  apply (f_equal list_ascii_of_string) in H.
  rewrite !list_ascii_of_string_app in H.
  apply (f_equal reverse) in H. rewrite !reverse_app in H.
  discriminate H.
Qed.

(** ** The chunk store *)

Lemma listdir_mkdir fs u v : listdir (mkdir fs u) v = listdir fs v.
Proof.
  unfold mkdir, listdir. destruct (uploads fs !! u) eqn:E; [done|]. simpl.
  destruct (decide (u = v)) as [->|Hne].
  - by rewrite lookup_insert_eq, E.
  - by rewrite lookup_insert_ne.
Qed.

Lemma completed_mkdir fs u : completed (mkdir fs u) = completed fs.
Proof. unfold mkdir. by destruct (uploads fs !! u). Qed.

Lemma mkdir_exists fs u : is_Some (uploads fs !! u) → mkdir fs u = fs.
Proof. unfold mkdir. by intros [d ->]. Qed.

Lemma mkdir_is_Some fs u : is_Some (uploads (mkdir fs u) !! u).
Proof.
  unfold mkdir. destruct (uploads fs !! u) eqn:E; [by rewrite E|].
  simpl. rewrite lookup_insert_eq. eauto.
Qed.

Lemma mkdir_fresh fs u :
  uploads fs !! u = None → uploads (mkdir fs u) !! u = Some ∅.
Proof. unfold mkdir. intros ->. simpl. by rewrite lookup_insert_eq. Qed.

Lemma listdir_Some_exists fs u name data :
  listdir fs u !! name = Some data → is_Some (uploads fs !! u).
Proof. unfold listdir. destruct (uploads fs !! u); [eauto|]. done. Qed.

Lemma listdir_write_entry fs u name data v :
  listdir (write_entry fs u name data) v
  = if decide (u = v) then <[name := data]> (listdir fs u) else listdir fs v.
Proof.
  unfold write_entry, listdir at 1. simpl. case_decide as Huv.
  - subst. by rewrite lookup_insert_eq.
  - by rewrite lookup_insert_ne.
Qed.

Lemma listdir_replace_entry fs u src dst data v :
  listdir fs u !! src = Some data →
  listdir (replace_entry fs u src dst) v
  = if decide (u = v) then <[dst := data]> (delete src (listdir fs u))
    else listdir fs v.
Proof.
  intros Hsrc. unfold replace_entry. rewrite Hsrc. unfold listdir at 1. simpl.
  case_decide as Huv.
  - subst. by rewrite lookup_insert_eq.
  - by rewrite lookup_insert_ne.
Qed.

Lemma committed_mkdir fs u v j : committed (mkdir fs u) v j = committed fs v j.
Proof. unfold committed. by rewrite listdir_mkdir. Qed.

Lemma committed_write_temp fs u i data v j :
  committed (write_entry fs u (temp_name i) data) v j = committed fs v j.
Proof.
  unfold committed. rewrite listdir_write_entry. case_decide; [subst|done].
  rewrite lookup_insert_ne; [done|]. apply temp_name_not_chunk.
Qed.

Lemma completed_write_entry fs u name data :
  completed (write_entry fs u name data) = completed fs.
Proof. done. Qed.

Lemma completed_replace_entry fs u src dst :
  completed (replace_entry fs u src dst) = completed fs.
Proof. unfold replace_entry. by destruct (listdir fs u !! src). Qed.

(** One successful attempt: the temporary file is written and renamed. *)
Lemma committed_store_ok fs u i data v j :
  committed (replace_entry (write_entry fs u (temp_name i) data) u
               (temp_name i) (chunk_name i)) v j
  = if decide (u = v ∧ i = j) then Some data else committed fs v j.
Proof.
  unfold committed.
  rewrite (listdir_replace_entry _ _ _ _ data).
  2:{ rewrite listdir_write_entry. rewrite decide_True by done.
      by rewrite lookup_insert_eq. }
  rewrite !listdir_write_entry. rewrite (decide_True (P := u = u)) by done.
  destruct (decide (u = v)) as [->|Huv].
  - destruct (decide (i = j)) as [->|Hij].
    + rewrite decide_True by done. by rewrite lookup_insert_eq.
    + rewrite decide_False by naive_solver.
      rewrite lookup_insert_ne by (intros Heq%chunk_name_inj; done).
      rewrite lookup_delete_ne by apply temp_name_not_chunk.
      rewrite lookup_insert_ne by apply temp_name_not_chunk. done.
  - rewrite decide_False by naive_solver. done.
Qed.

Lemma store_chunk_loop_spec n fs u i data events :
  let '(fs', ok) := store_chunk_loop n fs u i data events in
  ok = store_outcome n events ∧
  completed fs' = completed fs ∧
  ∀ v j, committed fs' v j
         = if decide (ok = true ∧ u = v ∧ i = j) then Some data
           else committed fs v j.
Proof.
  revert fs events. induction n as [|n IH]; intros fs events;
    cbn [store_chunk_loop store_outcome].
  { split_and!; [done..|]. intros v j. case_decide; naive_solver. }
  destruct (hd StoreOk events) eqn:Hev.
  - split_and!; [done| |].
    + by rewrite completed_replace_entry, completed_write_entry, completed_mkdir.
    + intros v j. rewrite committed_store_ok, committed_mkdir.
      repeat case_decide; naive_solver.
  - specialize (IH (mkdir fs u) (tl events)).
    destruct (store_chunk_loop n (mkdir fs u) u i data (tl events)) as [fs' ok].
    destruct IH as (? & Hc & Hv). split_and!; [done| |].
    + by rewrite Hc, completed_mkdir.
    + intros v j. by rewrite Hv, committed_mkdir.
  - specialize (IH (write_entry (mkdir fs u) u (temp_name i) (take written data))
                  (tl events)).
    destruct (store_chunk_loop n _ u i data (tl events)) as [fs' ok].
    destruct IH as (? & Hc & Hv). split_and!; [done| |].
    + by rewrite Hc, completed_write_entry, completed_mkdir.
    + intros v j. by rewrite Hv, committed_write_temp, committed_mkdir.
  - specialize (IH (write_entry (mkdir fs u) u (temp_name i) data) (tl events)).
    destruct (store_chunk_loop n _ u i data (tl events)) as [fs' ok].
    destruct IH as (? & Hc & Hv). split_and!; [done| |].
    + by rewrite Hc, completed_write_entry, completed_mkdir.
    + intros v j. by rewrite Hv, committed_write_temp, committed_mkdir.
  - split_and!; [done| |].
    + by rewrite completed_mkdir.
    + intros v j. rewrite committed_mkdir. case_decide; naive_solver.
  - specialize (IH fs (tl events)).
    by destruct (store_chunk_loop n fs u i data (tl events)) as [fs' ok].
Qed.

(** ** Reassembly *)

Lemma get_chunk_fst fs u i ok : (get_chunk fs u i ok).1 = mkdir fs u.
Proof.
  unfold get_chunk, get_chunk_path.
  by destruct (listdir (mkdir fs u) u !! chunk_name i).
Qed.

Lemma get_chunk_Some fs u i ok fs1 data :
  get_chunk fs u i ok = (fs1, Some data) →
  fs1 = fs ∧ committed fs u i = Some data.
Proof.
  unfold get_chunk, get_chunk_path, committed.
  rewrite listdir_mkdir.
  destruct (listdir fs u !! chunk_name i) as [d|] eqn:E; [|done].
  intros H. assert (mkdir fs u = fs) as Hmk.
  { apply mkdir_exists. by eapply listdir_Some_exists. }
  rewrite Hmk in H. destruct ok; by simplify_eq.
Qed.

Lemma reassemble_loop_uploads u name ev idxs fs :
  is_Some (uploads fs !! u) ∨ idxs = [] →
  uploads (reassemble_loop fs u name idxs ev).1 = uploads fs.
Proof.
  revert fs. induction idxs as [|i idxs IH]; intros fs Hdir; [done|].
  destruct Hdir as [Hdir|?]; [|done]. cbn [reassemble_loop].
  pose proof (get_chunk_fst fs u i (negb (read_fails ev i))) as Hfst.
  destruct (get_chunk fs u i (negb (read_fails ev i))) as [fs1 [data|]];
    simpl in Hfst; subst fs1; rewrite (mkdir_exists fs u Hdir); [|done].
  destruct (write_fails ev i); [done|].
  rewrite IH; [done|]. by left.
Qed.

Lemma reassemble_loop_true u name ev idxs fs fs' acc :
  completed fs !! name = Some acc →
  reassemble_loop fs u name idxs ev = (fs', true) →
  ∃ chunks,
    Forall2 (λ i c, committed fs u i = Some c) idxs chunks ∧
    uploads fs' = uploads fs ∧
    completed fs' = <[name := acc ++ concat chunks]> (completed fs).
Proof.
  revert fs acc. induction idxs as [|i idxs IH]; intros fs acc Hacc Hloop.
  { simpl in Hloop. simplify_eq. exists []. split_and!; [constructor|done|].
    simpl. rewrite app_nil_r. by rewrite insert_id. }
  cbn [reassemble_loop] in Hloop.
  destruct (get_chunk fs u i (negb (read_fails ev i))) as [fs1 [data|]] eqn:Hget;
    [|done].
  apply get_chunk_Some in Hget as [-> Hi].
  destruct (write_fails ev i); [done|].
  apply (IH _ (acc ++ data)) in Hloop as (chunks & Hall & Hup & Hco).
  2:{ unfold append_output. simpl. rewrite lookup_insert_eq, Hacc. done. }
  exists (data :: chunks). split_and!.
  - constructor; [done|]. eapply Forall2_impl; [exact Hall|]. done.
  - by rewrite Hup.
  - rewrite Hco. unfold append_output. simpl.
    rewrite insert_insert_eq. by rewrite <- app_assoc.
Qed.

Lemma reassemble_failed_spec fs name fs' r :
  reassemble_failed fs name = (fs', r) →
  r = None ∧ uploads fs' = uploads fs ∧ completed fs' !! name = None.
Proof.
  unfold reassemble_failed. intros H. simplify_eq.
  destruct (completed fs !! name) eqn:E; simpl; [|done].
  by rewrite lookup_delete_eq.
Qed.

Lemma list_chunks_no_dir fs u : uploads fs !! u = None → list_chunks fs u = [].
Proof. unfold list_chunks. by intros ->. Qed.

Lemma reassemble_precondition fs u total :
  (list_to_set (seqZ 0 total) : gset Z) = list_to_set (list_chunks fs u) →
  is_Some (uploads fs !! u) ∨ seqZ 0 total = [].
Proof.
  intros Heq. destruct (uploads fs !! u) eqn:E; [left; eauto|right].
  rewrite (list_chunks_no_dir _ _ E) in Heq. simpl in Heq.
  destruct (seqZ 0 total) as [|x l]; [done|].
  exfalso. assert (x ∈ (∅ : gset Z)) as Hx; [|set_solver].
  rewrite <- Heq. set_solver.
Qed.

(** A failed reassembly leaves no output file and does not touch the
    staging area. *)
Lemma reassemble_try_None fs u total name expected ev fs' :
  reassemble_try fs u total name expected ev = (fs', None) →
  uploads fs' = uploads fs ∧ completed fs' !! name = None.
Proof.
  unfold reassemble_try. case_bool_decide as Hset.
  { intros (_ & ? & ?)%reassemble_failed_spec. done. }
  apply reassemble_precondition in Hset.
  set (fs1 := Filesystem (uploads fs) (<[name:=[]]> (completed fs))).
  assert (∀ fs2 finished,
    reassemble_loop fs1 u name (seqZ 0 total) ev = (fs2, finished) →
    (if finished
     then match expected with
          | Some size =>
              if bool_decide
                   (Py.len (default [] (completed fs2 !! name)) ≠ size)
              then reassemble_failed (unlink fs2 name) name
              else (fs2, Some name)
          | None => (fs2, Some name)
          end
     else reassemble_failed fs2 name) = (fs', None) →
    uploads fs' = uploads fs ∧ completed fs' !! name = None) as Hmain.
  { intros fs2 finished Hloop Hres.
    assert (uploads fs2 = uploads fs) as Hup.
    { pose proof (reassemble_loop_uploads u name ev (seqZ 0 total) fs1 Hset) as H.
      by rewrite Hloop in H. }
    destruct finished.
    - destruct expected as [size|]; [|done].
      case_bool_decide; [|done].
      apply reassemble_failed_spec in Hres as (_ & Hu & Hc).
      by rewrite Hu.
    - apply reassemble_failed_spec in Hres as (_ & Hu & Hc). by rewrite Hu. }
  destruct ev;
    try (destruct (reassemble_loop fs1 u name (seqZ 0 total) _)
           as [fs2 finished] eqn:Hloop; intros Hres; by eapply Hmain).
  intros (_ & ? & ?)%reassemble_failed_spec. done.
Qed.

(** A successful reassembly writes the chunks in index order. *)
Lemma reassemble_try_Some fs u total name size ev fs' path :
  reassemble_try fs u total name (Some size) ev = (fs', Some path) →
  path = name ∧
  ∃ chunks,
    Forall2 (λ i c, committed fs u i = Some c) (seqZ 0 total) chunks ∧
    uploads fs' = uploads fs ∧
    completed fs' = <[name := concat chunks]> (completed fs) ∧
    Py.len (concat chunks) = size.
Proof.
  unfold reassemble_try. case_bool_decide as Hset.
  { intros (? & _)%reassemble_failed_spec. done. }
  set (fs1 := Filesystem (uploads fs) (<[name:=[]]> (completed fs))).
  assert (∀ fs2 finished,
    reassemble_loop fs1 u name (seqZ 0 total) ev = (fs2, finished) →
    (if finished
     then if bool_decide (Py.len (default [] (completed fs2 !! name)) ≠ size)
          then reassemble_failed (unlink fs2 name) name
          else (fs2, Some name)
     else reassemble_failed fs2 name) = (fs', Some path) →
    path = name ∧
    ∃ chunks,
      Forall2 (λ i c, committed fs u i = Some c) (seqZ 0 total) chunks ∧
      uploads fs' = uploads fs ∧
      completed fs' = <[name := concat chunks]> (completed fs) ∧
      Py.len (concat chunks) = size) as Hmain.
  { intros fs2 finished Hloop Hres. destruct finished.
    2:{ by apply reassemble_failed_spec in Hres as (? & _). }
    case_bool_decide as Hsize.
    { by apply reassemble_failed_spec in Hres as (? & _). }
    simplify_eq.
    apply (reassemble_loop_true _ _ _ _ _ _ []) in Hloop
      as (chunks & Hall & Hup & Hco).
    2:{ subst fs1. simpl. by rewrite lookup_insert_eq. }
    split; [done|]. exists chunks. subst fs1. simpl in *.
    rewrite insert_insert_eq in Hco.
    split_and!; [done..|]. by rewrite Hco, lookup_insert_eq. }
  destruct ev;
    try (destruct (reassemble_loop fs1 u name (seqZ 0 total) _)
           as [fs2 finished] eqn:Hloop; intros Hres; by eapply Hmain).
Qed.


Lemma reassemble_file_Some fs u total name size ev fs' path :
  reassemble_file fs u total name (Some size) ev = (fs', Return (Some path)) →
  path = name ∧
  ∃ chunks,
    Forall2 (λ i c, committed fs u i = Some c) (seqZ 0 total) chunks ∧
    uploads fs' = uploads fs ∧
    completed fs' = <[name := concat chunks]> (completed fs) ∧
    Py.len (concat chunks) = size.
Proof.
  unfold reassemble_file. destruct (names_directory name); [done|].
  destruct (reassemble_try fs u total name (Some size) _) as [fs1 r] eqn:Htry.
  intros [= -> ->]. by eapply reassemble_try_Some.
Qed.

(** ** Checksums *)

Lemma hexchar_lower_hex x : Hashlib.is_lower_hex (Hashlib.hexchar x) = true.
Proof.
  unfold Hashlib.hexchar. destruct (x `mod` 16) as [|p|p]; [done| |done].
  do 4 (destruct p as [p|p|]; try done).
Qed.

Lemma sha256_hex_length msg : String.length (Hashlib.sha256_hex msg) = 64%nat.
Proof. done. Qed.

Lemma sha256_hex_lower msg :
  Forall (λ c, Hashlib.is_lower_hex c = true)
    (list_ascii_of_string (Hashlib.sha256_hex msg)).
Proof.
  unfold Hashlib.sha256_hex, Hashlib.hex_of_regs, Hashlib.hex32.
  cbn [list_ascii_of_string]. repeat (constructor; [apply hexchar_lower_hex|]).
  constructor.
Qed.

Lemma fold_left_update blocks acc :
  fold_left Hashlib.update blocks acc = acc ++ concat blocks.
Proof.
  revert acc. induction blocks as [|b blocks IH]; intros acc; simpl.
  - by rewrite app_nil_r.
  - rewrite IH. unfold Hashlib.update. by rewrite <- app_assoc.
Qed.

Lemma block_size_pos : (0 < block_size)%nat.
Proof. unfold block_size. lia. Qed.

(** Reading block by block delivers the whole file. *)
Lemma concat_read_blocks fuel (content : bytes) :
  (length content < fuel)%nat → concat (read_blocks fuel content) = content.
Proof.
  pose proof block_size_pos as Hpos.
  revert content. induction fuel as [|fuel IH]; intros content Hlen; [lia|].
  cbn [read_blocks].
  destruct (take block_size content) as [|b block] eqn:Htake.
  - destruct content as [|c content]; [done|].
    destruct block_size; [lia|done].
  - cbn [concat]. rewrite IH, <- Htake; [apply take_drop|].
    rewrite length_drop.
    assert (length content ≠ 0)%nat; [|lia].
    destruct content; [|done]. by rewrite take_nil in Htake.
Qed.

Lemma get_file_checksum_spec fs path content :
  completed fs !! path = Some content →
  get_file_checksum fs path = Some (Hashlib.sha256_hex content).
Proof.
  unfold get_file_checksum. intros ->.
  rewrite fold_left_update, concat_read_blocks by lia. done.
Qed.

(** ** Completion *)

Lemma completed_cleanup_chunks fs u cev :
  completed (cleanup_chunks fs u cev).1 = completed fs.
Proof.
  unfold cleanup_chunks. destruct (uploads fs !! u); [|done]. by destruct cev.
Qed.

Lemma cleanup_chunks_ok fs u :
  uploads (cleanup_chunks fs u CleanupOk).1 !! u = None.
Proof.
  unfold cleanup_chunks. destruct (uploads fs !! u) eqn:E; [|done].
  simpl. by rewrite lookup_delete_eq.
Qed.

(** Everything a successful [complete_upload] establishes. *)
Lemma complete_upload_success svc u now rev cev svc' path md :
  complete_upload svc u now rev cev = (svc', Return (Some (path, md))) →
  ∃ session chunks,
    sessions svc !! u = Some session ∧
    is_complete session = true ∧
    path = filename session ∧
    Forall2 (λ i c, committed (storage svc) u i = Some c)
      (seqZ 0 (total_chunks session)) chunks ∧
    Py.len (concat chunks) = total_size session ∧
    sessions svc' = delete u (sessions svc) ∧
    storage svc'
    = (cleanup_chunks
         (Filesystem (uploads (storage svc))
            (<[path := concat chunks]> (completed (storage svc)))) u cev).1 ∧
    md = {| Models.uploadId := u;
            Models.filename := filename session;
            Models.size := total_size session;
            Models.checksum :=
              if truthy (checksum session)
              then Some (Hashlib.sha256_hex (concat chunks)) else None;
            Models.timestamp := now;
            Models.fileType := _detect_file_type (filename session);
            Models.filepath := path |}.
Proof.
  unfold complete_upload, get_session.
  destruct (sessions svc !! u) as [session|] eqn:Hs; [|done].
  destruct (is_complete session) eqn:Hc; [|done]. cbn [negb].
  destruct (reassemble_file _ _ _ _ _ _) as [fs1 [[out|]|e]] eqn:Hre;
    [|done|done].
  apply reassemble_file_Some in Hre as (-> & chunks & Hall & Hup & Hco & Hlen).
  assert (get_file_checksum fs1 (filename session)
          = Some (Hashlib.sha256_hex (concat chunks))) as Hsum.
  { apply get_file_checksum_spec. by rewrite Hco, lookup_insert_eq. }
  assert (fs1 = Filesystem (uploads (storage svc))
                  (<[filename session := concat chunks]> (completed (storage svc))))
    as Hfs1.
  { destruct fs1; simpl in *; by subst. }
  rewrite Hsum. intros H. exists session, chunks.
  destruct (truthy (checksum session)); simpl in H;
    destruct (cleanup_chunks fs1 u cev) as [fs2 b] eqn:Hcl; simplify_eq;
    rewrite Hcl; split_and!; done.
Qed.

(** ** Claims about [complete] *)

(** C1, as stated, fails: a successful [complete_upload] whose recursive
    delete failed returns the path and the metadata while the chunk
    directory is still on disk. *)
Lemma C1_counterexample :
  let out :=
    complete_upload Examples.uploaded "id1" "t1" ReassembleOk
      (RmtreeFails ["0.chunk"]) in
  (∃ md, out.2 = Return (Some ("x.jsonl", md))) ∧
  listdir (storage out.1) "id1" !! "0.chunk" = Some Examples.chunk0.
Proof. vm_compute. split; [eexists|]; reflexivity. Qed.

(** C1 (amended): when [complete_upload] returns a path and metadata, the
    path is the session's file name below the completed root, the file there
    is the concatenation of the committed chunks [0 .. total_chunks - 1] in
    index order, its length is the session's [total_size], the session is no
    longer in the registry, and the chunk directory is gone provided the
    recursive delete did not fail. *)
Theorem C1_complete_success svc u now rev cev svc' path md :
  complete_upload svc u now rev cev = (svc', Return (Some (path, md))) →
  ∃ session chunks,
    sessions svc !! u = Some session ∧
    path = filename session ∧
    Forall2 (λ i c, committed (storage svc) u i = Some c)
      (seqZ 0 (total_chunks session)) chunks ∧
    completed (storage svc') !! filename session = Some (concat chunks) ∧
    Py.len (concat chunks) = total_size session ∧
    sessions svc' !! u = None ∧
    (cev = CleanupOk → uploads (storage svc') !! u = None).
Proof.
  intros (session & chunks & Hs & _ & -> & Hall & Hlen & Hse & Hst & _)
    %complete_upload_success.
  exists session, chunks. split_and!; try done.
  - rewrite Hst, completed_cleanup_chunks. simpl. by rewrite lookup_insert_eq.
  - by rewrite Hse, lookup_delete_eq.
  - intros ->. rewrite Hst. apply cleanup_chunks_ok.
Qed.

Lemma C1_witness :
  ∃ session chunks,
    sessions Examples.uploaded !! "id1" = Some session ∧
    "x.jsonl" = filename session ∧
    Forall2 (λ i c, committed (storage Examples.uploaded) "id1" i = Some c)
      (seqZ 0 (total_chunks session)) chunks ∧
    completed
      (storage (complete_upload Examples.uploaded "id1" "t1" ReassembleOk
                  CleanupOk).1) !! filename session = Some (concat chunks) ∧
    Py.len (concat chunks) = total_size session ∧
    sessions (complete_upload Examples.uploaded "id1" "t1" ReassembleOk
                CleanupOk).1 !! "id1" = None ∧
    (CleanupOk = CleanupOk →
     uploads (storage (complete_upload Examples.uploaded "id1" "t1" ReassembleOk
                         CleanupOk).1) !! "id1" = None).
Proof.
  eapply (C1_complete_success Examples.uploaded "id1" "t1" ReassembleOk CleanupOk).
  vm_compute. reflexivity.
Defined.

(** C8: the metadata of a successful [complete_upload] carries a checksum
    exactly when the checksum given at [init] was a non-empty string; the
    value is then the SHA-256 of the reassembled file, sixty-four lowercase
    hexadecimal characters, whatever the client had supplied; otherwise the
    field is absent. *)
Theorem C8_checksum svc u now rev cev svc' path md :
  complete_upload svc u now rev cev = (svc', Return (Some (path, md))) →
  ∃ session content,
    sessions svc !! u = Some session ∧
    completed (storage svc') !! path = Some content ∧
    Models.checksum md
    = (if truthy (checksum session)
       then Some (Hashlib.hexdigest content) else None) ∧
    (is_Some (Models.checksum md) ↔
     ∃ c, checksum session = Some c ∧ c ≠ EmptyString) ∧
    (∀ digest, Models.checksum md = Some digest →
       String.length digest = 64%nat ∧
       Forall (λ c, Hashlib.is_lower_hex c = true) (list_ascii_of_string digest)).
Proof.
  intros (session & chunks & Hs & _ & -> & _ & _ & _ & Hst & ->)
    %complete_upload_success.
  exists session, (concat chunks). simpl. split_and!; [done| |done| |].
  - rewrite Hst, completed_cleanup_chunks. simpl. by rewrite lookup_insert_eq.
  - destruct (checksum session) as [[|a c]|]; simpl.
    + split; [by intros [? ?]|]. by intros (c & [= <-] & Hne).
    + split; [|by eauto]. intros _. by eexists.
    + split; [by intros [? ?]|]. by intros (c & ? & ?).
  - intros digest. destruct (truthy (checksum session)); [|done].
    intros [= <-]. split; [apply sha256_hex_length|apply sha256_hex_lower].
Qed.

Lemma C8_witness :
  ∃ session content,
    sessions Examples.uploaded !! "id1" = Some session ∧
    completed
      (storage (complete_upload Examples.uploaded "id1" "t1" ReassembleOk
                  CleanupOk).1) !! "x.jsonl" = Some content ∧
    Some "f162044922a4a6b9bb57c7a09d55ff42f77b2b4ee590b40ea8b29dc839773adb"
    = (if truthy (checksum session)
       then Some (Hashlib.hexdigest content) else None).
Proof.
  destruct (C8_checksum Examples.uploaded "id1" "t1" ReassembleOk CleanupOk
              (complete_upload Examples.uploaded "id1" "t1" ReassembleOk
                 CleanupOk).1
              "x.jsonl"
              {| Models.uploadId := "id1";
                 Models.filename := "x.jsonl";
                 Models.size := 7;
                 Models.checksum :=
                   Some "f162044922a4a6b9bb57c7a09d55ff42f77b2b4ee590b40ea8b29dc839773adb";
                 Models.timestamp := "t1";
                 Models.fileType := "dataset";
                 Models.filepath := "x.jsonl" |})
    as (session & content & H1 & H2 & H3 & _).
  { vm_compute. reflexivity. }
  exists session, content. split_and!; assumption.
Defined.



(** The missing indices are listed in increasing order, each once, and are
    the indices below [total_chunks] that were not received. *)
Lemma get_missing_chunks_spec session :
  Sorted Z.le (get_missing_chunks session) ∧
  NoDup (get_missing_chunks session) ∧
  ∀ i, i ∈ get_missing_chunks session ↔
       0 ≤ i < total_chunks session ∧ i ∉ received_chunks session.
Proof.
  unfold get_missing_chunks, Py.sorted. split_and!.
  - apply (Sorted_merge_sort _).
  - rewrite merge_sort_Permutation. apply NoDup_elements.
  - intros i. rewrite merge_sort_Permutation, elem_of_elements,
      elem_of_difference, elem_of_list_to_set, elem_of_seqZ. naive_solver lia.
Qed.

(** C5, as stated, fails for a session that does not exist: the engine
    raises nothing and reports no missing index, it returns nothing. *)
Lemma C5_counterexample :
  complete_upload Examples.empty_service "id1" "t1" ReassembleOk CleanupOk
  = (Examples.empty_service, Return None).
Proof. vm_compute. reflexivity. Qed.

(** C5 (amended): [complete_upload] on a registered session that is not
    complete raises an error whose message lists the missing chunk indices
    in increasing order; on an upload id that is not registered it returns
    nothing, without an error and without a list.  The request handler
    answers both with status 400, and in both cases nothing is reassembled:
    the registry and the disk are as before. *)
Theorem C5_incomplete_or_missing svc u now rev cev :
  (sessions svc !! u = None →
     complete_upload svc u now rev cev = (svc, Return None) ∧
     Main.complete_upload svc u now rev cev
     = (svc, Main.HTTPException 400 (Main.Detail "Failed to complete upload"))) ∧
  (∀ session,
     sessions svc !! u = Some session →
     is_complete session = false →
     let msg :=
       "Upload incomplete: missing chunks "
       +:+ Py.repr_list (get_missing_chunks session) in
     complete_upload svc u now rev cev = (svc, Raise (ValueError msg)) ∧
     Main.complete_upload svc u now rev cev
     = (svc, Main.HTTPException 400 (Main.Detail msg)) ∧
     Sorted Z.le (get_missing_chunks session) ∧
     (∀ i, i ∈ get_missing_chunks session ↔
           0 ≤ i < total_chunks session ∧ i ∉ received_chunks session)).
Proof.
  split.
  - intros Hs. unfold Main.complete_upload, complete_upload, get_session.
    by rewrite Hs.
  - intros session Hs Hc. unfold Main.complete_upload, complete_upload, get_session.
    rewrite Hs, Hc. simpl. split_and!; [done..| |];
      apply get_missing_chunks_spec.
Qed.

Lemma C5_witness :
  Main.complete_upload Examples.half_uploaded "id1" "t1" ReassembleOk CleanupOk
  = (Examples.half_uploaded,
     Main.HTTPException 400
       (Main.Detail "Upload incomplete: missing chunks [0]")).
Proof.
  destruct (C5_incomplete_or_missing Examples.half_uploaded "id1" "t1"
              ReassembleOk CleanupOk) as [_ H].
  destruct (H {| upload_id := "id1"; filename := "x.jsonl"; total_size := 7;
                 total_chunks := 2; chunk_size := 4; checksum := Some "abc";
                 created_at := "t0"; received_chunks := {[1]} |})
    as (_ & Hmain & _).
  - vm_compute. reflexivity.
  - vm_compute. reflexivity.
  - exact Hmain.
Defined.

(** ** Chunk uploads *)

Lemma mkdir_idemp fs u : mkdir (mkdir fs u) u = mkdir fs u.
Proof. apply mkdir_exists, mkdir_is_Some. Qed.

Lemma chunk_exists_eq fs u i :
  chunk_exists fs u i = (mkdir fs u, bool_decide (is_Some (committed fs u i))).
Proof.
  unfold chunk_exists, get_chunk_path, committed. by rewrite listdir_mkdir.
Qed.

Lemma get_chunk_size_eq fs u i :
  get_chunk_size fs u i = (mkdir fs u, Py.len <$> committed fs u i).
Proof.
  unfold get_chunk_size, get_chunk_path, committed. by rewrite listdir_mkdir.
Qed.

Lemma add_received_idemp session i :
  i ∈ received_chunks session → add_received session i = session.
Proof.
  intros Hi. destruct session as [a b c d e f g r]. unfold add_received.
  simpl in *. f_equal. set_solver.
Qed.

(** The three validations, in the order of the source. *)
Lemma upload_chunk_not_found svc u i data total events :
  sessions svc !! u = None →
  upload_chunk svc u i data total events
  = (svc, (false, 0, "Upload session " +:+ u +:+ " not found")).
Proof.
  intros Hs. unfold upload_chunk, get_session, get_or_create_session_from_storage.
  rewrite Hs. by destruct (list_chunks (storage svc) u).
Qed.

Lemma upload_chunk_invalid_index svc u i data total events session :
  sessions svc !! u = Some session →
  i < 0 ∨ total_chunks session ≤ i →
  upload_chunk svc u i data total events
  = (svc, (false, received_count session, "Invalid chunk index: " +:+ pretty i)).
Proof.
  intros Hs Hi. unfold upload_chunk, get_session. rewrite Hs.
  assert ((i <? 0) || (total_chunks session <=? i) = true) as ->; [|done].
  apply orb_true_iff. rewrite Z.ltb_lt, Z.leb_le. done.
Qed.

Lemma upload_chunk_mismatch svc u i data total events session :
  sessions svc !! u = Some session →
  0 ≤ i < total_chunks session →
  total ≠ total_chunks session →
  upload_chunk svc u i data total events
  = (svc, (false, received_count session,
           "Total chunks mismatch: expected " +:+ pretty (total_chunks session)
           +:+ ", got " +:+ pretty total)).
Proof.
  intros Hs Hi Ht. unfold upload_chunk, get_session. rewrite Hs.
  assert ((i <? 0) || (total_chunks session <=? i) = false) as ->.
  { apply orb_false_iff. rewrite Z.ltb_ge, Z.leb_gt. lia. }
  by rewrite bool_decide_true.
Qed.

(** A request that passes the validations: the shortcut, or a store. *)
Lemma upload_chunk_valid svc u i data events session :
  sessions svc !! u = Some session →
  0 ≤ i < total_chunks session →
  upload_chunk svc u i data (total_chunks session) events
  = let fs1 := mkdir (storage svc) u in
    let count := Z.of_nat (size ({[i]} ∪ received_chunks session)) in
    if same_size_committed (storage svc) u i data then
      (mark_received svc fs1 u session i,
       (true, count, "Chunk already uploaded (idempotent)"))
    else
      let '(fs3, success) := store_chunk fs1 u i data events in
      if success then
        (mark_received svc fs3 u session i,
         (true, count, "Chunk uploaded successfully"))
      else
        (with_storage svc fs3,
         (false, received_count session, "Failed to store chunk")).
Proof.
  intros Hs Hi. unfold upload_chunk, get_session. rewrite Hs.
  assert ((i <? 0) || (total_chunks session <=? i) = false) as ->.
  { apply orb_false_iff. rewrite Z.ltb_ge, Z.leb_gt. lia. }
  rewrite bool_decide_false by (intros H; by apply H).
  rewrite chunk_exists_eq. unfold same_size_committed.
  destruct (committed (storage svc) u i) as [d|] eqn:Hc.
  - rewrite bool_decide_true by eauto. rewrite get_chunk_size_eq.
    rewrite committed_mkdir, Hc, mkdir_idemp. simpl.
    case_bool_decide as Hsz; [|done].
    case_bool_decide as Hin; [|done].
    unfold mark_received, with_storage.
    rewrite add_received_idemp by done. by rewrite insert_id.
  - rewrite bool_decide_false by (by intros [? ?]). done.
Qed.

(** The case analysis of a chunk request, in the order of the validations:
    index out of range, valid request (the claimed total is replaced by the
    session's), total mismatch, unknown session. *)
Ltac upload_cases svc u i total session Hs :=
  destruct (sessions svc !! u) as [session|] eqn:Hs;
    [ destruct (decide (i < 0 ∨ total_chunks session ≤ i));
        [ rewrite ?(upload_chunk_invalid_index svc u i _ total _ session) in * by done
        | destruct (decide (total = total_chunks session)) as [->|?];
            [ assert (0 ≤ i < total_chunks session) by lia
            | rewrite ?(upload_chunk_mismatch svc u i _ total _ session) in *
                by (done || lia) ] ]
    | rewrite ?(upload_chunk_not_found svc u i _ total _) in * by done ].

(** C4: the failure conditions of [upload_chunk] are checked in this order:
    unknown upload id, chunk index outside [0, total_chunks), claimed total
    different from the session's, failure of [store_chunk]; each has its own
    message, and whenever the call reports a failure the registry, hence
    every session's received set, is unchanged. *)
Theorem C4_upload_chunk_failures svc u i data total events :
  (sessions svc !! u = None →
     upload_chunk svc u i data total events
     = (svc, (false, 0, "Upload session " +:+ u +:+ " not found"))) ∧
  (∀ session,
     sessions svc !! u = Some session →
     (i < 0 ∨ total_chunks session ≤ i →
        upload_chunk svc u i data total events
        = (svc, (false, received_count session,
                 "Invalid chunk index: " +:+ pretty i))) ∧
     (0 ≤ i < total_chunks session → total ≠ total_chunks session →
        upload_chunk svc u i data total events
        = (svc, (false, received_count session,
                 "Total chunks mismatch: expected "
                 +:+ pretty (total_chunks session) +:+ ", got " +:+ pretty total))) ∧
     (0 ≤ i < total_chunks session → total = total_chunks session →
      same_size_committed (storage svc) u i data = false →
      (store_chunk (mkdir (storage svc) u) u i data events).2 = false →
        (upload_chunk svc u i data total events).2
        = (false, received_count session, "Failed to store chunk"))) ∧
  ((upload_chunk svc u i data total events).2.1.1 = false →
     sessions (upload_chunk svc u i data total events).1 = sessions svc).
Proof.
  split_and!.
  - apply upload_chunk_not_found.
  - intros session Hs. split_and!.
    + by apply upload_chunk_invalid_index.
    + by apply upload_chunk_mismatch.
    + intros Hi -> Hsame Hstore. rewrite (upload_chunk_valid _ _ _ _ _ session) by done.
      simpl. rewrite Hsame.
      destruct (store_chunk _ u i data events) as [fs3 ok]. simpl in Hstore.
      by subst.
  - upload_cases svc u i total session Hs; [done| |done|done].
    rewrite (upload_chunk_valid _ _ _ _ _ session) by done. simpl.
    destruct (same_size_committed _ _ _ _); [done|].
    destruct (store_chunk _ u i data events) as [fs3 []]; done.
Qed.

Lemma C4_witness :
  (upload_chunk Examples.started "id1" 0 Examples.chunk0 2
     [StoreOpenFails; StoreWriteFails 1; StoreReplaceFails]).2
  = (false, 0, "Failed to store chunk").
Proof.
  destruct (C4_upload_chunk_failures Examples.started "id1" 0 Examples.chunk0 2
              [StoreOpenFails; StoreWriteFails 1; StoreReplaceFails])
    as (_ & H & _).
  destruct (H {| upload_id := "id1"; filename := "x.jsonl"; total_size := 7;
                 total_chunks := 2; chunk_size := 4; checksum := Some "abc";
                 created_at := "t0"; received_chunks := ∅ |})
    as (_ & _ & Hstore).
  - vm_compute. reflexivity.
  - apply Hstore.
    + simpl. lia.
    + reflexivity.
    + vm_compute. reflexivity.
    + vm_compute. reflexivity.
Defined.

Lemma upload_chunk_valid_view svc u i data events session :
  sessions svc !! u = Some session →
  0 ≤ i < total_chunks session →
  let out := upload_chunk svc u i data (total_chunks session) events in
  let shortcut := same_size_committed (storage svc) u i data in
  let ok := shortcut || store_outcome max_retries events in
  out.2.1.1 = ok ∧
  sessions out.1
  = (if ok then <[u := add_received session i]> (sessions svc) else sessions svc) ∧
  completed (storage out.1) = completed (storage svc) ∧
  (∀ v j, committed (storage out.1) v j
          = if decide ((shortcut = false ∧ ok = true) ∧ u = v ∧ i = j)
            then Some data else committed (storage svc) v j) ∧
  (shortcut = true → out.1 = mark_received svc (storage svc) u session i).
Proof.
  intros Hs Hi. rewrite (upload_chunk_valid _ _ _ _ _ session) by done.
  cbv zeta. destruct (same_size_committed (storage svc) u i data) eqn:Hsame.
  - simpl. split_and!; [done|done| | |].
    + by rewrite completed_mkdir.
    + intros v j. by rewrite committed_mkdir.
    + intros _. rewrite mkdir_exists; [done|].
      unfold same_size_committed in Hsame. apply bool_decide_eq_true in Hsame.
      destruct (committed (storage svc) u i) as [d|] eqn:Hc; [|done].
      by eapply listdir_Some_exists.
  - pose proof (store_chunk_loop_spec max_retries (mkdir (storage svc) u) u i data
                  events) as Hspec.
    unfold store_chunk.
    destruct (store_chunk_loop max_retries _ u i data events) as [fs3 ok].
    destruct Hspec as (-> & Hco & Hview). rewrite completed_mkdir in Hco.
    rewrite orb_false_l.
    destruct (store_outcome max_retries events) eqn:Hout; cbn [fst snd storage sessions mark_received with_storage];
      (split_and!; [done|done|done| |done]);
      intros v j; rewrite Hview, committed_mkdir;
      repeat case_decide; naive_solver.
Qed.
Lemma same_size_committed_exists fs u i data :
  same_size_committed fs u i data = true → is_Some (uploads fs !! u).
Proof.
  unfold same_size_committed. intros Hsame%bool_decide_eq_true.
  destruct (committed fs u i) as [d|] eqn:Hc; [|done].
  by eapply listdir_Some_exists.
Qed.

Lemma resend_after_mark svc fs u session i data events :
  0 ≤ i < total_chunks session →
  same_size_committed fs u i data = true →
  upload_chunk (mark_received svc fs u session i) u i data
    (total_chunks session) events
  = (mark_received svc fs u session i,
     (true, Z.of_nat (size ({[i]} ∪ received_chunks session)),
      "Chunk already uploaded (idempotent)")).
Proof.
  intros Hi Hsame.
  assert (sessions (mark_received svc fs u session i) !! u
          = Some (add_received session i)) as Hs.
  { unfold mark_received. simpl. by rewrite lookup_insert_eq. }
  change (total_chunks session) with (total_chunks (add_received session i)).
  rewrite (upload_chunk_valid _ _ _ _ _ (add_received session i)) by done.
  cbv zeta. cbn [storage mark_received]. rewrite Hsame.
  rewrite mkdir_exists by (by eapply same_size_committed_exists).
  assert (add_received (add_received session i) i = add_received session i)
    as Hadd.
  { apply add_received_idemp. simpl. set_solver. }
  unfold mark_received. cbn [sessions service_chunk_size].
  rewrite Hadd, insert_insert_eq.
  do 3 f_equal. simpl. do 2 f_equal. set_solver.
Qed.

(** Once a chunk request has been acknowledged, sending it again changes
    nothing, whatever the disk does. *)
Lemma upload_chunk_acknowledged svc u i data total events events' :
  let out := upload_chunk svc u i data total events in
  out.2.1.1 = true →
  upload_chunk out.1 u i data total events'
  = (out.1, (true, out.2.1.2, "Chunk already uploaded (idempotent)")).
Proof.
  cbv zeta. intros Hok.
  upload_cases svc u i total session Hs; [done| |done|done].
  rewrite (upload_chunk_valid svc u i data events session) in Hok |- * by done.
  cbv zeta in Hok |- *.
  destruct (same_size_committed (storage svc) u i data) eqn:Hsame.
  - simpl. apply resend_after_mark; [done|].
    unfold same_size_committed in *. by rewrite committed_mkdir.
  - pose proof (store_chunk_loop_spec max_retries (mkdir (storage svc) u) u i data
                  events) as Hspec.
    unfold store_chunk in *.
    destruct (store_chunk_loop max_retries _ u i data events) as [fs3 ok].
    destruct Hspec as (_ & _ & Hview). destruct ok; [|done]. simpl.
    apply resend_after_mark; [done|].
    unfold same_size_committed. rewrite Hview. rewrite decide_True by done.
    by apply bool_decide_eq_true.
Qed.
Lemma same_view_refl svc : same_view svc svc.
Proof. by split. Qed.

Lemma same_view_sym svc1 svc2 : same_view svc1 svc2 → same_view svc2 svc1.
Proof. intros [H1 H2]. split; [done|]. intros v j. by rewrite H2. Qed.

Lemma same_view_trans svc1 svc2 svc3 :
  same_view svc1 svc2 → same_view svc2 svc3 → same_view svc1 svc3.
Proof.
  intros [H1 H2] [H3 H4]. split; [congruence|]. intros v j.
  by rewrite H2, H4.
Qed.

(** A request that is not acknowledged leaves the view as it was. *)
Lemma upload_chunk_failed_view svc u i data total events :
  (upload_chunk svc u i data total events).2.1.1 = false →
  same_view (upload_chunk svc u i data total events).1 svc.
Proof.
  intros Hok.
  upload_cases svc u i total session Hs; try apply same_view_refl.
  pose proof (upload_chunk_valid_view svc u i data events session Hs)
    as (Hok' & Hse & _ & Hview & _); [done|].
  rewrite Hok in Hok'. rewrite <- Hok' in Hse, Hview. split; [done|].
  intros v j. rewrite Hview. case_decide; naive_solver.
Qed.

(** The view after a request is determined by the view before it. *)
Lemma upload_chunk_same_view svc1 svc2 u i data total events :
  same_view svc1 svc2 →
  same_view (upload_chunk svc1 u i data total events).1
            (upload_chunk svc2 u i data total events).1.
Proof.
  intros [Hse Hco].
  destruct (sessions svc1 !! u) as [session|] eqn:Hs1.
  2:{ rewrite !upload_chunk_not_found by congruence. by split. }
  assert (sessions svc2 !! u = Some session) as Hs2 by congruence.
  destruct (decide (i < 0 ∨ total_chunks session ≤ i)) as [Hi|Hi].
  { rewrite !(upload_chunk_invalid_index _ _ _ _ _ _ session) by done.
    by split. }
  destruct (decide (total = total_chunks session)) as [->|Ht].
  2:{ rewrite !(upload_chunk_mismatch _ _ _ _ _ _ session) by (done || lia).
      by split. }
  assert (0 ≤ i < total_chunks session) as Hi' by lia.
  pose proof (upload_chunk_valid_view svc1 u i data events session Hs1 Hi')
    as (_ & Hse1 & _ & Hview1 & _).
  pose proof (upload_chunk_valid_view svc2 u i data events session Hs2 Hi')
    as (_ & Hse2 & _ & Hview2 & _).
  assert (same_size_committed (storage svc1) u i data
          = same_size_committed (storage svc2) u i data) as Hsame.
  { unfold same_size_committed. by rewrite Hco. }
  rewrite Hsame in Hse1, Hview1. split.
  - rewrite Hse1, Hse2. by rewrite Hse.
  - intros v j. rewrite Hview1, Hview2. by rewrite Hco.
Qed.

Lemma upload_again_same_view svc1 svc2 u i data total events :
  same_view svc1 svc2 →
  same_view (upload_again svc1 u i data total events)
            (upload_again svc2 u i data total events).
Proof.
  revert svc1 svc2. induction events as [|ev events IH]; intros svc1 svc2 Hv;
    [done|].
  simpl. by apply IH, upload_chunk_same_view.
Qed.

Lemma upload_again_acknowledged svc u i data total ev events :
  (upload_chunk svc u i data total ev).2.1.1 = true →
  upload_again (upload_chunk svc u i data total ev).1 u i data total events
  = (upload_chunk svc u i data total ev).1.
Proof.
  intros Hok. induction events as [|ev' events IH]; [done|].
  simpl. by rewrite upload_chunk_acknowledged.
Qed.

(** Any number of sends can be matched by a single one. *)
Lemma upload_again_one svc u i data total ev events :
  ∃ ev',
    same_view (upload_again svc u i data total (ev :: events))
              (upload_chunk svc u i data total ev').1.
Proof.
  revert svc ev. induction events as [|ev2 events IH]; intros svc ev.
  { exists ev. apply same_view_refl. }
  destruct ((upload_chunk svc u i data total ev).2.1.1) eqn:Hok.
  - exists ev. cbn [upload_again].
    rewrite upload_chunk_acknowledged by done. cbn [fst].
    rewrite upload_again_acknowledged by done. apply same_view_refl.
  - destruct (IH svc ev2) as [ev' Hv]. exists ev'.
    eapply same_view_trans; [|exact Hv].
    change (upload_again svc u i data total (ev :: ev2 :: events))
      with (upload_again (upload_chunk svc u i data total ev).1 u i data total
              (ev2 :: events)).
    by apply upload_again_same_view, upload_chunk_failed_view.
Qed.

(** Without I/O failures a request is acknowledged or rejected by a
    validation, and a rejected request changes nothing. *)
Lemma upload_chunk_no_fault svc u i data total :
  (upload_chunk svc u i data total []).2.1.1 = false →
  (upload_chunk svc u i data total []).1 = svc.
Proof.
  upload_cases svc u i total session Hs; [done| |done|done].
  pose proof (upload_chunk_valid_view svc u i data [] session Hs)
    as (Hok' & _); [done|]. intros Hok. rewrite Hok in Hok'.
  by destruct (same_size_committed _ _ _ _).
Qed.

Lemma upload_again_no_fault svc u i data total n :
  upload_again svc u i data total (replicate (S n) [])
  = (upload_chunk svc u i data total []).1.
Proof.
  destruct ((upload_chunk svc u i data total []).2.1.1) eqn:Hok.
  - cbn [replicate upload_again]. by apply upload_again_acknowledged.
  - apply upload_chunk_no_fault in Hok. rewrite Hok.
    induction n as [|n IH]; cbn [replicate upload_again] in *; by rewrite Hok.
Qed.

(** C3: sending the same chunk request any number of times leaves the same
    sessions, hence the same received sets, and the same committed chunks as
    sending it once.  Without I/O failures the states are equal; in
    general, every run of repeated sends is matched by a single send, and
    once a send has been acknowledged the later ones change nothing.  When
    a chunk of the same size is already committed for the index, the call
    succeeds with the idempotency message and the number of received
    indices, the received set afterwards is the one before together with
    the index, whether the index was in it or not, and the disk is not
    written. *)
Theorem C3_upload_chunk_idempotent svc u i data total :
  (∀ n, upload_again svc u i data total (replicate (S n) [])
        = (upload_chunk svc u i data total []).1) ∧
  (∀ ev events, ∃ ev',
     same_view (upload_again svc u i data total (ev :: events))
               (upload_chunk svc u i data total ev').1) ∧
  (∀ ev events,
     (upload_chunk svc u i data total ev).2.1.1 = true →
     upload_again svc u i data total (ev :: events)
     = (upload_chunk svc u i data total ev).1) ∧
  (∀ session ev,
     sessions svc !! u = Some session →
     0 ≤ i < total_chunks session →
     total = total_chunks session →
     same_size_committed (storage svc) u i data = true →
     let out := upload_chunk svc u i data total ev in
     storage out.1 = storage svc ∧
     sessions out.1 = <[u := add_received session i]> (sessions svc) ∧
     ∃ session',
       sessions out.1 !! u = Some session' ∧
       i ∈ received_chunks session' ∧
       (∀ j, j ∈ received_chunks session' ↔
             j = i ∨ j ∈ received_chunks session) ∧
       received_count session'
       = (if decide (i ∈ received_chunks session)
          then received_count session else received_count session + 1) ∧
       out.2 = (true, received_count session',
                "Chunk already uploaded (idempotent)")).
Proof.
  split_and!.
  - apply upload_again_no_fault.
  - apply upload_again_one.
  - intros ev events Hok. cbn [upload_again]. by apply upload_again_acknowledged.
  - intros session ev Hs Hi -> Hsame. cbv zeta.
    rewrite (upload_chunk_valid _ _ _ _ _ session) by done. cbv zeta.
    rewrite Hsame. cbn [fst snd mark_received storage sessions].
    split; [apply mkdir_exists; by eapply same_size_committed_exists|].
    split; [done|].
    exists (add_received session i). rewrite lookup_insert_eq.
    unfold received_count. cbn [add_received received_chunks].
    split_and!; [done|set_solver|set_solver| |done].
    case_decide as Hin.
    + replace ({[i]} ∪ received_chunks session) with (received_chunks session)
        by set_solver. done.
    + rewrite size_union by set_solver. rewrite size_singleton. lia.
Qed.

Lemma C3_witness :
  let svc :=
    Service (storage Examples.half_uploaded) 4 (sessions Examples.started) in
  let out := upload_chunk svc "id1" 1 Examples.chunk1 2 [StoreUnexpected] in
  storage out.1 = storage svc ∧
  ∃ session',
    sessions out.1 !! "id1" = Some session' ∧
    1 ∈ received_chunks session' ∧
    out.2 = (true, 1, "Chunk already uploaded (idempotent)").
Proof.
  intros svc out.
  destruct (C3_upload_chunk_idempotent svc "id1" 1 Examples.chunk1 2)
    as (_ & _ & _ & H).
  destruct (H {| upload_id := "id1"; filename := "x.jsonl"; total_size := 7;
                 total_chunks := 2; chunk_size := 4; checksum := Some "abc";
                 created_at := "t0"; received_chunks := ∅ |}
              [StoreUnexpected])
    as (Hdisk & _ & session' & Hs' & Hin & _ & Hcount & Hout).
  - vm_compute. reflexivity.
  - simpl. lia.
  - reflexivity.
  - vm_compute. reflexivity.
  - split; [exact Hdisk|]. exists session'.
    split; [exact Hs'|]. split; [exact Hin|].
    fold out in Hout. rewrite Hout, Hcount. reflexivity.
Defined.

(** ** Arrival order *)

Lemma chunks_by_index (chunks : list bytes) :
  (λ i, default [] (chunks !! Z.to_nat i)) <$> seqZ 0 (Py.len chunks) = chunks.
Proof.
  apply list_eq. intros k. rewrite list_lookup_fmap. unfold Py.len.
  destruct (decide (k < length chunks)%nat) as [Hk|Hk].
  - rewrite lookup_seqZ_lt by lia. simpl. rewrite Z.add_0_l, Nat2Z.id.
    destruct (lookup_lt_is_Some_2 chunks k Hk) as [c Hc]. by rewrite Hc.
  - rewrite lookup_seqZ_ge by lia. simpl. symmetry. apply lookup_ge_None. lia.
Qed.

Lemma Forall2_committed_fmap (f : Z → bytes) (g : Z → option bytes) idxs cs :
  (∀ i, i ∈ idxs → g i = Some (f i)) →
  Forall2 (λ i c, g i = Some c) idxs cs → cs = f <$> idxs.
Proof.
  intros Hg Hall. induction Hall as [|i c idxs cs Hi Hall IH]; [done|].
  simpl. f_equal.
  - rewrite Hg in Hi by set_solver. by simplify_eq.
  - apply IH. intros j Hj. apply Hg. set_solver.
Qed.

(** While the chunks of [order] are uploaded and acknowledged, the chunks
    committed so far are exactly the ones sent, and the session keeps its
    name and its sizes. *)
Lemma upload_all_committed u (chunks : list bytes) order :
  ∀ svc events svc1 session sent,
    sessions svc !! u = Some session →
    total_chunks session = Py.len chunks →
    NoDup order →
    (∀ i, i ∈ order → 0 ≤ i < Py.len chunks ∧ i ∉ sent) →
    (∀ j, committed (storage svc) u j
          = if decide (j ∈ sent) then Some (default [] (chunks !! Z.to_nat j))
            else None) →
    upload_all svc u chunks order events = (svc1, true) →
    (∃ session1,
       sessions svc1 !! u = Some session1 ∧
       total_chunks session1 = total_chunks session ∧
       filename session1 = filename session) ∧
    (∀ j, committed (storage svc1) u j
          = if decide (j ∈ sent ++ order)
            then Some (default [] (chunks !! Z.to_nat j)) else None).
Proof.
  induction order as [|i order IH];
    intros svc events svc1 session sent Hs Ht Hnd Hrange Hsent Hrun.
  { simpl in Hrun. simplify_eq. rewrite app_nil_r. eauto. }
  cbn [upload_all] in Hrun.
  destruct (Hrange i) as [Hi Hnew]; [set_solver|].
  rewrite <- Ht in Hi, Hrun.
  pose proof (upload_chunk_valid_view svc u i
                (default [] (chunks !! Z.to_nat i)) (hd [] events) session Hs Hi)
    as (Hok & Hse & _ & Hview & _).
  assert (same_size_committed (storage svc) u i
            (default [] (chunks !! Z.to_nat i)) = false) as Hsame.
  { unfold same_size_committed. rewrite Hsent, decide_False by done. done. }
  rewrite Hsame in Hok, Hse, Hview. rewrite orb_false_l in Hok, Hse, Hview.
  destruct (upload_chunk svc u i _ (total_chunks session) (hd [] events))
    as [svc2 [[ok n] msg]]. simpl in Hok, Hse, Hview. symmetry in Hok.
  destruct (upload_all svc2 u chunks order (tl events)) as [svc3 oks] eqn:Hrest.
  injection Hrun as -> Hand. apply andb_true_iff in Hand as [-> ->].
  rewrite Hok in Hse, Hview.
  apply NoDup_cons in Hnd as [Hi_order Hnd].
  destruct (IH svc2 (tl events) svc1 (add_received session i) (sent ++ [i]))
    as [(session1 & Hs1 & Ht1 & Hf1) Hc1]; try done.
  - by rewrite Hse, lookup_insert_eq.
  - intros j Hj. split; [apply Hrange; set_solver|].
    destruct (Hrange j) as [_ Hj']; [set_solver|]. set_solver.
  - intros j. rewrite Hview, Hsent.
    destruct (decide (i = j)) as [<-|Hij].
    + rewrite decide_True by done. rewrite decide_True by set_solver. done.
    + rewrite decide_False by naive_solver.
      repeat case_decide; set_solver.
  - split; [by exists session1|].
    intros j. rewrite Hc1. rewrite <- app_assoc. done.
Qed.




(** ** Status *)

Lemma sorted_Permutation xs : Py.sorted xs ≡ₚ xs.
Proof. apply merge_sort_Permutation. Qed.

Lemma sorted_Sorted xs : Sorted Z.le (Py.sorted xs).
Proof. apply (Sorted_merge_sort _). Qed.

Lemma sorted_nil_inv xs : Py.sorted xs = [] → xs = [].
Proof.
  intros H. apply Permutation_nil_r. rewrite <- H. symmetry.
  apply sorted_Permutation.
Qed.

Lemma fold_left_max_spec xs x :
  let m := fold_left Z.max xs x in
  m ∈ x :: xs ∧ ∀ y, y ∈ x :: xs → y ≤ m.
Proof.
  revert x. induction xs as [|a xs IH]; intros x; simpl.
  { split; [set_solver|]. intros y Hy. assert (y = x) by set_solver. lia. }
  destruct (IH (Z.max x a)) as [Hin Hub]. split.
  - apply elem_of_cons in Hin as [Hin|Hin]; [|set_solver].
    rewrite Hin. destruct (Z.max_spec x a) as [[_ ->]|[_ ->]]; set_solver.
  - intros y Hy.
    assert (y ≤ Z.max x a ∨ y ∈ xs) as [Hle|Hxs].
    { apply elem_of_cons in Hy as [->|Hy]; [left; lia|].
      apply elem_of_cons in Hy as [->|Hy]; [left; lia|by right]. }
    + etrans; [exact Hle|]. apply Hub. set_solver.
    + apply Hub. set_solver.
Qed.

Lemma max_spec xs :
  xs ≠ [] →
  ∃ m, Py.max xs = Some m ∧ m ∈ xs ∧ ∀ y, y ∈ xs → y ≤ m.
Proof.
  destruct xs as [|x xs]; [done|]. intros _. eexists. split; [done|].
  apply fold_left_max_spec.
Qed.

(** C7: the status endpoint answers, for a registered session, with the
    upload id, the session's total, the received indices in increasing
    order and the completeness flag, which holds exactly when the number of
    received indices is the total; for an unregistered id with committed
    chunks on disk, with the sorted chunk indices found there, a total
    inferred as their maximum plus one and the flag telling whether their
    number is that total; and with 404 when there is neither. *)
Theorem C7_status svc u :
  (∀ session,
     sessions svc !! u = Some session →
     let received := Py.sorted (elements (received_chunks session)) in
     Main.get_upload_status svc u
     = Main.Ok200
         {| Main.uploadId := u;
            Main.totalChunks := total_chunks session;
            Main.receivedChunks := received;
            Main.isComplete :=
              bool_decide (Z.of_nat (size (received_chunks session))
                           = total_chunks session) |} ∧
     Sorted Z.le received ∧ NoDup received ∧
     (∀ i, i ∈ received ↔ i ∈ received_chunks session)) ∧
  (sessions svc !! u = None →
   list_chunks (storage svc) u ≠ [] →
   let received := Py.sorted (list_chunks (storage svc) u) in
   ∃ m,
     m ∈ received ∧ (∀ i, i ∈ received → i ≤ m) ∧
     Main.get_upload_status svc u
     = Main.Ok200
         {| Main.uploadId := u;
            Main.totalChunks := m + 1;
            Main.receivedChunks := received;
            Main.isComplete := bool_decide (Py.len received = m + 1) |}) ∧
  (sessions svc !! u = None →
   list_chunks (storage svc) u = [] →
   Main.get_upload_status svc u
   = Main.HTTPException 404
       (Main.Detail ("Upload session " +:+ u +:+ " not found"))).
Proof.
  unfold Main.get_upload_status, get_upload_status, get_session. split_and!.
  - intros session Hs. rewrite Hs. simpl. split_and!; [done| | |].
    + apply sorted_Sorted.
    + rewrite sorted_Permutation. apply NoDup_elements.
    + intros i. by rewrite sorted_Permutation, elem_of_elements.
  - intros Hs Hne. rewrite Hs. cbv zeta.
    destruct (list_chunks (storage svc) u) as [|x l] eqn:Hl; [done|]. simpl.
    destruct (max_spec (Py.sorted (x :: l))) as (m & Hm & Hin & Hub).
    { intros Hnil. by apply sorted_nil_inv in Hnil. }
    exists m. rewrite Hm. done.
  - intros Hs Hl. by rewrite Hs, Hl.
Qed.

Lemma C7_witness :
  Main.get_upload_status Examples.uploaded "id1"
  = Main.Ok200
      {| Main.uploadId := "id1";
         Main.totalChunks := 2;
         Main.receivedChunks := [0; 1];
         Main.isComplete := true |}.
Proof.
  destruct (C7_status Examples.uploaded "id1") as (H & _ & _).
  destruct (H {| upload_id := "id1"; filename := "x.jsonl"; total_size := 7;
                 total_chunks := 2; chunk_size := 4; checksum := Some "abc";
                 created_at := "t0"; received_chunks := {[0; 1]} |})
    as (Hstatus & _).
  - vm_compute. reflexivity.
  - rewrite Hstatus. vm_compute. reflexivity.
Defined.

(** ** Queries of the chunk store *)

(** C10: [chunk_exists], [get_chunk] and [get_chunk_size] create the upload
    directory when it is missing, for any upload id, and then report that
    there is no chunk; on an existing directory they change nothing.
    [list_chunks] is a function of the disk that returns no new disk: it
    creates nothing, and finds no chunk where there is no directory. *)
Theorem C10_queries_create_directory fs u i :
  (uploads fs !! u = None →
     ((chunk_exists fs u i).2 = false ∧
      uploads (chunk_exists fs u i).1 !! u = Some ∅) ∧
     (∀ read_ok,
        (get_chunk fs u i read_ok).2 = None ∧
        uploads (get_chunk fs u i read_ok).1 !! u = Some ∅) ∧
     ((get_chunk_size fs u i).2 = None ∧
      uploads (get_chunk_size fs u i).1 !! u = Some ∅) ∧
     list_chunks fs u = []) ∧
  (is_Some (uploads fs !! u) →
     (chunk_exists fs u i).1 = fs ∧
     (∀ read_ok, (get_chunk fs u i read_ok).1 = fs) ∧
     (get_chunk_size fs u i).1 = fs).
Proof.
  split.
  - intros Hno.
    assert (committed fs u i = None) as Hc.
    { unfold committed, listdir. by rewrite Hno. }
    rewrite chunk_exists_eq, get_chunk_size_eq, Hc. simpl.
    split_and!; try done; try (by apply mkdir_fresh).
    + intros read_ok. unfold get_chunk, get_chunk_path.
      rewrite listdir_mkdir. unfold committed in Hc. rewrite Hc. simpl.
      split; [done|]. by apply mkdir_fresh.
    + by apply list_chunks_no_dir.
  - intros Hdir. rewrite chunk_exists_eq, get_chunk_size_eq. simpl.
    split_and!; try (by apply mkdir_exists).
    intros read_ok. rewrite get_chunk_fst. by apply mkdir_exists.
Qed.

Lemma C10_witness :
  uploads (chunk_exists (Filesystem ∅ ∅) "never-initialised" 0).1
    !! "never-initialised" = Some ∅.
Proof.
  destruct (C10_queries_create_directory (Filesystem ∅ ∅) "never-initialised" 0)
    as [H _].
  destruct H as ((_ & H) & _); [reflexivity|].
  exact H.
Defined.

(** ** Dataset validation *)

Import AIIntegration.







(** ** Initialisation *)

(** A session created under an upload id that has no directory yet starts
    with an empty received set and with no chunk staged. *)
Lemma init_upload_fresh svc request uuid4 now svc1 answer :
  uploads (storage svc) !! uuid4 = None →
  init_upload svc request uuid4 now = Return (svc1, answer) →
  answer = (uuid4, service_chunk_size svc) ∧
  (∃ session,
     sessions svc1 !! uuid4 = Some session ∧
     received_chunks session = ∅ ∧
     filename session = Models.req_filename request ∧
     total_size session = Models.totalSize request ∧
     total_chunks session
     = (Models.totalSize request + service_chunk_size svc - 1)
         `div` service_chunk_size svc) ∧
  ∀ j, committed (storage svc1) uuid4 j = None.
Proof.
  intros Hfresh. unfold init_upload. case_bool_decide; [done|].
  intros [= <- <-]. split_and!; [done| |].
  - eexists. simpl. rewrite lookup_insert_eq. done.
  - intros j. unfold committed, listdir. simpl. by rewrite Hfresh.
Qed.

(** ** Decimal numerals and chunk file names *)

Lemma string_app_cons c (s t : string) : String c s +:+ t = String c (s +:+ t).
Proof. done. Qed.

Lemma string_length_app (s t : string) :
  String.length (s +:+ t) = (String.length s + String.length t)%nat.
Proof.
  induction s as [|c s IH]; [done|]. rewrite string_app_cons. simpl.
  by rewrite IH.
Qed.

Lemma substring_app_skip (s t : string) (a k : nat) :
  String.substring (String.length s + a) k (s +:+ t) = String.substring a k t.
Proof. induction s as [|c s IH]; [done|]. rewrite string_app_cons. exact IH. Qed.

Lemma substring_whole (s : string) :
  String.substring 0 (String.length s) s = s.
Proof. induction s as [|c s IH]; simpl; [done|]. by rewrite IH. Qed.

Lemma substring_prefix (s t : string) :
  String.substring 0 (String.length s) (s +:+ t) = s.
Proof.
  induction s as [|c s IH]; [by destruct t|]. rewrite string_app_cons. simpl.
  by rewrite IH.
Qed.

Lemma rfind_dot_app (s t : string) :
  Py.rfind_dot (s +:+ t)
  = match Py.rfind_dot t with
    | Some i => Some (String.length s + i)%nat
    | None => Py.rfind_dot s
    end.
Proof.
  induction s as [|c s IH].
  - change (EmptyString +:+ t) with t. by destruct (Py.rfind_dot t).
  - rewrite string_app_cons. simpl.
    rewrite IH. destruct (Py.rfind_dot t) as [i|]; [done|].
    by destruct (Py.rfind_dot s).
Qed.

Lemma digit_pretty_N_char (d : N) :
  (d < 10)%N → Py.digit (pretty_N_char d) = Some (Z.of_N d).
Proof.
  intros Hd. unfold pretty_N_char.
  destruct d as [|p]; [done|].
  do 4 (destruct p as [p|p|]; try done; try lia).
Qed.

(** Reading a decimal numeral gives back the number. *)
Lemma int_digits_pretty_N_go (x : N) (s : string) :
  (0 < x)%N →
  Py.int_digits 0 false (pretty_N_go x s) = Py.int_digits (Z.of_N x) true s.
Proof.
  revert s. induction (N.lt_wf_0 x) as [x _ IH]. intros s Hx.
  rewrite pretty_N_go_step by done.
  assert (x = 10 * (x `div` 10) + x `mod` 10)%N as Hdm by (apply N.div_mod; lia).
  assert (x `mod` 10 < 10)%N as Hmod by (apply N.mod_lt; lia).
  destruct (decide (x `div` 10 = 0)%N) as [Hz|Hnz].
  - rewrite Hz, pretty_N_go_0. simpl. rewrite digit_pretty_N_char by done.
    f_equal. lia.
  - rewrite IH; [|apply N.div_lt; lia|lia].
    simpl. rewrite digit_pretty_N_char by done. f_equal. lia.
Qed.

Lemma rfind_dot_pretty_N_go (x : N) (s : string) :
  Py.rfind_dot s = None → Py.rfind_dot (pretty_N_go x s) = None.
Proof.
  revert s. induction (N.lt_wf_0 x) as [x _ IH]. intros s Hs.
  destruct (decide (x = 0)%N) as [->|Hx]; [by rewrite pretty_N_go_0|].
  rewrite pretty_N_go_step by lia. apply IH; [apply N.div_lt; lia|].
  simpl. rewrite Hs. unfold pretty_N_char. by repeat case_match.
Qed.

Lemma string_app_nil_r (s : string) : s +:+ EmptyString = s.
Proof. induction s as [|c s IH]; [done|]. rewrite string_app_cons. by rewrite IH. Qed.

Lemma rev_app_rev_app (s t u : string) :
  String.rev_app (String.rev_app s t) u = String.rev_app t (s +:+ u).
Proof.
  revert t u. induction s as [|c s IH]; intros t u; [done|].
  simpl. rewrite IH. by rewrite string_app_cons.
Qed.

Lemma string_rev_involutive (s : string) : String.rev (String.rev s) = s.
Proof. unfold String.rev. rewrite rev_app_rev_app. simpl. apply string_app_nil_r. Qed.

(** Strings made of characters of one kind. *)

Lemma all_chars_rev_app P s t :
  all_chars P s → all_chars P t → all_chars P (String.rev_app s t).
Proof.
  unfold all_chars. revert t. induction s as [|c s IH]; intros t Hs Ht; [done|].
  simpl in *. apply Forall_cons in Hs as [Hc Hs]. apply IH; [done|].
  by constructor.
Qed.

Lemma all_chars_app P s t :
  all_chars P s → all_chars P t → all_chars P (s +:+ t).
Proof.
  unfold all_chars. rewrite list_ascii_of_string_app. apply Forall_app_2.
Qed.

Lemma lstrip_by_all space s :
  all_chars (λ c, space c = false) s → Py.lstrip_by space s = s.
Proof.
  unfold all_chars. destruct s as [|c s]; [done|]. simpl.
  intros [Hc _]%Forall_cons. by rewrite Hc.
Qed.

(** Stripping a text without white space changes nothing. *)
Lemma strip_by_all space s :
  all_chars (λ c, space c = false) s → Py.strip_by space s = s.
Proof.
  intros Hs. unfold Py.strip_by. rewrite (lstrip_by_all space s Hs).
  rewrite lstrip_by_all; [apply string_rev_involutive|].
  apply all_chars_rev_app; [done|constructor].
Qed.

Lemma all_chars_pretty_N_go P x s :
  (∀ d, (d < 10)%N → P (pretty_N_char d)) →
  all_chars P s → all_chars P (pretty_N_go x s).
Proof.
  intros HP. revert s. induction (N.lt_wf_0 x) as [x _ IH]. intros s Hs.
  destruct (decide (x = 0)%N) as [->|Hx]; [by rewrite pretty_N_go_0|].
  rewrite pretty_N_go_step by lia. apply IH; [apply N.div_lt; lia|].
  constructor; [|done]. apply HP, N.mod_lt. lia.
Qed.

Lemma pretty_N_char_cases (P : ascii → Prop) :
  P "0"%char → P "1"%char → P "2"%char → P "3"%char → P "4"%char →
  P "5"%char → P "6"%char → P "7"%char → P "8"%char → P "9"%char →
  ∀ d, P (pretty_N_char d).
Proof. intros. unfold pretty_N_char. by repeat case_match. Qed.

(** The numeral of a positive number starts with a digit, read as is. *)
Lemma int_pretty_N_go (x : N) :
  (0 < x)%N → Py.int (pretty_N_go x "") = Some (Z.of_N x).
Proof.
  intros Hx. unfold Py.int. rewrite strip_by_all.
  2:{ apply all_chars_pretty_N_go; [|constructor].
      intros d _. by apply pretty_N_char_cases. }
  pose proof (int_digits_pretty_N_go x "" Hx) as Hread. simpl in Hread.
  assert (all_chars (λ c, is_Some (Py.digit c)) (pretty_N_go x "")) as Hdig.
  { apply all_chars_pretty_N_go; [|constructor].
    intros d _. by apply pretty_N_char_cases. }
  destruct (pretty_N_go x "") as [|c s]; [done|].
  apply Forall_cons in Hdig as [[d Hd] _].
  assert (c ≠ "-"%char ∧ c ≠ "+"%char) as [Hm Hp].
  { split; intros ->; done. }
  destruct c as [[] [] [] [] [] [] [] []]; try done.
Qed.

(** [int(f"{i}") == i] *)
Lemma int_pretty (i : Z) : Py.int (pretty i) = Some i.
Proof.
  destruct i as [|p|p].
  - done.
  - change (pretty (Z.pos p)) with (pretty_N_go (N.pos p) "").
    by rewrite int_pretty_N_go.
  - change (pretty (Z.neg p)) with ("-" +:+ pretty_N_go (N.pos p) "").
    pose proof (int_pretty_N_go (N.pos p) eq_refl) as Hpos.
    assert (all_chars (λ c, Py.is_c_space c = false) (pretty_N_go (N.pos p) ""))
      as Hsp.
    { apply all_chars_pretty_N_go; [|constructor].
      intros d _. by apply pretty_N_char_cases. }
    unfold Py.int in *. rewrite strip_by_all in Hpos by done.
    rewrite strip_by_all by (by constructor).
    rewrite string_app_cons. change (EmptyString +:+ ?s) with s.
    cbv match beta.
    destruct (pretty_N_go (N.pos p) "") as [|c s] eqn:Hnum; [done|].
    assert (is_Some (Py.digit c)) as [d Hd].
    { assert (all_chars (λ c, is_Some (Py.digit c)) (pretty_N_go (N.pos p) ""))
        as Hdig.
      { apply all_chars_pretty_N_go; [|constructor].
        intros ? _. by apply pretty_N_char_cases. }
      rewrite Hnum in Hdig. by apply Forall_cons in Hdig as [? _]. }
    assert (Py.int_digits 0 false (String c s) = Some (Z.of_N (N.pos p))) as ->.
    { destruct c as [[] [] [] [] [] [] [] []]; try done. }
    done.
Qed.

Lemma pretty_nonempty (i : Z) : (0 < String.length (pretty i))%nat.
Proof.
  pose proof (int_pretty i) as H. destruct (pretty i); [done|simpl; lia].
Qed.

Lemma rfind_dot_pretty (i : Z) : Py.rfind_dot (pretty i) = None.
Proof.
  destruct i as [|p|p]; [done| |].
  - change (pretty (Z.pos p)) with (pretty_N_go (N.pos p) "").
    by apply rfind_dot_pretty_N_go.
  - change (pretty (Z.neg p)) with ("-" +:+ pretty_N_go (N.pos p) "").
    rewrite rfind_dot_app, rfind_dot_pretty_N_go; done.
Qed.

(** The stem of a chunk file is the numeral of its index. *)
Lemma stem_chunk_name (i : Z) : Py.stem (chunk_name i) = pretty i.
Proof.
  unfold Py.stem, chunk_name. rewrite rfind_dot_app. simpl Py.rfind_dot.
  rewrite string_length_app. pose proof (pretty_nonempty i) as Hlen.
  rewrite Nat.add_0_r.
  assert ((0 <? String.length (pretty i))%nat
          && (String.length (pretty i)
              <? String.length (pretty i) + String.length ".chunk" - 1)%nat
          = true) as ->.
  { apply andb_true_iff. rewrite !Nat.ltb_lt. simpl. lia. }
  apply substring_prefix.
Qed.

Lemma int_stem_chunk_name (i : Z) : Py.int (Py.stem (chunk_name i)) = Some i.
Proof. by rewrite stem_chunk_name, int_pretty. Qed.

Lemma endswith_chunk_name (i : Z) : Py.endswith (chunk_name i) ".chunk" = true.
Proof.
  unfold Py.endswith, chunk_name. rewrite string_length_app. simpl String.length.
  apply andb_true_iff. split; [apply Nat.leb_le; lia|].
  replace (String.length (pretty i) + 6 - 6)%nat
    with (String.length (pretty i) + 0)%nat by lia.
  by rewrite substring_app_skip.
Qed.

(** A temporary file is never matched by the pattern of the chunks. *)
Lemma endswith_temp_name (i : Z) : Py.endswith (temp_name i) ".chunk" = false.
Proof.
  unfold Py.endswith, temp_name. rewrite string_length_app. simpl String.length.
  apply andb_false_iff. right.
  replace (String.length (pretty i) + 10 - 6)%nat
    with (String.length (pretty i) + 4)%nat by lia.
  by rewrite substring_app_skip.
Qed.

(** ** Listing the staging area *)

Lemma sorted_perm_eq (xs ys : list Z) : xs ≡ₚ ys → Py.sorted xs = Py.sorted ys.
Proof.
  intros Hp. apply (Sorted_unique Z.le); [apply sorted_Sorted..|].
  by rewrite !sorted_Permutation.
Qed.

Lemma sorted_cons_sorted (x : Z) (xs : list Z) :
  Py.sorted (x :: Py.sorted xs) = Py.sorted (x :: xs).
Proof. apply sorted_perm_eq. by rewrite sorted_Permutation. Qed.

Lemma list_chunks_alt fs u :
  list_chunks fs u
  = Py.sorted (omap (λ name, Py.int (Py.stem name)) (glob_chunk (listdir fs u))).
Proof.
  unfold list_chunks, listdir. destruct (uploads fs !! u); [done|].
  simpl. unfold glob_chunk. by rewrite map_to_list_empty.
Qed.

Lemma glob_chunk_insert (dir : gmap string bytes) name data :
  glob_chunk (<[name := data]> dir)
  ≡ₚ if decide (is_Some (dir !! name) ∨ Py.endswith name ".chunk" = false)
     then glob_chunk dir else name :: glob_chunk dir.
Proof.
  unfold glob_chunk. destruct (dir !! name) as [old|] eqn:Hold.
  - rewrite decide_True by eauto.
    rewrite <- insert_delete_eq.
    rewrite map_to_list_insert by apply lookup_delete_eq.
    rewrite <- (map_to_list_delete dir name old Hold). done.
  - rewrite map_to_list_insert by done. simpl. rewrite filter_cons.
    destruct (Py.endswith name ".chunk") eqn:Hend.
    + rewrite decide_True by done. rewrite decide_False; [done|].
      intros [[? ?]|?]; done.
    + rewrite decide_False by done. by rewrite decide_True by eauto.
Qed.

Lemma glob_chunk_delete (dir : gmap string bytes) name :
  Py.endswith name ".chunk" = false →
  glob_chunk (delete name dir) ≡ₚ glob_chunk dir.
Proof.
  intros Hend. unfold glob_chunk. destruct (dir !! name) as [old|] eqn:Hold.
  - rewrite <- (map_to_list_delete dir name old Hold). simpl.
    rewrite filter_cons, decide_False; [done|]. by rewrite Hend.
  - by rewrite delete_id.
Qed.

Lemma glob_chunk_mkdir fs u v :
  glob_chunk (listdir (mkdir fs u) v) = glob_chunk (listdir fs v).
Proof. by rewrite listdir_mkdir. Qed.

Lemma glob_chunk_write_temp fs u i data v :
  glob_chunk (listdir (write_entry fs u (temp_name i) data) v)
  ≡ₚ glob_chunk (listdir fs v).
Proof.
  rewrite listdir_write_entry. case_decide; [subst|done].
  rewrite glob_chunk_insert. rewrite decide_True; [done|].
  right. apply endswith_temp_name.
Qed.

(** One successful attempt adds the chunk file to the listing unless it was
    there. *)
Lemma glob_chunk_store_ok fs u i data v :
  glob_chunk (listdir (replace_entry (write_entry fs u (temp_name i) data) u
                         (temp_name i) (chunk_name i)) v)
  ≡ₚ if decide (u = v ∧ committed fs u i = None)
     then chunk_name i :: glob_chunk (listdir fs v)
     else glob_chunk (listdir fs v).
Proof.
  rewrite (listdir_replace_entry _ _ _ _ data).
  2:{ rewrite listdir_write_entry, decide_True by done.
      by rewrite lookup_insert_eq. }
  rewrite !listdir_write_entry, (decide_True (P := u = u)) by done.
  destruct (decide (u = v)) as [->|Huv].
  2:{ by rewrite decide_False by naive_solver. }
  assert (glob_chunk (delete (temp_name i) (<[temp_name i:=data]> (listdir fs v)))
          ≡ₚ glob_chunk (listdir fs v)) as Hrest.
  { rewrite glob_chunk_delete by apply endswith_temp_name.
    rewrite glob_chunk_insert. rewrite decide_True; [done|].
    right. apply endswith_temp_name. }
  rewrite glob_chunk_insert.
  rewrite lookup_delete_ne by apply temp_name_not_chunk.
  rewrite lookup_insert_ne by apply temp_name_not_chunk.
  unfold committed. destruct (listdir fs v !! chunk_name i) eqn:Hc.
  - rewrite decide_True by eauto. by rewrite decide_False by naive_solver.
  - rewrite decide_False.
    + rewrite decide_True by done. by rewrite Hrest.
    + rewrite endswith_chunk_name. intros [[? ?]|?]; done.
Qed.

Lemma store_chunk_loop_glob n fs u i data events v :
  let '(fs', ok) := store_chunk_loop n fs u i data events in
  glob_chunk (listdir fs' v)
  ≡ₚ if decide (ok = true ∧ u = v ∧ committed fs u i = None)
     then chunk_name i :: glob_chunk (listdir fs v)
     else glob_chunk (listdir fs v).
Proof.
  revert fs events. induction n as [|n IH]; intros fs events;
    cbn [store_chunk_loop].
  { by rewrite decide_False by naive_solver. }
  destruct (hd StoreOk events) eqn:Hev;
    [ rewrite glob_chunk_store_ok
    | specialize (IH (mkdir fs u) (tl events))
    | specialize (IH (write_entry (mkdir fs u) u (temp_name i)
                        (take written data)) (tl events))
    | specialize (IH (write_entry (mkdir fs u) u (temp_name i) data) (tl events))
    |
    | specialize (IH fs (tl events)) ];
    try (destruct (store_chunk_loop n _ u i data (tl events)) as [fs' ok];
         rewrite IH);
    repeat case_decide;
    rewrite ?committed_write_temp, ?committed_mkdir in *;
    rewrite ?glob_chunk_write_temp, ?glob_chunk_mkdir;
    naive_solver.
Qed.

(** ** The staging area: storing, listing, removing *)

Lemma uploads_mkdir_ne fs u v : v ≠ u → uploads (mkdir fs u) !! v = uploads fs !! v.
Proof.
  intros Hne. unfold mkdir. destruct (uploads fs !! u); [done|].
  cbn. by rewrite lookup_insert_ne.
Qed.

Lemma uploads_write_entry_ne fs u name data v :
  v ≠ u → uploads (write_entry fs u name data) !! v = uploads fs !! v.
Proof. intros Hne. cbn. by rewrite lookup_insert_ne. Qed.

Lemma uploads_replace_entry_ne fs u src dst v :
  v ≠ u → uploads (replace_entry fs u src dst) !! v = uploads fs !! v.
Proof.
  intros Hne. unfold replace_entry. destruct (listdir fs u !! src); [|done].
  cbn. by rewrite lookup_insert_ne.
Qed.

Lemma store_chunk_loop_other n fs u i data events v :
  v ≠ u →
  uploads (store_chunk_loop n fs u i data events).1 !! v = uploads fs !! v.
Proof.
  intros Hne. revert fs events.
  induction n as [|n IH]; intros fs events; [done|].
  cbn [store_chunk_loop].
  destruct (hd StoreOk events); cbn [fst]; rewrite ?IH,
    ?uploads_replace_entry_ne, ?uploads_write_entry_ne, ?uploads_mkdir_ne; done.
Qed.

Lemma store_chunk_loop_entries n fs u i data events v name :
  name ≠ temp_name i → name ≠ chunk_name i →
  listdir (store_chunk_loop n fs u i data events).1 v !! name
  = listdir fs v !! name.
Proof.
  intros Htemp Hchunk. revert fs events.
  induction n as [|n IH]; intros fs events; [done|].
  cbn [store_chunk_loop].
  assert (∀ d, listdir (write_entry (mkdir fs u) u (temp_name i) d) v !! name
               = listdir fs v !! name) as Hwrite.
  { intros d. rewrite listdir_write_entry, !listdir_mkdir.
    case_decide; [subst|done]. by rewrite lookup_insert_ne. }
  destruct (hd StoreOk events); cbn [fst]; rewrite ?IH, ?Hwrite,
    ?listdir_mkdir; try done.
  rewrite (listdir_replace_entry _ _ _ _ data)
    by (rewrite listdir_write_entry, decide_True by done;
        by rewrite lookup_insert_eq).
  destruct (decide (u = v)) as [->|Hne]; [|apply Hwrite].
  rewrite lookup_insert_ne, lookup_delete_ne by done. apply Hwrite.
Qed.

Lemma list_chunks_perm fs fs' u v :
  glob_chunk (listdir fs' v) ≡ₚ glob_chunk (listdir fs u) →
  list_chunks fs' v = list_chunks fs u.
Proof.
  intros Hp. rewrite !list_chunks_alt. apply sorted_perm_eq. by rewrite Hp.
Qed.

Lemma listing_after_store_loop n fs u i data events v :
  let '(fs', ok) := store_chunk_loop n fs u i data events in
  list_chunks fs' v
  = if decide (ok = true ∧ u = v ∧ committed fs u i = None)
    then Py.sorted (i :: list_chunks fs v) else list_chunks fs v.
Proof.
  pose proof (store_chunk_loop_glob n fs u i data events v) as Hg.
  destruct (store_chunk_loop n fs u i data events) as [fs' ok].
  case_decide as Hc.
  - rewrite !list_chunks_alt. apply sorted_perm_eq. rewrite Hg. cbn [omap list_omap].
    rewrite int_stem_chunk_name. constructor.
    symmetry. apply sorted_Permutation.
  - by apply list_chunks_perm.
Qed.

(** X1.  A chunk that [store_chunk] reports as stored is the one that
    [get_chunk], [get_chunk_size] and [chunk_exists] find afterwards; every
    other chunk, every other upload directory and the completed files are
    as before. *)
Theorem store_chunk_round_trip fs u i data events fs' :
  store_chunk fs u i data events = (fs', true) →
  get_chunk fs' u i true = (fs', Some data) ∧
  get_chunk_size fs' u i = (fs', Some (Py.len data)) ∧
  chunk_exists fs' u i = (fs', true) ∧
  (∀ v j, (v, j) ≠ (u, i) → committed fs' v j = committed fs v j) ∧
  (∀ v, v ≠ u → uploads fs' !! v = uploads fs !! v) ∧
  completed fs' = completed fs.
Proof.
  intros Hst. unfold store_chunk in Hst.
  pose proof (store_chunk_loop_spec max_retries fs u i data events) as Hspec.
  pose proof (store_chunk_loop_other max_retries fs u i data events) as Hoth.
  rewrite Hst in Hspec, Hoth. destruct Hspec as (_ & Hcomp & Hcm).
  assert (committed fs' u i = Some data) as Hi.
  { rewrite Hcm, decide_True; done. }
  assert (mkdir fs' u = fs') as Hmk.
  { apply mkdir_exists. by eapply listdir_Some_exists. }
  repeat split.
  - unfold get_chunk, get_chunk_path. rewrite Hmk.
    unfold committed in Hi. by rewrite Hi.
  - by rewrite get_chunk_size_eq, Hmk, Hi.
  - rewrite chunk_exists_eq, Hmk, Hi. by rewrite bool_decide_true.
  - intros v j Hne. rewrite Hcm, decide_False; [done|]. naive_solver.
  - intros v Hne. by apply Hoth.
  - done.
Qed.

Lemma store_chunk_round_trip_witness :
  let fs' := (store_chunk (Filesystem ∅ ∅) "u" 0 Examples.chunk0
                [StoreWriteFails 1; StoreOk]).1 in
  get_chunk fs' "u" 0 true = (fs', Some Examples.chunk0).
Proof.
  intros fs'.
  eapply (store_chunk_round_trip (Filesystem ∅ ∅) "u" 0 Examples.chunk0
            [StoreWriteFails 1; StoreOk] fs').
  vm_compute. reflexivity.
Defined.

(** X2.  A store that fails is invisible: whatever the failed attempts left
    behind, every committed chunk, every listing and the completed files
    are as before, and so is every directory entry other than the temp file
    of the chunk. *)
Theorem store_chunk_failure_invisible fs u i data events fs' :
  store_chunk fs u i data events = (fs', false) →
  (∀ v j, committed fs' v j = committed fs v j) ∧
  (∀ v, list_chunks fs' v = list_chunks fs v) ∧
  (∀ v name, name ≠ temp_name i →
             listdir fs' v !! name = listdir fs v !! name) ∧
  (∀ v, v ≠ u → uploads fs' !! v = uploads fs !! v) ∧
  completed fs' = completed fs.
Proof.
  intros Hst. unfold store_chunk in Hst.
  pose proof (store_chunk_loop_spec max_retries fs u i data events) as Hspec.
  pose proof (store_chunk_loop_other max_retries fs u i data events) as Hoth.
  pose proof (store_chunk_loop_entries max_retries fs u i data events) as Hent.
  rewrite Hst in Hspec, Hoth, Hent. destruct Hspec as (_ & Hcomp & Hcm).
  assert (∀ v j, committed fs' v j = committed fs v j) as Hsame.
  { intros v j. rewrite Hcm, decide_False; [done|]. naive_solver. }
  split; [done|]. split; [|split; [|split]]; [| |exact Hoth|exact Hcomp].
  - intros v.
    pose proof (listing_after_store_loop max_retries fs u i data events v) as Hl.
    rewrite Hst in Hl. rewrite Hl, decide_False; [done|]. naive_solver.
  - intros v name Htemp.
    destruct (decide (name = chunk_name i)) as [->|Hchunk].
    + apply (Hsame v i).
    + by apply Hent.
Qed.

Lemma store_chunk_failure_invisible_witness :
  let events := [StoreMkdirFails; StoreWriteFails 1; StoreReplaceFails] in
  let fs := storage Examples.half_uploaded in
  list_chunks (store_chunk fs "id1" 0 Examples.chunk0 events).1 "id1"
  = list_chunks fs "id1".
Proof.
  intros events fs.
  destruct (store_chunk_failure_invisible fs "id1" 0 Examples.chunk0 events
              (store_chunk fs "id1" 0 Examples.chunk0 events).1)
    as (_ & Hlist & _); [vm_compute; reflexivity|].
  exact (Hlist "id1").
Defined.

Lemma store_outcome_spec n events :
  store_outcome n events = true ↔
  ∃ k, (k < n)%nat ∧ nth k events StoreOk = StoreOk ∧
       ∀ j, (j < k)%nat → retryable (nth j events StoreOk) = true.
Proof.
  revert events. induction n as [|n IH]; intros events.
  { cbn. split; [done|]. intros (k & ? & _). lia. }
  cbn [store_outcome].
  assert (∀ j, nth (S j) events StoreOk = nth j (tl events) StoreOk) as Htl.
  { intros j. destruct events; [by destruct j|done]. }
  assert (nth 0 events StoreOk = hd StoreOk events) as Hhd.
  { by destruct events. }
  destruct (hd StoreOk events) eqn:Hev.
  - split; [|done]. intros _. exists 0%nat. split; [lia|].
    split; [by rewrite Hhd|]. intros j ?. lia.
  - rewrite IH. split.
    + intros (k & Hk & Hok & Hre). exists (S k). split; [lia|].
      split; [by rewrite Htl|]. intros [|j] ?; [by rewrite Hhd|].
      rewrite Htl. apply Hre. lia.
    + intros ([|k] & Hk & Hok & Hre); [congruence|].
      exists k. split; [lia|]. split; [by rewrite <- Htl|].
      intros j ?. rewrite <- Htl. apply Hre. lia.
  - rewrite IH. split.
    + intros (k & Hk & Hok & Hre). exists (S k). split; [lia|].
      split; [by rewrite Htl|]. intros [|j] ?; [by rewrite Hhd|].
      rewrite Htl. apply Hre. lia.
    + intros ([|k] & Hk & Hok & Hre); [congruence|].
      exists k. split; [lia|]. split; [by rewrite <- Htl|].
      intros j ?. rewrite <- Htl. apply Hre. lia.
  - rewrite IH. split.
    + intros (k & Hk & Hok & Hre). exists (S k). split; [lia|].
      split; [by rewrite Htl|]. intros [|j] ?; [by rewrite Hhd|].
      rewrite Htl. apply Hre. lia.
    + intros ([|k] & Hk & Hok & Hre); [congruence|].
      exists k. split; [lia|]. split; [by rewrite <- Htl|].
      intros j ?. rewrite <- Htl. apply Hre. lia.
  - split; [done|]. intros ([|k] & Hk & Hok & Hre); [congruence|].
    specialize (Hre 0%nat ltac:(lia)). by rewrite Hhd in Hre.
  - rewrite IH. split.
    + intros (k & Hk & Hok & Hre). exists (S k). split; [lia|].
      split; [by rewrite Htl|]. intros [|j] ?; [by rewrite Hhd|].
      rewrite Htl. apply Hre. lia.
    + intros ([|k] & Hk & Hok & Hre); [congruence|].
      exists k. split; [lia|]. split; [by rewrite <- Htl|].
      intros j ?. rewrite <- Htl. apply Hre. lia.
Qed.

(** X3.  [store_chunk] makes at most three attempts and gives up at the
    first failure that is not an [OSError]: it succeeds exactly when one
    of the first three attempts succeeds and every attempt before it failed
    with an [OSError]. *)
Theorem store_chunk_retries fs u i data events :
  (store_chunk fs u i data events).2 = true ↔
  ∃ k, (k < 3)%nat ∧ nth k events StoreOk = StoreOk ∧
       ∀ j, (j < k)%nat → retryable (nth j events StoreOk) = true.
Proof.
  unfold store_chunk.
  pose proof (store_chunk_loop_spec max_retries fs u i data events) as Hspec.
  destruct (store_chunk_loop max_retries fs u i data events) as [fs' ok].
  destruct Hspec as (-> & _). cbn [snd]. apply store_outcome_spec.
Qed.

Lemma store_chunk_retries_witness :
  (store_chunk (Filesystem ∅ ∅) "u" 0 Examples.chunk0
     [StoreOpenFails; StoreReplaceFails; StoreOk]).2 = true.
Proof.
  apply (store_chunk_retries (Filesystem ∅ ∅) "u" 0 Examples.chunk0
           [StoreOpenFails; StoreReplaceFails; StoreOk]).
  exists 2%nat. split; [lia|]. split; [reflexivity|].
  intros [|[|j]] ?; [reflexivity|reflexivity|lia].
Defined.

(** X4.  The listing of an upload is in ascending order and holds exactly
    the integers read from the stems of the directory's [.chunk] files; in
    particular it holds the index of every committed chunk. *)
Theorem list_chunks_spec fs u :
  Sorted Z.le (list_chunks fs u) ∧
  (∀ i, i ∈ list_chunks fs u ↔
        ∃ name, is_Some (listdir fs u !! name) ∧
                Py.endswith name ".chunk" = true ∧
                Py.int (Py.stem name) = Some i) ∧
  (∀ i, is_Some (committed fs u i) → i ∈ list_chunks fs u).
Proof.
  assert (∀ i, i ∈ list_chunks fs u ↔
        ∃ name, is_Some (listdir fs u !! name) ∧
                Py.endswith name ".chunk" = true ∧
                Py.int (Py.stem name) = Some i) as Hmem.
  { intros i. rewrite list_chunks_alt, sorted_Permutation.
    rewrite list_elem_of_omap. unfold glob_chunk.
    split.
    - intros (name & Hin & Hint). exists name.
      apply list_elem_of_filter in Hin as [Hend Hin].
      apply list_elem_of_fmap in Hin as ([name' d] & -> & Hin).
      apply elem_of_map_to_list in Hin. cbn. rewrite Hin. eauto.
    - intros (name & [d Hd] & Hend & Hint). exists name. split; [|done].
      apply list_elem_of_filter. split; [done|].
      apply list_elem_of_fmap. exists (name, d). split; [done|].
      by apply elem_of_map_to_list. }
  split; [|split; [done|]].
  - rewrite list_chunks_alt. apply sorted_Sorted.
  - intros i Hi. apply Hmem. exists (chunk_name i).
    split; [done|]. split; [apply endswith_chunk_name|apply int_stem_chunk_name].
Qed.

Lemma list_chunks_spec_witness :
  1 ∈ list_chunks (storage Examples.half_uploaded) "id1".
Proof.
  destruct (list_chunks_spec (storage Examples.half_uploaded) "id1")
    as (_ & _ & Hlisted).
  apply Hlisted. vm_compute. eexists. reflexivity.
Defined.

(** X5.  After [store_chunk] the listing of the upload has gained the index
    exactly when the store succeeded and no chunk was committed for the index
    before; in every other case, and for every other upload, the listing is
    the same. *)
Theorem list_chunks_store_chunk fs u i data events v :
  let '(fs', ok) := store_chunk fs u i data events in
  list_chunks fs' v
  = if decide (ok = true ∧ u = v ∧ committed fs u i = None)
    then Py.sorted (i :: list_chunks fs v) else list_chunks fs v.
Proof. apply listing_after_store_loop. Qed.

Lemma list_chunks_nil_listdir fs u : listdir fs u = ∅ → list_chunks fs u = [].
Proof.
  intros He. rewrite list_chunks_alt, He. unfold glob_chunk.
  by rewrite map_to_list_empty.
Qed.

(** X6.  [cleanup_chunks] reports success exactly when the directory was
    missing or [rmtree] went through, and then the upload has no directory,
    no chunk and an empty listing.  In every case the other uploads and the
    completed files are untouched, and what is left of the directory was
    there before. *)
Theorem cleanup_chunks_spec fs u ev :
  let '(fs', ok) := cleanup_chunks fs u ev in
  (ok = true ↔ uploads fs !! u = None ∨ ev = CleanupOk) ∧
  (ok = true →
     uploads fs' !! u = None ∧ list_chunks fs' u = [] ∧
     (∀ i, committed fs' u i = None) ∧
     cleanup_chunks fs' u ev = (fs', true)) ∧
  (∀ v, v ≠ u → uploads fs' !! v = uploads fs !! v) ∧
  completed fs' = completed fs ∧
  (∀ name data,
     listdir fs' u !! name = Some data → listdir fs u !! name = Some data).
Proof.
  unfold cleanup_chunks.
  destruct (uploads fs !! u) as [dir|] eqn:Hdir.
  - destruct ev as [|left_behind].
    + split; [naive_solver|]. split; [|split; [|split]].
      * intros _. cbn. rewrite lookup_delete_eq.
        split; [done|]. split.
        { apply list_chunks_no_dir. cbn. by rewrite lookup_delete_eq. }
        split; [|done].
        intros i. unfold committed, listdir. cbn. by rewrite lookup_delete_eq.
      * intros v Hne. cbn. by rewrite lookup_delete_ne.
      * done.
      * intros name data. unfold listdir. cbn. by rewrite lookup_delete_eq.
    + split; [naive_solver|]. split; [done|]. split; [|split].
      * intros v Hne. cbn. by rewrite lookup_insert_ne.
      * done.
      * intros name data. unfold listdir. cbn. rewrite lookup_insert_eq, Hdir.
        cbn. intros Hf. by apply map_lookup_filter_Some in Hf as [? _].
  - split; [naive_solver|]. split; [|done].
    intros _. rewrite Hdir. split; [done|]. split; [by apply list_chunks_no_dir|].
    split; [|done]. intros i. unfold committed, listdir. by rewrite Hdir.
Qed.

Lemma cleanup_chunks_spec_witness :
  list_chunks (cleanup_chunks (storage Examples.uploaded) "id1" CleanupOk).1 "id1"
  = [].
Proof.
  pose proof (cleanup_chunks_spec (storage Examples.uploaded) "id1" CleanupOk)
    as Hspec.
  destruct (cleanup_chunks (storage Examples.uploaded) "id1" CleanupOk)
    as [fs' ok].
  destruct Hspec as (Hok & Hthen & _).
  destruct Hthen as (_ & Hlist & _); [|exact Hlist].
  apply Hok. right. reflexivity.
Defined.

Lemma completed_append_output_ne fs name data other :
  other ≠ name →
  completed (append_output fs name data) !! other = completed fs !! other.
Proof. intros Hne. cbn. by rewrite lookup_insert_ne. Qed.

Lemma reassemble_loop_frame u name ev other idxs fs :
  other ≠ name →
  completed (reassemble_loop fs u name idxs ev).1 !! other
  = completed fs !! other.
Proof.
  intros Hne. revert fs. induction idxs as [|i idxs IH]; intros fs; [done|].
  cbn [reassemble_loop].
  pose proof (get_chunk_fst fs u i (negb (read_fails ev i))) as Hfst.
  destruct (get_chunk fs u i (negb (read_fails ev i))) as [fs1 [data|]];
    cbn [fst] in Hfst; subst fs1.
  - destruct (write_fails ev i); cbn [fst].
    + by rewrite completed_append_output_ne, completed_mkdir.
    + by rewrite IH, completed_append_output_ne, completed_mkdir.
  - cbn [fst]. by rewrite completed_mkdir.
Qed.

Lemma reassemble_failed_frame fs name other :
  other ≠ name →
  completed (reassemble_failed fs name).1 !! other = completed fs !! other.
Proof.
  intros Hne. unfold reassemble_failed. cbn [fst].
  destruct (completed fs !! name); [|done]. cbn. by rewrite lookup_delete_ne.
Qed.

Lemma reassemble_failed_uploads fs name :
  uploads (reassemble_failed fs name).1 = uploads fs.
Proof. unfold reassemble_failed. cbn [fst]. by destruct (completed fs !! name). Qed.

Lemma reassemble_try_frame fs u total name expected ev other :
  other ≠ name →
  completed (reassemble_try fs u total name expected ev).1 !! other
  = completed fs !! other.
Proof.
  intros Hne. unfold reassemble_try.
  case_bool_decide; [by apply reassemble_failed_frame|].
  set (fs1 := Filesystem (uploads fs) (<[name:=[]]> (completed fs))).
  assert (completed fs1 !! other = completed fs !! other) as H1.
  { subst fs1. cbn. by rewrite lookup_insert_ne. }
  pose proof (reassemble_loop_frame u name ev other (seqZ 0 total) fs1 Hne) as Hl.
  destruct ev; try by apply reassemble_failed_frame.
  all: destruct (reassemble_loop fs1 u name (seqZ 0 total) _) as [fs2 fin];
    cbn [fst] in Hl;
    destruct fin;
      [ destruct expected as [size|];
          [ case_bool_decide;
              [ rewrite reassemble_failed_frame by done; cbn;
                rewrite lookup_delete_ne by done; congruence
              | cbn [fst]; congruence ]
          | cbn [fst]; congruence ]
      | rewrite reassemble_failed_frame by done; congruence ].
Qed.

Lemma reassemble_try_uploads fs u total name expected ev :
  uploads (reassemble_try fs u total name expected ev).1 = uploads fs.
Proof.
  destruct (reassemble_try fs u total name expected ev) as [fs' [path|]] eqn:Hr.
  - cbn [fst]. unfold reassemble_try in Hr.
    case_bool_decide as Hset; [by apply reassemble_failed_spec in Hr as [? _]|].
    assert (list_to_set (seqZ 0 total) =@{gset Z} list_to_set (list_chunks fs u))
      as Hpre by (by destruct (decide (list_to_set (seqZ 0 total)
                       =@{gset Z} list_to_set (list_chunks fs u)))).
    apply reassemble_precondition in Hpre.
    set (fs1 := Filesystem (uploads fs) (<[name:=[]]> (completed fs))) in *.
    pose proof (reassemble_loop_uploads u name ev (seqZ 0 total) fs1 Hpre) as Hl.
    destruct ev; try by apply reassemble_failed_spec in Hr as [? _].
    all: destruct (reassemble_loop fs1 u name (seqZ 0 total) _) as [fs2 fin];
      cbn [fst] in Hl;
      destruct fin; [|by apply reassemble_failed_spec in Hr as [? _]];
      destruct expected as [size|];
        [ case_bool_decide; [by apply reassemble_failed_spec in Hr as [? _]|]
        | ]; by simplify_eq.
  - cbn [fst]. by apply reassemble_try_None in Hr as [? _].
Qed.

Lemma pieces_no_slash cur s :
  forallb (λ c, negb (Ascii.eqb c "/") && negb (Ascii.eqb c zero))
    (list_ascii_of_string s) = true →
  Py.pieces cur s = [cur +:+ s].
Proof.
  revert cur. induction s as [|c s IH]; intros cur Hs; cbn in *.
  - by rewrite string_app_nil_r.
  - apply andb_true_iff in Hs as [Hc Hs]. apply andb_true_iff in Hc as [Hc _].
    apply negb_true_iff in Hc. rewrite Hc, IH by done. f_equal.
    clear. induction cur as [|d cur IH]; [done|].
    rewrite !string_app_cons. by rewrite IH.
Qed.

Lemma has_nul_false s :
  forallb (λ c, negb (Ascii.eqb c "/") && negb (Ascii.eqb c zero))
    (list_ascii_of_string s) = true →
  has_nul s = false.
Proof.
  unfold has_nul. induction (list_ascii_of_string s) as [|c l IH]; [done|].
  cbn [existsb forallb]. intros Hs. apply andb_true_iff in Hs as [Hc Hs].
  apply andb_true_iff in Hc as [_ Hc]. apply negb_true_iff in Hc.
  rewrite Ascii.eqb_sym, Hc. by apply IH.
Qed.

(** A plain name is its own single component: it names no directory, it
    can be reached, and it is the final component of its path. *)
Lemma plain_name_spec name :
  plain_name name = true →
  Py.parts name = [name] ∧
  names_directory name = false ∧
  unreachable name = false ∧
  Py.name name = name.
Proof.
  unfold plain_name. intros Hplain.
  apply andb_true_iff in Hplain as [Hplain _].
  apply andb_true_iff in Hplain as [Hname Hchars].
  apply negb_true_iff, bool_decide_eq_false in Hname.
  assert (Py.parts name = [name]) as Hparts.
  { unfold Py.parts. rewrite (pieces_no_slash _ _ Hchars).
    change (EmptyString +:+ name) with name.
    rewrite filter_cons_True; [done|]. split; intros ->; set_solver. }
  pose proof (has_nul_false name Hchars) as Hnul.
  unfold names_directory, unreachable, Py.name. rewrite Hparts, Hnul.
  split_and!; try done.
  - cbn [forallb negb].
    destruct (String.eqb_spec ".." name) as [<-|]; [|reflexivity].
    exfalso. apply Hname. set_solver.
  - by rewrite andb_false_r.
Qed.

(** X7.  For a plain output name, whatever happens during reassembly,
    [reassemble_file] leaves the staging area as it was, touches no other
    completed file with a plain name, and leaves no output when it returns
    [None]. *)
Theorem reassemble_file_frame fs u total name expected ev :
  plain_name name = true →
  let '(fs', outcome) := reassemble_file fs u total name expected ev in
  uploads fs' = uploads fs ∧
  (∀ other, plain_name other = true → other ≠ name →
            completed fs' !! other = completed fs !! other) ∧
  (outcome = Return None → completed fs' !! name = None).
Proof.
  intros Hplain.
  destruct (plain_name_spec name Hplain) as (_ & Hdir & Hopen & _).
  unfold reassemble_file. rewrite Hdir, Hopen.
  pose proof (reassemble_try_uploads fs u total name expected ev) as Hu.
  pose proof (reassemble_try_frame fs u total name expected ev) as Hf.
  destruct (reassemble_try fs u total name expected ev) as [fs' path] eqn:Hr.
  cbn [fst] in *. split; [done|]. split; [by auto|].
  intros [= ->]. by apply reassemble_try_None in Hr as [_ ?].
Qed.

Lemma reassemble_file_frame_witness :
  let out :=
    reassemble_file (storage Examples.uploaded) "id1" 2 "x.jsonl" (Some 7)
      (WriteFails 1 1) in
  out.2 = Return None ∧ completed out.1 !! "x.jsonl" = None.
Proof.
  intros out.
  pose proof (reassemble_file_frame (storage Examples.uploaded) "id1" 2
                "x.jsonl" (Some 7) (WriteFails 1 1) eq_refl) as Hframe.
  fold out in Hframe.
  assert (out.2 = Return None) as Hnone by (vm_compute; reflexivity).
  destruct out as [fs' outcome]. destruct Hframe as (_ & _ & Hgone).
  split; [exact Hnone|]. apply Hgone. exact Hnone.
Defined.

Lemma reassemble_loop_ok u name idxs chunks fs acc :
  is_Some (uploads fs !! u) ∨ idxs = [] →
  completed fs !! name = Some acc →
  Forall2 (λ i c, committed fs u i = Some c) idxs chunks →
  reassemble_loop fs u name idxs ReassembleOk
  = (Filesystem (uploads fs) (<[name := acc ++ concat chunks]> (completed fs)),
     true).
Proof.
  revert chunks fs acc.
  induction idxs as [|i idxs IH]; intros chunks fs acc Hex Hacc Hall.
  { apply Forall2_nil_inv_l in Hall as ->.
    cbn. rewrite app_nil_r, insert_id by done. by destruct fs. }
  apply Forall2_cons_inv_l in Hall as (c & chunks' & Hic & Hall & ->).
  assert (is_Some (uploads fs !! u)) as Hdir.
  { by eapply listdir_Some_exists. }
  cbn [reassemble_loop read_fails negb write_fails].
  unfold get_chunk, get_chunk_path. rewrite (mkdir_exists fs u Hdir).
  unfold committed in Hic. rewrite Hic.
  rewrite (IH chunks' _ (acc ++ c)).
  - cbn. rewrite Hacc. cbn. rewrite insert_insert_eq.
    by rewrite <- app_assoc.
  - by left.
  - cbn. rewrite Hacc. cbn. by rewrite lookup_insert_eq.
  - done.
Qed.

Lemma reassemble_try_ok fs u total name expected chunks :
  list_to_set (list_chunks fs u) =@{gset Z} list_to_set (seqZ 0 total) →
  Forall2 (λ i c, committed fs u i = Some c) (seqZ 0 total) chunks →
  (∀ size, expected = Some size → Py.len (concat chunks) = size) →
  reassemble_try fs u total name expected ReassembleOk
  = (Filesystem (uploads fs) (<[name := concat chunks]> (completed fs)),
     Some name).
Proof.
  intros Hset Hall Hsize. unfold reassemble_try.
  rewrite bool_decide_false by (intros Hne; by apply Hne).
  symmetry in Hset. pose proof (reassemble_precondition _ _ _ Hset) as Hpre.
  rewrite (reassemble_loop_ok u name (seqZ 0 total) chunks _ []); cbn; try done.
  - rewrite insert_insert_eq.
    destruct expected as [size|]; [|done].
    rewrite lookup_insert_eq. cbn.
    rewrite bool_decide_false; [done|].
    intros Hne. apply Hne. by apply Hsize.
  - by rewrite lookup_insert_eq.
Qed.

(** X8.  For a plain output name, reassembly without a fault succeeds
    whenever the listing of the upload is the set of expected indices, a
    chunk is committed under each index and the sizes add up to the
    expected size: the output then holds the chunks in index order. *)
Theorem reassemble_file_succeeds fs u total name expected chunks :
  plain_name name = true →
  list_to_set (list_chunks fs u) =@{gset Z} list_to_set (seqZ 0 total) →
  Forall2 (λ i c, committed fs u i = Some c) (seqZ 0 total) chunks →
  (∀ size, expected = Some size → Py.len (concat chunks) = size) →
  reassemble_file fs u total name expected ReassembleOk
  = (Filesystem (uploads fs) (<[name := concat chunks]> (completed fs)),
     Return (Some name)).
Proof.
  intros Hplain Hset Hall Hsize.
  destruct (plain_name_spec name Hplain) as (_ & Hdir & Hopen & _).
  unfold reassemble_file. rewrite Hdir, Hopen.
  by rewrite (reassemble_try_ok fs u total name expected chunks).
Qed.

Lemma reassemble_file_succeeds_witness :
  reassemble_file (storage Examples.uploaded) "id1" 2 "x.jsonl" (Some 7)
    ReassembleOk
  = (Filesystem (uploads (storage Examples.uploaded))
       (<["x.jsonl" := concat [Examples.chunk0; Examples.chunk1]]>
          (completed (storage Examples.uploaded))),
     Return (Some "x.jsonl")).
Proof.
  apply (reassemble_file_succeeds (storage Examples.uploaded) "id1" 2 "x.jsonl"
           (Some 7) [Examples.chunk0; Examples.chunk1]).
  - vm_compute. reflexivity.
  - vm_compute. reflexivity.
  - repeat constructor.
  - intros size [= <-]. vm_compute. reflexivity.
Defined.

(** ** The engine: sessions and the staging area *)

Lemma list_chunks_mkdir fs u v : list_chunks (mkdir fs u) v = list_chunks fs v.
Proof. apply list_chunks_perm. by rewrite listdir_mkdir. Qed.

Lemma committed_listed fs u i :
  is_Some (committed fs u i) → i ∈ list_chunks fs u.
Proof.
  intros [d Hd]. rewrite list_chunks_alt, sorted_Permutation.
  apply list_elem_of_omap. exists (chunk_name i).
  split; [|apply int_stem_chunk_name].
  unfold glob_chunk. apply list_elem_of_filter.
  split; [apply endswith_chunk_name|].
  apply list_elem_of_fmap. exists (chunk_name i, d). split; [done|].
  by apply elem_of_map_to_list.
Qed.

Lemma same_size_committed_Some fs u i data :
  same_size_committed fs u i data = true →
  ∃ c, committed fs u i = Some c ∧ Py.len c = Py.len data.
Proof.
  unfold same_size_committed. intros H. apply bool_decide_eq_true in H.
  destruct (committed fs u i) as [c|]; [|done]. exists c. split; [done|].
  by injection H.
Qed.

(** What one chunk request does, seen from outside. *)
Lemma upload_chunk_effect svc u i data total events :
  let out := upload_chunk svc u i data total events in
  let ok := out.2.1.1 in
  (ok = false → sessions out.1 = sessions svc) ∧
  (ok = true →
     ∃ session c,
       sessions svc !! u = Some session ∧
       0 ≤ i < total_chunks session ∧ total = total_chunks session ∧
       sessions out.1 = <[u := add_received session i]> (sessions svc) ∧
       out.2.1.2 = Z.of_nat (size ({[i]} ∪ received_chunks session)) ∧
       committed (storage out.1) u i = Some c ∧ Py.len c = Py.len data ∧
       (c = data ∨ committed (storage svc) u i = Some c)) ∧
  (∀ v, list_chunks (storage out.1) v
        = if decide (ok = true ∧ u = v ∧ committed (storage svc) u i = None)
          then Py.sorted (i :: list_chunks (storage svc) v)
          else list_chunks (storage svc) v) ∧
  (∀ v j, (v, j) ≠ (u, i) ∨ ok = false →
          committed (storage out.1) v j = committed (storage svc) v j) ∧
  (∀ v, v ≠ u → uploads (storage out.1) !! v = uploads (storage svc) !! v) ∧
  completed (storage out.1) = completed (storage svc) ∧
  service_chunk_size out.1 = service_chunk_size svc.
Proof.
  cbv zeta.
  upload_cases svc u i total session Hs; cbn [fst snd];
    try (split_and!; try done; intros v; by rewrite decide_False by naive_solver).
  rewrite (upload_chunk_valid svc u i data events session) by done.
  cbv zeta.
  destruct (same_size_committed (storage svc) u i data) eqn:Hsame.
  - apply same_size_committed_Some in Hsame as (c & Hc & Hlen).
    cbn [fst snd mark_received storage sessions service_chunk_size].
    split_and!; try done.
    + intros _. exists session, c. rewrite committed_mkdir. naive_solver.
    + intros v. rewrite list_chunks_mkdir, decide_False; [done|].
      rewrite Hc. naive_solver.
    + intros v j _. by rewrite committed_mkdir.
    + intros v Hne. by rewrite uploads_mkdir_ne.
    + by rewrite completed_mkdir.
  - unfold store_chunk.
    pose proof (store_chunk_loop_spec max_retries (mkdir (storage svc) u) u i
                  data events) as Hspec.
    pose proof (store_chunk_loop_other max_retries (mkdir (storage svc) u) u i
                  data events) as Hoth.
    pose proof (listing_after_store_loop max_retries
                  (mkdir (storage svc) u) u i data events) as Hlist.
    destruct (store_chunk_loop max_retries _ u i data events) as [fs3 ok].
    destruct Hspec as (_ & Hco & Hview). cbn [fst] in Hoth.
    rewrite completed_mkdir in Hco.
    destruct ok; cbn [fst snd mark_received with_storage storage sessions
                        service_chunk_size].
    + split_and!; try done.
      * intros _. exists session, data. rewrite Hview, decide_True by done.
        naive_solver.
      * intros v. rewrite Hlist, committed_mkdir, list_chunks_mkdir.
        repeat case_decide; naive_solver.
      * intros v j Hne. rewrite Hview, committed_mkdir, decide_False; [done|].
        naive_solver.
      * intros v Hne. rewrite Hoth, uploads_mkdir_ne; done.
    + split_and!; try done.
      * intros v. rewrite Hlist, list_chunks_mkdir.
        rewrite !decide_False; naive_solver.
      * intros v j Hne. rewrite Hview, committed_mkdir, decide_False; [done|].
        naive_solver.
      * intros v Hne. rewrite Hoth, uploads_mkdir_ne; done.
Qed.

Lemma Sorted_seqZ_le m n : Sorted Z.le (seqZ m n).
Proof.
  remember (Z.to_nat n) as k eqn:Hk. revert m n Hk.
  induction k as [|k IH]; intros m n Hk.
  - rewrite seqZ_nil by lia. constructor.
  - rewrite seqZ_cons by lia. constructor; [apply IH; lia|].
    destruct (decide (0 < Z.pred n)).
    + rewrite seqZ_cons by done. constructor. lia.
    + rewrite seqZ_nil by lia. constructor.
Qed.



Lemma consistent_upload_chunk svc u i data total events :
  consistent svc → consistent (upload_chunk svc u i data total events).1.
Proof.
  intros Hcons v s' Hs'.
  pose proof (upload_chunk_effect svc u i data total events) as Heff.
  cbv zeta in Heff.
  destruct (upload_chunk svc u i data total events) as [svc1 [[ok n] msg]].
  cbn [fst snd] in *.
  destruct Heff as (Hfail & Hack & Hlist & Hcm & _).
  destruct ok.
  - destruct (Hack eq_refl)
      as (session & c & Hs & Hi & _ & Hse & _ & Hc & _ & _).
    destruct (Hcons u session Hs) as (Hrange & Hlisted & Hcomm).
    rewrite Hse in Hs'. destruct (decide (v = u)) as [->|Hne].
    + rewrite lookup_insert_eq in Hs'. injection Hs' as <-.
      cbn [add_received received_chunks total_chunks]. split_and!.
      * intros j Hj. apply elem_of_union in Hj as [Hj|Hj]; [|by apply Hrange].
        apply elem_of_singleton in Hj. by subst.
      * intros j. rewrite Hlist.
        destruct (committed (storage svc) u i) as [d|] eqn:Hold.
        -- rewrite decide_False by naive_solver. rewrite Hlisted.
           assert (i ∈ received_chunks session).
           { apply Hlisted, committed_listed. by rewrite Hold. }
           set_solver.
        -- rewrite decide_True by done. rewrite sorted_Permutation.
           rewrite elem_of_cons, Hlisted. set_solver.
      * intros j Hj. destruct (decide (j = i)) as [->|Hji]; [by rewrite Hc|].
        rewrite Hcm by naive_solver. apply Hcomm. set_solver.
    + rewrite lookup_insert_ne in Hs' by done.
      destruct (Hcons v s' Hs') as (Hrange' & Hlisted' & Hcomm').
      split_and!; [done| |].
      * intros j. rewrite Hlist, decide_False by naive_solver. apply Hlisted'.
      * intros j Hj. rewrite Hcm by naive_solver. by apply Hcomm'.
  - rewrite (Hfail eq_refl) in Hs'.
    destruct (Hcons v s' Hs') as (Hrange' & Hlisted' & Hcomm').
    split_and!; [done| |].
    + intros j. rewrite Hlist, decide_False by naive_solver. apply Hlisted'.
    + intros j Hj. rewrite Hcm by naive_solver. by apply Hcomm'.
Qed.

Lemma consistent_init_upload svc request uuid4 now svc1 answer :
  consistent svc →
  list_chunks (storage svc) uuid4 = [] →
  init_upload svc request uuid4 now = Return (svc1, answer) →
  consistent svc1.
Proof.
  intros Hcons Hfresh Hinit v s' Hs'. unfold init_upload in Hinit.
  case_bool_decide; [done|]. injection Hinit as <- _.
  cbn [sessions storage] in *.
  destruct (decide (v = uuid4)) as [->|Hne].
  - rewrite lookup_insert_eq in Hs'. injection Hs' as <-.
    cbn [received_chunks total_chunks]. rewrite Hfresh. set_solver.
  - rewrite lookup_insert_ne in Hs' by done. by apply Hcons.
Qed.





(** X9.  [init_upload] cuts the file into the least number of chunks that
    hold it: for a positive size and a positive chunk size there is at least
    one chunk, all chunks but the last are full and the last is not empty.
    The new session has received nothing and is therefore not complete;
    the other sessions and the disk are untouched.  A chunk size of zero
    raises [ZeroDivisionError]. *)
Theorem init_upload_chunk_count svc request uuid4 now :
  (service_chunk_size svc = 0 →
   init_upload svc request uuid4 now = Raise ZeroDivisionError) ∧
  (service_chunk_size svc ≠ 0 →
   ∃ svc1 session,
     init_upload svc request uuid4 now
     = Return (svc1, (uuid4, service_chunk_size svc)) ∧
     sessions svc1 !! uuid4 = Some session ∧
     (∀ v, v ≠ uuid4 → sessions svc1 !! v = sessions svc !! v) ∧
     storage svc1 = storage svc ∧
     received_chunks session = ∅ ∧
     total_size session = Models.totalSize request ∧
     (0 < service_chunk_size svc → 0 < Models.totalSize request →
        1 ≤ total_chunks session ∧
        (total_chunks session - 1) * service_chunk_size svc
          < Models.totalSize request
          ≤ total_chunks session * service_chunk_size svc ∧
        is_complete session = false ∧
        get_missing_chunks session = seqZ 0 (total_chunks session))).
Proof.
  unfold init_upload. split; intros Hcs.
  { by rewrite bool_decide_true. }
  rewrite bool_decide_false by done.
  eexists _, _. split; [reflexivity|]. cbn [sessions storage].
  rewrite lookup_insert_eq. split; [reflexivity|].
  split; [intros v Hne; by rewrite lookup_insert_ne|].
  split; [done|]. cbn [received_chunks total_size total_chunks].
  split; [done|]. split; [done|].
  intros Hpos Hsize.
  set (cs := service_chunk_size svc) in *.
  set (size := Models.totalSize request) in *.
  pose proof (Z.div_mod (size + cs - 1) cs Hcs) as Hdm.
  pose proof (Z.mod_pos_bound (size + cs - 1) cs Hpos) as Hmod.
  assert (1 ≤ (size + cs - 1) `div` cs) as Hone.
  { apply Z.div_le_lower_bound; lia. }
  split; [done|]. split; [nia|]. split.
  - unfold is_complete, received_count. cbn [received_chunks total_chunks].
    apply bool_decide_eq_false. rewrite size_empty. lia.
  - unfold get_missing_chunks. cbn [received_chunks total_chunks].
    rewrite difference_empty_L.
    apply (Sorted_unique Z.le).
    + apply sorted_Sorted.
    + apply Sorted_seqZ_le.
    + rewrite sorted_Permutation. apply elements_list_to_set, NoDup_seqZ.
Qed.

Lemma init_upload_chunk_count_witness :
  ∃ svc1 session,
    init_upload Examples.empty_service Examples.request "id1" "t0"
    = Return (svc1, ("id1", 4)) ∧
    sessions svc1 !! "id1" = Some session ∧
    total_chunks session = 2.
Proof.
  destruct (init_upload_chunk_count Examples.empty_service Examples.request
              "id1" "t0") as [_ Hinit].
  destruct Hinit as (svc1 & session & Hrun & Hs & _); [vm_compute; discriminate|].
  exists svc1, session. split; [exact Hrun|]. split; [exact Hs|].
  vm_compute in Hrun. injection Hrun as <-.
  vm_compute in Hs. injection Hs as <-. reflexivity.
Defined.



Lemma received_all session :
  (∀ i, i ∈ received_chunks session → 0 ≤ i < total_chunks session) →
  is_complete session = true →
  received_chunks session = list_to_set (seqZ 0 (total_chunks session)).
Proof.
  intros Hrange Hdone. unfold is_complete, received_count in Hdone.
  apply bool_decide_eq_true in Hdone.
  apply leibniz_equiv, set_subseteq_size_equiv.
  - intros i Hi. apply elem_of_list_to_set, elem_of_seqZ.
    specialize (Hrange i Hi). lia.
  - rewrite size_list_to_set by apply NoDup_seqZ. rewrite length_seqZ. lia.
Qed.

(** X11.  When every received index is an index of the upload, a session
    is complete exactly when no chunk is missing, and exactly when the
    received indices are all the indices. *)
Theorem is_complete_iff_nothing_missing session :
  0 ≤ total_chunks session →
  (∀ i, i ∈ received_chunks session → 0 ≤ i < total_chunks session) →
  (is_complete session = true ↔ get_missing_chunks session = []) ∧
  (is_complete session = true ↔
   received_chunks session = list_to_set (seqZ 0 (total_chunks session))).
Proof.
  intros Htotal Hrange.
  assert (is_complete session = true ↔
          received_chunks session = list_to_set (seqZ 0 (total_chunks session)))
    as Hall.
  { split; [by apply received_all|].
    intros Heq. unfold is_complete, received_count.
    apply bool_decide_eq_true. rewrite Heq.
    rewrite size_list_to_set by apply NoDup_seqZ. rewrite length_seqZ. lia. }
  split; [|done]. rewrite Hall. unfold get_missing_chunks. split.
  - intros ->. rewrite difference_diag_L, elements_empty. done.
  - intros Hnil. apply sorted_nil_inv, elements_empty_inv, leibniz_equiv in Hnil.
    apply leibniz_equiv. apply set_equiv_subseteq. split.
    + intros i Hi. apply elem_of_list_to_set, elem_of_seqZ.
      specialize (Hrange i Hi). lia.
    + intros i Hi. destruct (decide (i ∈ received_chunks session)); [done|].
      assert (i ∈ (list_to_set (seqZ 0 (total_chunks session)) : gset Z)
                    ∖ received_chunks session) as Hin by set_solver.
      rewrite Hnil in Hin. set_solver.
Qed.

Lemma is_complete_iff_nothing_missing_witness :
  let session :=
    {| upload_id := "id1"; filename := "x.jsonl"; total_size := 7;
       total_chunks := 2; chunk_size := 4; checksum := None;
       created_at := "t0"; received_chunks := {[0; 1]} |} in
  is_complete session = true ↔ get_missing_chunks session = [].
Proof.
  intros session.
  refine (proj1 (is_complete_iff_nothing_missing session _ _)).
  - cbn. lia.
  - intros i Hi. cbn [session received_chunks total_chunks] in *.
    apply elem_of_union in Hi as [Hi|Hi]; apply elem_of_singleton in Hi; lia.
Defined.

(** X12.  An acknowledged chunk request means that a chunk of the size
    sent is committed under the index and the index is recorded: the chunk
    is the data sent, or the chunk that was there already.  Whatever the
    answer, the request touches no other session, no other upload
    directory, no other chunk and no completed file. *)
Theorem upload_chunk_acknowledged_committed svc u i data total events :
  let out := upload_chunk svc u i data total events in
  (out.2.1.1 = true →
     ∃ session c,
       sessions svc !! u = Some session ∧
       sessions out.1 !! u = Some (add_received session i) ∧
       committed (storage out.1) u i = Some c ∧
       Py.len c = Py.len data ∧
       (c = data ∨ committed (storage svc) u i = Some c)) ∧
  (∀ v, v ≠ u →
        sessions out.1 !! v = sessions svc !! v ∧
        uploads (storage out.1) !! v = uploads (storage svc) !! v) ∧
  (∀ v j, (v, j) ≠ (u, i) →
          committed (storage out.1) v j = committed (storage svc) v j) ∧
  completed (storage out.1) = completed (storage svc).
Proof.
  pose proof (upload_chunk_effect svc u i data total events) as Heff.
  cbv zeta in *.
  destruct Heff as (Hfail & Hack & _ & Hcm & Hup & Hco & _).
  split_and!; [| |by auto|done].
  - intros Hok. destruct (Hack Hok)
      as (session & c & Hs & _ & _ & Hse & _ & Hc & Hlen & Hor).
    exists session, c. rewrite Hse, lookup_insert_eq. done.
  - intros v Hne. split; [|by apply Hup].
    destruct (upload_chunk svc u i data total events).2.1.1 eqn:Hok.
    + destruct (Hack eq_refl) as (session & c & _ & _ & _ & Hse & _).
      by rewrite Hse, lookup_insert_ne.
    + by rewrite Hfail.
Qed.

Lemma upload_chunk_acknowledged_committed_witness :
  ∃ session c,
    sessions Examples.started !! "id1" = Some session ∧
    committed (storage Examples.half_uploaded) "id1" 1 = Some c ∧
    Py.len c = Py.len Examples.chunk1.
Proof.
  destruct (upload_chunk_acknowledged_committed Examples.started "id1" 1
              Examples.chunk1 2 []) as [Hack _].
  destruct Hack as (session & c & Hs & _ & Hc & Hlen & _);
    [vm_compute; reflexivity|].
  exists session, c. split; [exact Hs|]. split; [exact Hc|exact Hlen].
Defined.

Lemma consistent_empty svc : sessions svc = ∅ → consistent svc.
Proof. intros He u session Hs. by rewrite He in Hs. Qed.

Lemma consistent_chunks svc u session :
  consistent svc →
  sessions svc !! u = Some session →
  is_complete session = true →
  list_to_set (list_chunks (storage svc) u)
  =@{gset Z} list_to_set (seqZ 0 (total_chunks session)) ∧
  ∃ chunks,
    Forall2 (λ i c, committed (storage svc) u i = Some c)
      (seqZ 0 (total_chunks session)) chunks.
Proof.
  intros Hcons Hs Hdone. destruct (Hcons u session Hs) as (Hrange & Hlist & Hcm).
  pose proof (received_all session Hrange Hdone) as Hall. split.
  - rewrite <- Hall. apply leibniz_equiv. intros i.
    rewrite elem_of_list_to_set. apply Hlist.
  - exists ((λ i, default [] (committed (storage svc) u i))
              <$> seqZ 0 (total_chunks session)).
    apply Forall2_fmap_r, Forall_Forall2_diag, Forall_forall.
    intros i Hi.
    assert (is_Some (committed (storage svc) u i)) as Hsome.
    { apply Hcm. rewrite Hall. by apply elem_of_list_to_set. }
    unfold compose. destruct (committed (storage svc) u i); [reflexivity|].
    by destruct Hsome.
Qed.

Lemma reassemble_try_mismatch fs u total name size chunks :
  list_to_set (list_chunks fs u) =@{gset Z} list_to_set (seqZ 0 total) →
  Forall2 (λ i c, committed fs u i = Some c) (seqZ 0 total) chunks →
  Py.len (concat chunks) ≠ size →
  reassemble_try fs u total name (Some size) ReassembleOk
  = (Filesystem (uploads fs) (delete name (completed fs)), None).
Proof.
  intros Hset Hall Hsize. unfold reassemble_try.
  rewrite bool_decide_false by (intros Hne; by apply Hne).
  symmetry in Hset. pose proof (reassemble_precondition _ _ _ Hset) as Hpre.
  rewrite (reassemble_loop_ok u name (seqZ 0 total) chunks _ []); cbn; try done.
  - rewrite insert_insert_eq, lookup_insert_eq. cbn.
    rewrite bool_decide_true by done.
    unfold reassemble_failed, unlink. cbn.
    by rewrite lookup_delete_eq, delete_insert_eq.
  - by rewrite lookup_insert_eq.
Qed.

(** The two ways a completion without a reassembly fault ends. *)
Lemma complete_upload_chunks svc u session now cev chunks :
  sessions svc !! u = Some session →
  is_complete session = true →
  plain_name (filename session) = true →
  list_to_set (list_chunks (storage svc) u)
  =@{gset Z} list_to_set (seqZ 0 (total_chunks session)) →
  Forall2 (λ i c, committed (storage svc) u i = Some c)
    (seqZ 0 (total_chunks session)) chunks →
  let out := complete_upload svc u now ReassembleOk cev in
  if decide (Py.len (concat chunks) = total_size session)
  then (∃ md, out.2 = Return (Some (filename session, md))) ∧
       completed (storage out.1) !! filename session = Some (concat chunks) ∧
       sessions out.1 = delete u (sessions svc)
  else out.2 = Return None ∧
       completed (storage out.1) !! filename session = None ∧
       sessions out.1 = sessions svc ∧
       uploads (storage out.1) = uploads (storage svc).
Proof.
  intros Hs Hdone Hname Hset Hall. cbv zeta.
  unfold complete_upload, get_session. rewrite Hs, Hdone. cbn [negb].
  destruct (plain_name_spec _ Hname) as (_ & Hdir & Hopen & _).
  unfold reassemble_file. rewrite Hdir, Hopen.
  case_decide as Hsize.
  - rewrite (reassemble_try_ok _ u _ _ _ chunks) by naive_solver.
    rewrite (get_file_checksum_spec _ _ (concat chunks))
      by (cbn; by rewrite lookup_insert_eq).
    set (fs1 := Filesystem _ _).
    pose proof (completed_cleanup_chunks fs1 u cev) as Hco.
    destruct (truthy (checksum session)); cbn [fmap option_fmap option_map];
      destruct (cleanup_chunks fs1 u cev) as [fs2 b];
      cbn [fst snd storage sessions] in *;
      (split; [eauto|]); (split; [|done]);
      rewrite Hco; subst fs1; cbn; by rewrite lookup_insert_eq.
  - rewrite (reassemble_try_mismatch _ u _ _ _ chunks) by done.
    cbn. by rewrite lookup_delete_eq.
Qed.

(** X13.  In a state where the sessions agree with the staging area, a
    completion request for a complete session whose file name is a plain
    name, met by no fault during reassembly, ends in one of two ways: if
    the committed chunks add up to the announced size the file is written
    with the chunks in index order and the session is removed; otherwise
    the answer is the failure [None], no file is left and the session and
    its chunks stay. *)
Theorem complete_upload_consistent svc u session now cev :
  consistent svc →
  sessions svc !! u = Some session →
  is_complete session = true →
  plain_name (filename session) = true →
  ∃ chunks,
    Forall2 (λ i c, committed (storage svc) u i = Some c)
      (seqZ 0 (total_chunks session)) chunks ∧
    let out := complete_upload svc u now ReassembleOk cev in
    if decide (Py.len (concat chunks) = total_size session)
    then (∃ md, out.2 = Return (Some (filename session, md))) ∧
         completed (storage out.1) !! filename session = Some (concat chunks) ∧
         sessions out.1 = delete u (sessions svc)
    else out.2 = Return None ∧
         completed (storage out.1) !! filename session = None ∧
         sessions out.1 = sessions svc ∧
         uploads (storage out.1) = uploads (storage svc).
Proof.
  intros Hcons Hs Hdone Hname.
  destruct (consistent_chunks svc u session Hcons Hs Hdone)
    as (Hset & chunks & Hall).
  exists chunks. split; [done|]. by apply complete_upload_chunks.
Qed.

Lemma complete_upload_consistent_witness :
  ∃ session chunks,
    sessions Examples.uploaded !! "id1" = Some session ∧
    Forall2 (λ i c, committed (storage Examples.uploaded) "id1" i = Some c)
      (seqZ 0 (total_chunks session)) chunks.
Proof.
  destruct (sessions Examples.uploaded !! "id1") as [session|] eqn:Hs;
    [|vm_compute in Hs; discriminate].
  destruct (complete_upload_consistent Examples.uploaded "id1" session "t1"
              CleanupOk) as (chunks & Hall & _).
  - unfold Examples.uploaded, Examples.half_uploaded.
    do 2 apply consistent_upload_chunk.
    apply (consistent_init_upload Examples.empty_service Examples.request
             "id1" "t0" Examples.started ("id1", 4)).
    + by apply consistent_empty.
    + reflexivity.
    + vm_compute. reflexivity.
  - exact Hs.
  - vm_compute in Hs. injection Hs as <-. vm_compute. reflexivity.
  - vm_compute in Hs. injection Hs as <-. vm_compute. reflexivity.
  - exists session, chunks. split; [reflexivity|exact Hall].
Defined.

Lemma upload_all_consistent u chunks order :
  ∀ svc events,
    consistent svc → consistent (upload_all svc u chunks order events).1.
Proof.
  induction order as [|i order IH]; intros svc events Hcons; [done|].
  cbn [upload_all].
  pose proof (consistent_upload_chunk svc u i (default [] (chunks !! Z.to_nat i))
                (Py.len chunks) (hd [] events) Hcons) as Hstep.
  destruct (upload_chunk svc u i _ (Py.len chunks) (hd [] events))
    as [svc1 [[ok n] msg]]. cbn [fst] in Hstep.
  specialize (IH svc1 (tl events) Hstep).
  by destruct (upload_all svc1 u chunks order (tl events)).
Qed.

Lemma upload_all_received u chunks order :
  ∀ svc events svc1 session,
    sessions svc !! u = Some session →
    upload_all svc u chunks order events = (svc1, true) →
    ∃ session1,
      sessions svc1 !! u = Some session1 ∧
      received_chunks session1 = list_to_set order ∪ received_chunks session ∧
      total_chunks session1 = total_chunks session ∧
      total_size session1 = total_size session ∧
      filename session1 = filename session.
Proof.
  induction order as [|i order IH]; intros svc events svc1 session Hs Hrun.
  { cbn in Hrun. injection Hrun as <-. exists session.
    split_and!; try done. set_solver. }
  cbn [upload_all] in Hrun.
  pose proof (upload_chunk_effect svc u i (default [] (chunks !! Z.to_nat i))
                (Py.len chunks) (hd [] events)) as Heff.
  cbv zeta in Heff.
  destruct (upload_chunk svc u i _ (Py.len chunks) (hd [] events))
    as [svc2 [[ok n] msg]]. cbn [fst snd] in Heff.
  destruct (upload_all svc2 u chunks order (tl events)) as [svc3 oks] eqn:Hrest.
  injection Hrun as -> Hand. apply andb_true_iff in Hand as [-> ->].
  destruct Heff as (_ & Hack & _).
  destruct (Hack eq_refl) as (session' & c & Hs' & _ & _ & Hse & _).
  rewrite Hs in Hs'. injection Hs' as <-.
  destruct (IH svc2 (tl events) svc1 (add_received session i))
    as (session1 & Hs1 & Hrec & Htc & Hts & Hfn); [|done|].
  { by rewrite Hse, lookup_insert_eq. }
  exists session1. split_and!; try done.
  rewrite Hrec. cbn. set_solver.
Qed.

(** X14.  An upload that goes through always completes: starting from a
    session that has received nothing, in a state where the sessions agree
    with the staging area, once every chunk of a file of the announced size
    has been acknowledged, in any order and whatever failed on the way, a
    completion request met by no fault during reassembly writes the file
    and removes the session. *)
Theorem upload_then_complete svc u session (chunks : list bytes) order events
    svc1 now cev :
  consistent svc →
  sessions svc !! u = Some session →
  received_chunks session = ∅ →
  total_chunks session = Py.len chunks →
  total_size session = Py.len (concat chunks) →
  plain_name (filename session) = true →
  order ≡ₚ seqZ 0 (Py.len chunks) →
  upload_all svc u chunks order events = (svc1, true) →
  let out := complete_upload svc1 u now ReassembleOk cev in
  (∃ md, out.2 = Return (Some (filename session, md))) ∧
  completed (storage out.1) !! filename session = Some (concat chunks) ∧
  sessions out.1 !! u = None.
Proof.
  intros Hcons Hs Hempty Htotal Hsize Hname Hperm Hrun.
  pose proof (upload_all_consistent u chunks order svc events Hcons) as Hcons1.
  rewrite Hrun in Hcons1. cbn [fst] in Hcons1.
  destruct (upload_all_received u chunks order svc events svc1 session Hs Hrun)
    as (session1 & Hs1 & Hrec & Htc & Hts & Hfn).
  assert (∀ j, committed (storage svc) u j = None) as Hfresh.
  { intros j. destruct (committed (storage svc) u j) as [d|] eqn:Hd; [|done].
    destruct (Hcons u session Hs) as (_ & Hlist & _).
    assert (j ∈ received_chunks session) as Hj.
    { apply Hlist, committed_listed. by rewrite Hd. }
    rewrite Hempty in Hj. set_solver. }
  destruct (upload_all_committed u chunks order svc events svc1 session []
              Hs Htotal) as [_ Hc1].
  { rewrite Hperm. apply NoDup_seqZ. }
  { intros i Hi. rewrite Hperm, elem_of_seqZ in Hi. split; [lia|set_solver]. }
  { intros j. by rewrite Hfresh. }
  { done. }
  assert (is_complete session1 = true) as Hdone.
  { unfold is_complete, received_count. apply bool_decide_eq_true.
    rewrite Hrec, Hempty, Htc, Htotal, (right_id_L ∅ (∪)).
    assert (list_to_set order =@{gset Z} list_to_set (seqZ 0 (Py.len chunks)))
      as -> by (apply leibniz_equiv; intros j;
                by rewrite !elem_of_list_to_set, Hperm).
    rewrite size_list_to_set by apply NoDup_seqZ. rewrite length_seqZ.
    unfold Py.len. lia. }
  destruct (consistent_chunks svc1 u session1 Hcons1 Hs1 Hdone)
    as (Hset & cs & Hall).
  assert (cs = chunks) as ->.
  { rewrite <- (chunks_by_index chunks).
    eapply Forall2_committed_fmap; [|rewrite Htc, Htotal in Hall; exact Hall].
    intros i Hi. rewrite Hc1. cbn. rewrite decide_True; [done|].
    by rewrite Hperm. }
  rewrite <- Hfn in Hname |- *.
  pose proof (complete_upload_chunks svc1 u session1 now cev chunks Hs1 Hdone
                Hname Hset Hall) as Hout.
  cbv zeta in *. rewrite decide_True in Hout by congruence.
  destruct Hout as (Hmd & Hfile & Hse). split_and!; try done.
  by rewrite Hse, lookup_delete_eq.
Qed.

Lemma upload_then_complete_witness :
  let out :=
    complete_upload
      (upload_all Examples.started "id1" [Examples.chunk0; Examples.chunk1]
         [1; 0] [[StoreOpenFails; StoreOk]]).1
      "id1" "t1" ReassembleOk CleanupOk in
  completed (storage out.1) !! "x.jsonl"
  = Some (Examples.chunk0 ++ Examples.chunk1).
Proof.
  intros out.
  destruct (sessions Examples.started !! "id1") as [session|] eqn:Hs;
    [|vm_compute in Hs; discriminate].
  assert (filename session = "x.jsonl") as Hname.
  { vm_compute in Hs. by injection Hs as <-. }
  destruct (upload_then_complete Examples.started "id1" session
              [Examples.chunk0; Examples.chunk1] [1; 0]
              [[StoreOpenFails; StoreOk]]
              (upload_all Examples.started "id1"
                 [Examples.chunk0; Examples.chunk1] [1; 0]
                 [[StoreOpenFails; StoreOk]]).1
              "t1" CleanupOk) as (_ & Hfile & _).
  - apply (consistent_init_upload Examples.empty_service Examples.request
             "id1" "t0" Examples.started ("id1", 4)).
    + by apply consistent_empty.
    + reflexivity.
    + vm_compute. reflexivity.
  - exact Hs.
  - vm_compute in Hs. by injection Hs as <-.
  - vm_compute in Hs. by injection Hs as <-.
  - vm_compute in Hs. by injection Hs as <-.
  - rewrite Hname. vm_compute. reflexivity.
  - apply perm_swap.
  - vm_compute. reflexivity.
  - rewrite Hname in Hfile. cbn [concat] in Hfile. rewrite app_nil_r in Hfile.
    exact Hfile.
Defined.

(** X15.  A completed upload is consumed: once [complete_upload] has
    succeeded, a second completion request is answered with the failure
    [None] (status 400 at the handler), a chunk request with "not found",
    and, when the staging directory was removed, a status request with
    404. *)
Theorem completed_upload_consumed svc u now rev cev svc' path md :
  complete_upload svc u now rev cev = (svc', Return (Some (path, md))) →
  (∀ now' rev' cev',
     complete_upload svc' u now' rev' cev' = (svc', Return None) ∧
     Main.complete_upload svc' u now' rev' cev'
     = (svc', Main.HTTPException 400 (Main.Detail "Failed to complete upload"))) ∧
  (∀ i data total events,
     upload_chunk svc' u i data total events
     = (svc', (false, 0, "Upload session " +:+ u +:+ " not found"))) ∧
  (cev = CleanupOk →
   Main.get_upload_status svc' u
   = Main.HTTPException 404
       (Main.Detail ("Upload session " +:+ u +:+ " not found"))).
Proof.
  intros Hrun.
  apply complete_upload_success in Hrun
    as (session & chunks & _ & _ & _ & _ & _ & Hse & Hst & _).
  assert (sessions svc' !! u = None) as Hnone.
  { by rewrite Hse, lookup_delete_eq. }
  split_and!.
  - intros now' rev' cev'.
    assert (complete_upload svc' u now' rev' cev' = (svc', Return None)) as Hc.
    { unfold complete_upload, get_session. by rewrite Hnone. }
    split; [done|]. unfold Main.complete_upload. by rewrite Hc.
  - intros. by apply upload_chunk_not_found.
  - intros ->.
    unfold Main.get_upload_status, get_upload_status, get_session.
    rewrite Hnone, list_chunks_no_dir; [done|].
    rewrite Hst. apply cleanup_chunks_ok.
Qed.

Lemma completed_upload_consumed_witness :
  let svc' :=
    (complete_upload Examples.uploaded_bin "id2" "t1" ReassembleOk CleanupOk).1 in
  upload_chunk svc' "id2" 0 Examples.chunk0 2 []
  = (svc', (false, 0, "Upload session id2 not found")).
Proof.
  intros svc'.
  destruct (complete_upload Examples.uploaded_bin "id2" "t1" ReassembleOk
              CleanupOk) as [svc1 [[[path md]|]|e]] eqn:Hrun;
    try (vm_compute in Hrun; discriminate).
  destruct (completed_upload_consumed Examples.uploaded_bin "id2" "t1"
              ReassembleOk CleanupOk svc1 path md Hrun) as (_ & Hchunk & _).
  exact (Hchunk 0 Examples.chunk0 2 []).
Defined.

(** ** File names, file types and validation *)

Lemma substring_zero n s : String.substring n 0 s = EmptyString.
Proof. revert n. induction s as [|c s IH]; intros [|n]; cbn; auto. Qed.

Lemma rfind_dot_Some s i :
  Py.rfind_dot s = Some i →
  (i < String.length s)%nat ∧
  String.substring i (String.length s - i) s
  = String "." (String.substring (S i) (String.length s - S i) s).
Proof.
  revert i. induction s as [|c s IH]; intros i; [done|].
  cbn [Py.rfind_dot]. destruct (Py.rfind_dot s) as [j|].
  - intros [= <-]. destruct (IH j eq_refl) as [Hlt Heq].
    split; [cbn; lia|]. cbn [String.length].
    replace (S (String.length s) - S j)%nat with (String.length s - j)%nat by lia.
    replace (S (String.length s) - S (S j))%nat
      with (String.length s - S j)%nat by lia.
    cbn [String.substring]. exact Heq.
  - destruct (Ascii.eqb_spec c "."); [|done]. intros [= <-]. subst c.
    split; [cbn; lia|]. cbn [String.length].
    replace (S (String.length s) - 0)%nat with (S (String.length s)) by lia.
    replace (S (String.length s) - 1)%nat with (String.length s) by lia.
    cbn [String.substring]. do 2 f_equal.
Qed.

Lemma lower_suffix_extension name i :
  Py.name name = name →
  Py.rfind_dot name = Some i →
  (0 < i)%nat →
  extension name ≠ "" →
  Py.lower (Py.suffix name) = "." +:+ extension name.
Proof.
  intros Hname Hdot Hi Hext. unfold Py.suffix, Py.suffix_of, extension in *.
  rewrite Hname, Hdot in *.
  destruct (rfind_dot_Some name i Hdot) as [Hlt Heq].
  assert (i < String.length name - 1)%nat as Hlast.
  { destruct (decide (i < String.length name - 1)%nat); [done|].
    replace (String.length name - S i)%nat with 0%nat in Hext by lia.
    by rewrite substring_zero in Hext. }
  apply Nat.ltb_lt in Hi as ->. apply Nat.ltb_lt in Hlast as ->.
  cbn [andb]. rewrite Heq. reflexivity.
Qed.

Lemma suffix_hidden name :
  Py.name name = name →
  Py.rfind_dot name = Some 0%nat → Py.suffix name = "".
Proof. intros Hname H. unfold Py.suffix, Py.suffix_of. by rewrite Hname, H. Qed.

Lemma detect_dataset name :
  _detect_file_type name = "dataset" ↔ extension name ∈ dataset_extensions.
Proof.
  unfold _detect_file_type. repeat case_bool_decide; naive_solver.
Qed.

(** A closed decidable proposition that evaluates to false. *)
Ltac refute_closed H :=
  revert H;
  match goal with
  | |- ?P → _ =>
      let Hf := fresh in
      intros Hf; exfalso; revert Hf;
      apply (bool_decide_eq_false_1 P); vm_compute; reflexivity
  end.

Lemma detect_model name :
  _detect_file_type name = "model_artifact" ↔ extension name ∈ model_extensions.
Proof.
  unfold _detect_file_type.
  case_bool_decide as Hd; [|repeat case_bool_decide; naive_solver].
  split; [done|]. intros Hm. exfalso.
  unfold dataset_extensions in Hd.
  repeat (apply elem_of_cons in Hd as [Hd|Hd];
          [rewrite Hd in Hm; refute_closed Hm|]).
  by apply elem_of_nil in Hd.
Qed.

Lemma extension_Some name :
  extension name ≠ "" → ∃ i, Py.rfind_dot name = Some i.
Proof. unfold extension. destruct (Py.rfind_dot name); eauto. done. Qed.

(** X16.  For a plain file name, the type detection and the dataset
    validation read the extension in two ways, which agree except on names
    whose only dot is the first character: a name detected as a dataset
    passes the format check with the extension the detection saw, and
    passes validation altogether unless it is JSONL; but a name such as
    [.csv] is detected as a dataset and then rejected for its format,
    whatever the file holds. *)
Theorem dataset_type_and_format fs name :
  plain_name name = true →
  _detect_file_type name = "dataset" →
  if decide (Py.rfind_dot name = Some 0%nat)
  then validate_dataset fs name "dataset"
       = (false, Some (InvalidDatasetFormat ""))
  else Py.lower (Py.suffix name) = "." +:+ extension name ∧
       Py.lower (Py.suffix name) ∈ valid_extensions ∧
       (extension name ≠ "jsonl" →
        validate_dataset fs name "dataset" = (true, None)).
Proof.
  intros Hplain Hty. apply detect_dataset in Hty.
  destruct (plain_name_spec name Hplain) as (_ & _ & _ & Hname).
  assert (extension name ≠ "") as Hne.
  { intros He. rewrite He in Hty. unfold dataset_extensions in Hty. set_solver. }
  case_decide as Hdot.
  - unfold validate_dataset. rewrite bool_decide_false by naive_solver.
    rewrite (suffix_hidden name Hname Hdot). cbn [Py.lower].
    rewrite bool_decide_true; [done|]. unfold valid_extensions. set_solver.
  - destruct (extension_Some name Hne) as [i Hi].
    assert (0 < i)%nat as Hpos by (destruct i; [done|lia]).
    pose proof (lower_suffix_extension name i Hname Hi Hpos Hne) as Hsfx.
    assert (Py.lower (Py.suffix name) ∈ valid_extensions) as Hvalid.
    { rewrite Hsfx. unfold dataset_extensions, valid_extensions in *.
      repeat (apply elem_of_cons in Hty as [->|Hty]; [set_solver|]).
      set_solver. }
    split_and!; [done|done|].
    intros Hjsonl. unfold validate_dataset.
    rewrite bool_decide_false by naive_solver.
    rewrite bool_decide_false by naive_solver.
    rewrite Hsfx.
    destruct (String.eqb_spec ("." +:+ extension name) ".jsonl") as [He|]; [|done].
    by injection He.
Qed.

Lemma dataset_type_and_format_witness :
  validate_dataset (Filesystem ∅ ∅) ".csv" "dataset"
  = (false, Some (InvalidDatasetFormat "")).
Proof.
  apply (dataset_type_and_format (Filesystem ∅ ∅) ".csv"); reflexivity.
Defined.

(** X17.  Every plain file name detected as a model artifact gets a
    framework from the table, never ["unknown"], unless its only dot is the
    first character, in which case the framework is ["unknown"]. *)
Theorem model_type_and_framework name :
  plain_name name = true →
  _detect_file_type name = "model_artifact" →
  if decide (Py.rfind_dot name = Some 0%nat)
  then Catalog._detect_model_framework name = "unknown"
  else Catalog.lookup_str ("." +:+ extension name) Catalog.framework_map
       = Some (Catalog._detect_model_framework name) ∧
       Catalog._detect_model_framework name ≠ "unknown".
Proof.
  intros Hplain Hty. apply detect_model in Hty.
  destruct (plain_name_spec name Hplain) as (_ & _ & _ & Hname).
  assert (extension name ≠ "") as Hne.
  { intros He. rewrite He in Hty. unfold model_extensions in Hty. set_solver. }
  unfold Catalog._detect_model_framework.
  case_decide as Hdot.
  - by rewrite (suffix_hidden name Hname Hdot).
  - destruct (extension_Some name Hne) as [i Hi].
    assert (0 < i)%nat as Hpos by (destruct i; [done|lia]).
    rewrite (lower_suffix_extension name i Hname Hi Hpos Hne).
    unfold model_extensions in Hty.
    repeat (apply elem_of_cons in Hty as [->|Hty]; [by split|]).
    set_solver.
Qed.

Lemma model_type_and_framework_witness :
  Catalog._detect_model_framework "net.Final.PT" ≠ "unknown".
Proof.
  apply (model_type_and_framework "net.Final.PT"); reflexivity.
Defined.

(** ** The catalogue *)

Lemma dict_get_set k k' v d :
  Catalog.dict_get k (Catalog.dict_set k' v d)
  = if String.eqb k' k then Some v else Catalog.dict_get k d.
Proof.
  induction d as [|[k1 v1] d IH]; cbn [Catalog.dict_set Catalog.dict_get].
  - by destruct (String.eqb k' k).
  - destruct (String.eqb_spec k1 k') as [->|Hne]; cbn [Catalog.dict_get].
    + by destruct (String.eqb k' k).
    + rewrite IH. destruct (String.eqb_spec k1 k) as [->|]; [|done].
      destruct (String.eqb_spec k' k); [congruence|done].
Qed.

Lemma dict_get_None k (d : list (string * Catalog.json)) :
  k ∉ d.*1 → Catalog.dict_get k d = None.
Proof.
  induction d as [|[k1 v1] d IH]; [done|]. cbn. intros Hk.
  destruct (String.eqb_spec k1 k) as [->|]; [set_solver|]. apply IH. set_solver.
Qed.

Lemma dict_get_update k d more :
  NoDup more.*1 →
  Catalog.dict_get k (Catalog.dict_update d more)
  = match Catalog.dict_get k more with
    | Some v => Some v
    | None => Catalog.dict_get k d
    end.
Proof.
  unfold Catalog.dict_update. revert d.
  induction more as [|[k1 v1] more IH]; intros d Hnd; [done|].
  cbn in Hnd. apply NoDup_cons in Hnd as [Hk1 Hnd].
  cbn [fold_left fst snd Catalog.dict_get]. rewrite (IH _ Hnd), dict_get_set.
  destruct (String.eqb_spec k1 k) as [->|]; [|done].
  by rewrite (dict_get_None k more Hk1).
Qed.

Lemma find_lineage_app u entries entry :
  Catalog.find_lineage u (Catalog.JDict <$> (entries ++ [entry]))
  = match Catalog.find_lineage u (Catalog.JDict <$> entries) with
    | Catalog.Done None =>
        if Catalog.has_id u entry
        then Catalog.Done
               (Some (default (Catalog.JDict [])
                        (Catalog.dict_get "lineage" entry)))
        else Catalog.Done None
    | other => other
    end.
Proof.
  induction entries as [|e entries IH]; cbn.
  - by destruct (Catalog.has_id u entry).
  - destruct (Catalog.has_id u e); [done|]. apply IH.
Qed.

Lemma get_lineage_well_formed store entries u :
  well_formed_store store entries →
  Catalog.get_lineage store u
  = Catalog.find_lineage u (Catalog.JDict <$> entries).
Proof.
  intros (items & -> & Hup). unfold Catalog.get_lineage, Catalog.uploads_of.
  by rewrite Hup.
Qed.

Lemma register_dataset_well_formed store entries u metadata now :
  well_formed_store store entries →
  ∃ store1,
    Catalog.register_dataset store u metadata now = Catalog.Done (store1, u) ∧
    well_formed_store store1
      (entries ++
       [Catalog.dict_update
          [("id", Catalog.JStr u); ("registered_at", Catalog.JStr now)]
          metadata]).
Proof.
  intros (items & -> & Hup).
  unfold Catalog.register_dataset, Catalog.uploads_of. rewrite Hup.
  eexists. split; [reflexivity|]. eexists. split; [reflexivity|].
  rewrite dict_get_set. cbn. by rewrite fmap_app.
Qed.

(** X18.  Registering appends one entry to a catalogue of the form the
    class writes, and the entry carries the metadata under their own keys.
    Lineage lookup returns the first entry with the identifier: after a
    registration it still answers from an older entry with the same
    identifier, and the new entry is found under the upload identifier only
    when the metadata do not set ["id"] themselves. *)
Theorem register_then_lineage store entries u metadata now :
  well_formed_store store entries →
  NoDup metadata.*1 →
  let entry :=
    Catalog.dict_update
      [("id", Catalog.JStr u); ("registered_at", Catalog.JStr now)] metadata in
  ∃ store1,
    Catalog.register_dataset store u metadata now = Catalog.Done (store1, u) ∧
    well_formed_store store1 (entries ++ [entry]) ∧
    (∀ k v, Catalog.dict_get k metadata = Some v →
            Catalog.dict_get k entry = Some v) ∧
    (Catalog.dict_get "id" metadata = None →
     ∀ u', Catalog.has_id u' entry = bool_decide (u' = u)) ∧
    (∀ u', Catalog.get_lineage store1 u'
           = match Catalog.get_lineage store u' with
             | Catalog.Done None =>
                 if Catalog.has_id u' entry
                 then Catalog.Done
                        (Some (default (Catalog.JDict [])
                                 (Catalog.dict_get "lineage" metadata)))
                 else Catalog.Done None
             | other => other
             end).
Proof.
  intros Hwf Hnd entry.
  destruct (register_dataset_well_formed store entries u metadata now Hwf)
    as (store1 & Hreg & Hwf1).
  exists store1. split; [done|]. split; [done|].
  assert (∀ k, Catalog.dict_get k entry
               = match Catalog.dict_get k metadata with
                 | Some v => Some v
                 | None =>
                     Catalog.dict_get k
                       [("id", Catalog.JStr u);
                        ("registered_at", Catalog.JStr now)]
                 end) as Hget.
  { intros k. subst entry. by rewrite dict_get_update. }
  split_and!.
  - intros k v Hk. by rewrite Hget, Hk.
  - intros Hid u'. unfold Catalog.has_id. rewrite Hget, Hid. cbn.
    destruct (String.eqb_spec u u') as [->|Hne].
    + by rewrite bool_decide_true.
    + by rewrite bool_decide_false.
  - intros u'. subst entry.
    rewrite (get_lineage_well_formed store1 _ u' Hwf1).
    rewrite (get_lineage_well_formed store _ u' Hwf).
    rewrite find_lineage_app.
    destruct (Catalog.find_lineage u' (Catalog.JDict <$> entries))
      as [[l|]|e]; try done.
    destruct (Catalog.has_id u' _); [|done].
    rewrite Hget. cbn. by destruct (Catalog.dict_get "lineage" metadata).
Qed.

Lemma register_then_lineage_witness :
  ∃ store1,
    Catalog.register_dataset (Catalog._ensure_metadata_store None) "id1"
      [("lineage", Catalog.JStr "here")] "t2"
    = Catalog.Done (store1, "id1") ∧
    Catalog.get_lineage store1 "id1"
    = Catalog.Done (Some (Catalog.JStr "here")).
Proof.
  destruct (register_then_lineage (Catalog._ensure_metadata_store None) []
              "id1" [("lineage", Catalog.JStr "here")] "t2")
    as (store1 & Hreg & _ & _ & _ & Hlin).
  - eexists. split; reflexivity.
  - repeat constructor. set_solver.
  - exists store1. split; [exact Hreg|]. exact (Hlin "id1").
Defined.

Lemma length_binary_lines_from cur rest :
  length (Catalog.binary_lines_from cur rest)
  = (count_occ byte_eq_dec rest Catalog.line_feed
     + match last rest with
       | Some b => if Byte.eqb b Catalog.line_feed then 0 else 1
       | None => match cur with [] => 0 | _ => 1 end
       end)%nat.
Proof.
  revert cur. induction rest as [|b rest IH]; intros cur.
  { cbn. by destruct cur. }
  cbn [Catalog.binary_lines_from count_occ]. rewrite last_cons.
  destruct (Byte.eqb b Catalog.line_feed) eqn:Hb.
  - apply byte_dec_bl in Hb. subst b.
    destruct (byte_eq_dec Catalog.line_feed Catalog.line_feed); [|done].
    cbn [length]. rewrite IH. destruct (last rest); [done|].
    cbn. lia.
  - apply eqb_false in Hb.
    destruct (byte_eq_dec b Catalog.line_feed); [done|].
    rewrite IH. destruct (last rest) as [b'|]; [done|].
    destruct (Byte.eqb b Catalog.line_feed) eqn:Hb'; [|done].
    by apply byte_dec_bl in Hb'.
Qed.

(** X19.  The record estimate of a JSONL file is its number of lines as a
    binary reader sees them: the number of line feeds, plus one when the
    file does not end with a line feed and is not empty.  For CSV it is
    one less, and never negative.  No other format gets an estimate, nor
    does a file that is missing. *)
Theorem estimate_record_count_spec fs path :
  let ext := Py.lower (Py.suffix path) in
  match completed fs !! path with
  | Some content =>
      let feeds := Z.of_nat (count_occ byte_eq_dec content Catalog.line_feed) in
      let lines :=
        match last content with
        | Some b => if Byte.eqb b Catalog.line_feed then feeds else feeds + 1
        | None => 0
        end in
      Catalog._estimate_record_count fs path
      = if decide (ext = ".jsonl") then Some lines
        else if decide (ext = ".csv") then Some (Z.max 0 (lines - 1))
        else None
  | None => Catalog._estimate_record_count fs path = None
  end.
Proof.
  cbv zeta. unfold Catalog._estimate_record_count.
  destruct (completed fs !! path) as [content|].
  - assert (Py.len (Catalog.binary_lines content)
            = match last content with
              | Some b =>
                  if Byte.eqb b Catalog.line_feed
                  then Z.of_nat (count_occ byte_eq_dec content Catalog.line_feed)
                  else Z.of_nat (count_occ byte_eq_dec content
                                   Catalog.line_feed) + 1
              | None => 0
              end) as Hlen.
    { unfold Py.len, Catalog.binary_lines. rewrite length_binary_lines_from.
      destruct (last content) as [b'|] eqn:Hlast.
      - destruct (Byte.eqb b' Catalog.line_feed); lia.
      - apply last_None in Hlast as ->. done. }
    rewrite Hlen.
    destruct (String.eqb_spec (Py.lower (Py.suffix path)) ".jsonl") as [->|Hj].
    + done.
    + rewrite decide_False by done.
      destruct (String.eqb_spec (Py.lower (Py.suffix path)) ".csv") as [->|Hc].
      * done.
      * by rewrite decide_False.
  - by repeat destruct (String.eqb _ _).
Qed.

(** ** The request handlers *)








Lemma missing_chunks_fresh session :
  received_chunks session = ∅ →
  get_missing_chunks session = seqZ 0 (total_chunks session).
Proof.
  intros He. unfold get_missing_chunks. rewrite He, difference_empty_L.
  apply (Sorted_unique Z.le).
  - apply sorted_Sorted.
  - apply Sorted_seqZ_le.
  - rewrite sorted_Permutation. apply elements_list_to_set, NoDup_seqZ.
Qed.

(** X22.  The init endpoint answers 422 exactly when the file name or the
    size is absent or ill-typed, the size is not positive, or the checksum
    is ill-typed, and then changes nothing; it answers 500 exactly when the
    body is valid and the chunk size is zero.  A session it creates with a
    positive chunk size has at least one chunk, so a completion request
    before any chunk is uploaded is answered with 400 and the full list of
    indices as missing, and changes nothing. *)
Theorem init_endpoint svc body uuid4 now :
  let '(svc1, response) := Handlers.init_upload svc body uuid4 now in
  (response = Handlers.InitInvalid ↔
   (∀ name, Handlers.body_filename body ≠ Handlers.Given name) ∨
   (∀ n, Handlers.body_totalSize body = Handlers.Given n → n ≤ 0) ∨
   Handlers.body_checksum body = Handlers.IllTyped) ∧
  (response = Handlers.InitInvalid → svc1 = svc) ∧
  (∀ e, response = Handlers.InitFailed e ↔
        e = ZeroDivisionError ∧ service_chunk_size svc = 0 ∧
        Handlers.parse_init body ≠ None) ∧
  (∀ id cs,
     response = Handlers.InitOk id cs →
     0 < service_chunk_size svc →
     ∃ session,
       id = uuid4 ∧ cs = service_chunk_size svc ∧
       sessions svc1 !! id = Some session ∧
       Handlers.body_filename body = Handlers.Given (filename session) ∧
       Handlers.body_totalSize body = Handlers.Given (total_size session) ∧
       1 ≤ total_chunks session ∧
       ∀ store now' registered_at rev cev,
         Handlers.complete_upload svc1 store id now' registered_at rev cev
         = (svc1, store,
            Handlers.Answered
              (Main.HTTPException 400
                 (Main.Detail
                    ("Upload incomplete: missing chunks "
                     +:+ Py.repr_list (seqZ 0 (total_chunks session))))))).
Proof.
  assert (∀ request,
            Handlers.parse_init body = Some request →
            Handlers.body_filename body
            = Handlers.Given (Models.req_filename request) ∧
            Handlers.body_totalSize body
            = Handlers.Given (Models.totalSize request) ∧
            0 < Models.totalSize request ∧
            Handlers.body_checksum body ≠ Handlers.IllTyped) as Hsome.
  { unfold Handlers.parse_init. intros request.
    destruct (Handlers.body_filename body) as [| |name]; try done.
    destruct (Handlers.body_totalSize body) as [| |n]; try done.
    destruct (Handlers.body_checksum body) as [| |sum]; try done;
      destruct (Z.ltb_spec 0 n); try done; by intros [= <-]. }
  assert (Handlers.parse_init body = None →
          (∀ name, Handlers.body_filename body ≠ Handlers.Given name) ∨
          (∀ n, Handlers.body_totalSize body = Handlers.Given n → n ≤ 0) ∨
          Handlers.body_checksum body = Handlers.IllTyped) as Hnone.
  { unfold Handlers.parse_init.
    destruct (Handlers.body_filename body) as [| |name]; try (by left).
    destruct (Handlers.body_totalSize body) as [| |n];
      try (by right; left).
    destruct (Handlers.body_checksum body) as [| |sum];
      try (by right; right);
      destruct (Z.ltb_spec 0 n); try done;
      intros _; right; left; intros ? [= <-]; lia. }
  unfold Handlers.init_upload.
  destruct (Handlers.parse_init body) as [request|] eqn:Hparse.
  - destruct (Hsome request eq_refl) as (Hname & Hsize & Hpos & Hsum).
    assert (¬ ((∀ name, Handlers.body_filename body ≠ Handlers.Given name) ∨
               (∀ n, Handlers.body_totalSize body = Handlers.Given n → n ≤ 0) ∨
               Handlers.body_checksum body = Handlers.IllTyped)) as Hvalid.
    { intros [H|[H|H]]; [by eapply H| |done].
      specialize (H _ Hsize). lia. }
    unfold init_upload. case_bool_decide as Hcs.
    + split_and!; try done. intros e. split; [by intros [= <-]|].
      by intros (-> & _).
    + split_and!; try done.
      * intros e. split; [done|]. naive_solver.
      * intros id cs [= <- <-] Hcspos.
        eexists. split; [done|]. split; [done|]. cbn [sessions].
        rewrite lookup_insert_eq. split; [reflexivity|].
        cbn [filename total_size total_chunks].
        split; [done|]. split; [done|].
        set (cs := service_chunk_size svc) in *.
        assert (1 ≤ (Models.totalSize request + cs - 1) `div` cs) as Hone.
        { apply Z.div_le_lower_bound; lia. }
        split; [done|]. intros store now' registered_at rev cev.
        unfold Handlers.complete_upload, Main.complete_upload, complete_upload,
          get_session.
        cbn [sessions]. rewrite lookup_insert_eq.
        unfold is_complete, received_count.
        cbn [received_chunks total_chunks]. rewrite size_empty.
        rewrite bool_decide_false by lia. cbn [negb].
        by rewrite missing_chunks_fresh.
  - split_and!; try done.
    + split; [by auto|done].
    + intros e. split; [done|]. by intros (_ & _ & ?).
Qed.

Lemma init_endpoint_witness :
  (Handlers.init_upload Examples.empty_service
     {| Handlers.body_filename := Handlers.Given "x.jsonl";
        Handlers.body_totalSize := Handlers.IllTyped;
        Handlers.body_checksum := Handlers.Missing |} "id1" "t0").2
  = Handlers.InitInvalid.
Proof.
  pose proof (init_endpoint Examples.empty_service
                {| Handlers.body_filename := Handlers.Given "x.jsonl";
                   Handlers.body_totalSize := Handlers.IllTyped;
                   Handlers.body_checksum := Handlers.Missing |} "id1" "t0")
    as Hinit.
  destruct (Handlers.init_upload _ _ _ _) as [svc1 response].
  destruct Hinit as (Hinvalid & _).
  apply Hinvalid. right. left. intros n Hn. discriminate Hn.
Defined.

Lemma main_status_session svc u session :
  sessions svc !! u = Some session →
  Main.get_upload_status svc u
  = Main.Ok200
      {| Main.uploadId := u;
         Main.totalChunks := total_chunks session;
         Main.receivedChunks := Py.sorted (elements (received_chunks session));
         Main.isComplete := is_complete session |}.
Proof.
  intros Hs. unfold Main.get_upload_status, get_upload_status, get_session.
  by rewrite Hs.
Qed.

(** The route on a form whose four fields are given. *)
Lemma chunk_request_given svc u i total data fault events :
  Handlers.chunk_request svc
    {| Handlers.form_uploadId := Handlers.Given u;
       Handlers.form_chunkIndex := Handlers.Given i;
       Handlers.form_totalChunks := Handlers.Given total;
       Handlers.form_chunk := Handlers.Given data |} fault events
  = match fault with
    | Handlers.NoFault =>
        let '(svc', response) :=
          Handlers.upload_chunk svc u i total data events in
        (svc', Handlers.ChunkAnswered response)
    | Handlers.ChunkReadFails => (svc, Handlers.ChunkFailed)
    | Handlers.DirectoryFails =>
        if Handlers.reaches_storage svc u i total
        then (svc, Handlers.ChunkFailed)
        else
          let '(svc', response) :=
            Handlers.upload_chunk svc u i total data events in
          (svc', Handlers.ChunkAnswered response)
    end.
Proof. by destruct fault. Qed.

(** X23.  The chunk route answers 422 exactly when one of the four form
    fields is absent or ill-typed, and 500 exactly when the part cannot be
    read or the upload directory cannot be created for a request that has
    passed the checks of the engine; in both cases nothing changes.
    Otherwise the answer is 200 or 400, and a 400 leaves every session as
    it was.  After a 200, repeating the request changes nothing and is
    answered with 200 again, with the same count, unless it fails with
    500; and the status of the upload lists the index, with as many
    indices as the count returned. *)
Theorem chunk_endpoint svc form fault events :
  let out := Handlers.chunk_request svc form fault events in
  (out.2 = Handlers.ChunkInvalid ↔
   ¬ ∃ u i total data,
       form = {| Handlers.form_uploadId := Handlers.Given u;
                 Handlers.form_chunkIndex := Handlers.Given i;
                 Handlers.form_totalChunks := Handlers.Given total;
                 Handlers.form_chunk := Handlers.Given data |}) ∧
  (out.2 = Handlers.ChunkInvalid ∨ out.2 = Handlers.ChunkFailed →
   out.1 = svc) ∧
  (∀ u i total data,
     Handlers.parse_chunk form = Some (u, i, total, data) →
     (out.2 = Handlers.ChunkFailed ↔
      fault = Handlers.ChunkReadFails ∨
      fault = Handlers.DirectoryFails ∧
      Handlers.reaches_storage svc u i total = true) ∧
     (∀ status detail,
        out.2 = Handlers.ChunkAnswered (Main.HTTPException status detail) →
        status = 400 ∧ (∃ msg, detail = Main.Detail msg) ∧
        sessions out.1 = sessions svc) ∧
     (∀ body,
        out.2 = Handlers.ChunkAnswered (Main.Ok200 body) →
        let again :=
          Handlers.ChunkAnswered
            (Main.Ok200
               {| Handlers.chunk_success := true;
                  Handlers.chunk_receivedChunks :=
                    Handlers.chunk_receivedChunks body;
                  Handlers.chunk_message :=
                    "Chunk already uploaded (idempotent)" |}) in
        Handlers.chunk_success body = true ∧
        (∀ fault' events',
           let out' := Handlers.chunk_request out.1 form fault' events' in
           out'.1 = out.1 ∧
           (out'.2 = again ∨ out'.2 = Handlers.ChunkFailed) ∧
           (fault' = Handlers.NoFault → out'.2 = again)) ∧
        ∃ st,
          Main.get_upload_status out.1 u = Main.Ok200 st ∧
          i ∈ Main.receivedChunks st ∧
          Py.len (Main.receivedChunks st) = Handlers.chunk_receivedChunks body ∧
          Main.totalChunks st = total)).
Proof.
  cbv zeta.
  destruct (Handlers.parse_chunk form) as [[[[u i] total] data]|] eqn:Hparse.
  2:{ unfold Handlers.chunk_request. rewrite Hparse.
      split_and!; [|done|done]. split; [|done]. intros _ (u & i & t & d & ->).
      done. }
  assert (form = {| Handlers.form_uploadId := Handlers.Given u;
                    Handlers.form_chunkIndex := Handlers.Given i;
                    Handlers.form_totalChunks := Handlers.Given total;
                    Handlers.form_chunk := Handlers.Given data |}) as Hform.
  { destruct form as [[| |u'] [| |i'] [| |t'] [| |d']]; try done.
    by injection Hparse as -> -> -> ->. }
  subst form.
  rewrite (chunk_request_given svc u i total data fault events).
  pose proof (upload_chunk_effect svc u i data total events) as Heff.
  pose proof (upload_chunk_acknowledged svc u i data total events) as Hagain.
  cbv zeta in Heff, Hagain.
  assert (∀ svc1 ok n msg,
            upload_chunk svc u i data total events = (svc1, (ok, n, msg)) →
            let out :=
              (let '(svc', response) :=
                 Handlers.upload_chunk svc u i total data events in
               (svc', Handlers.ChunkAnswered response)) in
            out.2 ≠ Handlers.ChunkInvalid ∧ out.2 ≠ Handlers.ChunkFailed ∧
            (∀ status detail,
               out.2 = Handlers.ChunkAnswered
                         (Main.HTTPException status detail) →
               status = 400 ∧ (∃ m, detail = Main.Detail m) ∧
               sessions out.1 = sessions svc) ∧
            (∀ body,
               out.2 = Handlers.ChunkAnswered (Main.Ok200 body) →
               ok = true ∧ out.1 = svc1 ∧
               body = {| Handlers.chunk_success := true;
                         Handlers.chunk_receivedChunks := n;
                         Handlers.chunk_message := msg |})) as Hhandled.
  { intros svc1 ok n msg Hrun. cbv zeta. unfold Handlers.upload_chunk.
    rewrite Hrun in *. cbn [fst snd] in *.
    destruct Heff as (Hfail & _).
    destruct ok; cbn [negb fst snd]; split_and!; try done.
    - by intros body [= <-].
    - intros status detail [= <- <-]. split; [done|]. split; [by eexists|].
      by apply Hfail. }
  destruct (upload_chunk svc u i data total events) as [svc1 [[ok n] msg]]
    eqn:Hrun.
  specialize (Hhandled svc1 ok n msg eq_refl). cbv zeta in Hhandled.
  cbn [fst snd] in Heff, Hagain.
  destruct Heff as (_ & Hack & _).
  split_and!.
  - split; [|intros Hno; exfalso; apply Hno; eauto 10].
    destruct fault; try done; [by intros ?; apply Hhandled in H|].
    destruct (Handlers.reaches_storage svc u i total); [done|].
    intros H. by apply Hhandled in H.
  - intros Hbad. destruct fault; try done.
    + destruct Hbad as [H|H]; by apply Hhandled in H.
    + destruct (Handlers.reaches_storage svc u i total); [done|].
      destruct Hbad as [H|H]; by apply Hhandled in H.
  - intros u' i' total' data' [= <- <- <- <-].
    (* the repeated request, on the state after an acknowledged one *)
    assert (ok = true →
            ∀ fault' events',
              let out' :=
                match fault' with
                | Handlers.NoFault =>
                    let '(svc', response) :=
                      Handlers.upload_chunk svc1 u i total data events' in
                    (svc', Handlers.ChunkAnswered response)
                | Handlers.ChunkReadFails => (svc1, Handlers.ChunkFailed)
                | Handlers.DirectoryFails =>
                    if Handlers.reaches_storage svc1 u i total
                    then (svc1, Handlers.ChunkFailed)
                    else
                      let '(svc', response) :=
                        Handlers.upload_chunk svc1 u i total data events' in
                      (svc', Handlers.ChunkAnswered response)
                end in
              let again :=
                Handlers.ChunkAnswered
                  (Main.Ok200
                     {| Handlers.chunk_success := true;
                        Handlers.chunk_receivedChunks := n;
                        Handlers.chunk_message :=
                          "Chunk already uploaded (idempotent)" |}) in
              out'.1 = svc1 ∧
              (out'.2 = again ∨ out'.2 = Handlers.ChunkFailed) ∧
              (fault' = Handlers.NoFault → out'.2 = again)) as Hrepeat.
    { intros -> fault' events'. cbv zeta.
      assert ((let '(svc', response) :=
                 Handlers.upload_chunk svc1 u i total data events' in
               (svc', Handlers.ChunkAnswered response))
              = (svc1,
                 Handlers.ChunkAnswered
                   (Main.Ok200
                      {| Handlers.chunk_success := true;
                         Handlers.chunk_receivedChunks := n;
                         Handlers.chunk_message :=
                           "Chunk already uploaded (idempotent)" |})))
        as Hsame.
      { unfold Handlers.upload_chunk. by rewrite (Hagain events' eq_refl). }
      destruct fault'; rewrite ?Hsame; cbn [fst snd].
      - by split_and!; [|left|].
      - by split_and!; [|right|].
      - destruct (Handlers.reaches_storage svc1 u i total);
          rewrite ?Hsame; cbn [fst snd]; split_and!; try done; by auto. }
    assert (∀ body,
              ok = true →
              body = {| Handlers.chunk_success := true;
                        Handlers.chunk_receivedChunks := n;
                        Handlers.chunk_message := msg |} →
              ∃ st,
                Main.get_upload_status svc1 u = Main.Ok200 st ∧
                i ∈ Main.receivedChunks st ∧
                Py.len (Main.receivedChunks st)
                = Handlers.chunk_receivedChunks body ∧
                Main.totalChunks st = total) as Hstatus.
    { intros body -> ->.
      destruct (Hack eq_refl)
        as (session & c & Hs & Hi & -> & Hse & -> & _).
      rewrite (main_status_session svc1 u (add_received session i))
        by (by rewrite Hse, lookup_insert_eq).
      eexists. split; [reflexivity|]. cbn. split_and!.
      - rewrite sorted_Permutation. apply elem_of_elements. set_solver.
      - unfold Py.len. by rewrite sorted_Permutation.
      - done. }
    destruct Hhandled as (Hno422 & Hno500 & H400 & H200).
    assert (∀ body,
              let given :=
                {| Handlers.form_uploadId := Handlers.Given u;
                   Handlers.form_chunkIndex := Handlers.Given i;
                   Handlers.form_totalChunks := Handlers.Given total;
                   Handlers.form_chunk := Handlers.Given data |} in
              (let '(svc', response) :=
                 Handlers.upload_chunk svc u i total data events in
               (svc', Handlers.ChunkAnswered response)).2
              = Handlers.ChunkAnswered (Main.Ok200 body) →
              Handlers.chunk_success body = true ∧
              (∀ fault' events',
                 (Handlers.chunk_request svc1 given fault' events').1 = svc1 ∧
                 ((Handlers.chunk_request svc1 given fault' events').2
                  = Handlers.ChunkAnswered
                      (Main.Ok200
                         {| Handlers.chunk_success := true;
                            Handlers.chunk_receivedChunks :=
                              Handlers.chunk_receivedChunks body;
                            Handlers.chunk_message :=
                              "Chunk already uploaded (idempotent)" |}) ∨
                  (Handlers.chunk_request svc1 given fault' events').2
                  = Handlers.ChunkFailed) ∧
                 (fault' = Handlers.NoFault →
                  (Handlers.chunk_request svc1 given fault' events').2
                  = Handlers.ChunkAnswered
                      (Main.Ok200
                         {| Handlers.chunk_success := true;
                            Handlers.chunk_receivedChunks :=
                              Handlers.chunk_receivedChunks body;
                            Handlers.chunk_message :=
                              "Chunk already uploaded (idempotent)" |}))) ∧
              ∃ st,
                Main.get_upload_status svc1 u = Main.Ok200 st ∧
                i ∈ Main.receivedChunks st ∧
                Py.len (Main.receivedChunks st)
                = Handlers.chunk_receivedChunks body ∧
                Main.totalChunks st = total) as Hgood.
    { intros body given Hbody. subst given.
      destruct (H200 body Hbody) as (Hok & _ & Hb).
      split; [by rewrite Hb|]. split; [|by apply Hstatus].
      intros fault' events'. rewrite chunk_request_given.
      rewrite Hb. cbn [Handlers.chunk_receivedChunks].
      apply (Hrepeat Hok fault' events'). }
    assert (∀ body,
              (let '(svc', response) :=
                 Handlers.upload_chunk svc u i total data events in
               (svc', Handlers.ChunkAnswered response)).2
              = Handlers.ChunkAnswered (Main.Ok200 body) →
              (let '(svc', response) :=
                 Handlers.upload_chunk svc u i total data events in
               (svc', Handlers.ChunkAnswered response)).1 = svc1) as Hfst.
    { intros body Hbody. by destruct (H200 body Hbody) as (_ & ? & _). }
    destruct fault.
    + split_and!.
      * split; [done|]. intros [?|[? _]]; done.
      * done.
      * intros body Hbody. cbv zeta. rewrite (Hfst body Hbody). by apply Hgood.
    + cbn [fst snd]. split_and!; [|done|done]. split; [by left|done].
    + destruct (Handlers.reaches_storage svc u i total) eqn:Hreach.
      * cbn [fst snd]. split_and!; [|done|done]. split; [by right|done].
      * split_and!.
        -- split; [done|]. intros [?|[_ ?]]; done.
        -- done.
        -- intros body Hbody. cbv zeta. rewrite (Hfst body Hbody). by apply Hgood.
Qed.

Lemma chunk_endpoint_witness :
  let form :=
    {| Handlers.form_uploadId := Handlers.Given "id1";
       Handlers.form_chunkIndex := Handlers.Given 1;
       Handlers.form_totalChunks := Handlers.Given 2;
       Handlers.form_chunk := Handlers.Given Examples.chunk1 |} in
  let out := Handlers.chunk_request Examples.started form Handlers.NoFault [] in
  (Handlers.chunk_request out.1 form Handlers.NoFault [StoreUnexpected]).2
  = Handlers.ChunkAnswered
      (Main.Ok200
         {| Handlers.chunk_success := true;
            Handlers.chunk_receivedChunks := 1;
            Handlers.chunk_message := "Chunk already uploaded (idempotent)" |}).
Proof.
  intros form out.
  destruct (chunk_endpoint Examples.started form Handlers.NoFault [])
    as (_ & _ & Hok).
  destruct (Hok "id1" 1 2 Examples.chunk1 eq_refl) as (_ & _ & H200).
  destruct (H200 {| Handlers.chunk_success := true;
                    Handlers.chunk_receivedChunks := 1;
                    Handlers.chunk_message := "Chunk uploaded successfully" |})
    as (_ & Hagain & _); [vm_compute; reflexivity|].
  destruct (Hagain Handlers.NoFault [StoreUnexpected]) as (_ & _ & Hno).
  exact (Hno eq_refl).
Defined.

Lemma sorted_seqZ n : Py.sorted (seqZ 0 n) = seqZ 0 n.
Proof.
  apply (Sorted_unique Z.le).
  - apply sorted_Sorted.
  - apply Sorted_seqZ_le.
  - apply sorted_Permutation.
Qed.

Lemma max_seqZ n : 0 < n → Py.max (seqZ 0 n) = Some (n - 1).
Proof.
  intros Hn.
  destruct (max_spec (seqZ 0 n)) as (m & Hmax & Hin & Hle).
  { rewrite seqZ_cons by done. done. }
  rewrite Hmax. f_equal. apply elem_of_seqZ in Hin.
  specialize (Hle (n - 1)). rewrite elem_of_seqZ in Hle. lia.
Qed.

(** X24.  When the engine has lost a session whose chunks are all on disk
    (the registry lives in memory only), the answers contradict each other:
    the status endpoint infers the chunk count from the listing and reports
    the upload as complete, while a completion request is answered with
    400 and a chunk request with "not found"; nothing can finish the
    upload. *)
Theorem lost_session_cannot_complete svc u n :
  sessions svc !! u = None →
  0 < n →
  list_chunks (storage svc) u = seqZ 0 n →
  Main.get_upload_status svc u
  = Main.Ok200 {| Main.uploadId := u;
                  Main.totalChunks := n;
                  Main.receivedChunks := seqZ 0 n;
                  Main.isComplete := true |} ∧
  (∀ now rev cev,
     Main.complete_upload svc u now rev cev
     = (svc, Main.HTTPException 400 (Main.Detail "Failed to complete upload"))) ∧
  (∀ i data total events,
     Handlers.upload_chunk svc u i total data events
     = (svc,
        Main.HTTPException 400
          (Main.Detail ("Upload session " +:+ u +:+ " not found")))).
Proof.
  intros Hs Hn Hlist. split_and!.
  - unfold Main.get_upload_status, get_upload_status, get_session.
    rewrite Hs, Hlist. rewrite (seqZ_cons 0 n) at 1 by done.
    cbn [status_total_chunks status_received_chunks].
    rewrite !sorted_seqZ, max_seqZ by done.
    replace (n - 1 + 1) with n by lia.
    rewrite bool_decide_true; [done|].
    unfold Py.len. rewrite length_seqZ. lia.
  - intros. unfold Main.complete_upload, complete_upload, get_session.
    by rewrite Hs.
  - intros. unfold Handlers.upload_chunk.
    by rewrite upload_chunk_not_found.
Qed.

Lemma lost_session_cannot_complete_witness :
  let svc := Service (storage Examples.uploaded) 4 ∅ in
  Main.get_upload_status svc "id1"
  = Main.Ok200 {| Main.uploadId := "id1";
                  Main.totalChunks := 2;
                  Main.receivedChunks := [0; 1];
                  Main.isComplete := true |}.
Proof.
  intros svc.
  destruct (lost_session_cannot_complete svc "id1" 2) as [Hstatus _].
  - reflexivity.
  - lia.
  - vm_compute. reflexivity.
  - exact Hstatus.
Defined.
